(** * Batched parsing readers of neurosis/reader_ops.cc

    A shallow embedding of [ParsingReader], [GoldParseReader] and
    [DecodedParseReader] (src/syntaxnet/neurosis/reader_ops.cc), with the
    properties of one [Compute] step that the specification states, and of
    [WordEmbeddingInitializer] of the same file, with the properties of its
    copy, normalization and loading of embedding vectors.

    The transition system, the parser state, the feature extractor and the
    sentence batch are declared in headers that reader_ops.cc includes; they
    appear here as interfaces (type classes) or as small models, and the
    readers are written over them the way the C++ is. *)

From Stdlib Require Import ZArith Lia SpecFloat.
From stdpp Require Import base list strings gmap pretty.

Local Open Scope Z_scope.

(* ===================================================================== *)
(** ** Machine integers *)

(** [int] is a 32-bit signed integer; [++x] is modelled with two's
    complement wrap-around. *)
Definition int32_wrap (z : Z) : Z := (z + 2 ^ 31) mod 2 ^ 32 - 2 ^ 31.

Definition incr (z : Z) : Z := int32_wrap (z + 1).

Definition int32_range (z : Z) : Prop := - 2 ^ 31 <= z < 2 ^ 31.

(* ===================================================================== *)
(** ** Floats

    Scores are IEEE-754 values ([spec_float] has no precision of its own, so
    it covers [float]); the reader only compares them. *)

Definition float := spec_float.

(** The constant [-INFINITY] of <math.h>. *)
Definition neg_infinity : float := S754_infinity true.

(** [a > b] on floats: false as soon as one side is a NaN. *)
Definition float_gt (a b : float) : bool := SFltb b a.

Definition float_ge (a b : float) : bool := SFleb b a.

Definition is_nan (a : float) : bool :=
  match a with S754_nan => true | _ => false end.

(* ===================================================================== *)
(** ** Data *)

(** Modelled from the spec: the [Sentence] and [Token] messages of
    sentence.proto, which is not part of the sources; section 3 describes a
    sentence as an ordered sequence of tokens with word, tag, head and label
    fields. *)
Record Token := mkToken {
  word : string;
  tag : string;
  head : Z;
  label : string
}.

Record Sentence := mkSentence { token : list Token }.

Definition token_size (s : Sentence) : nat := length (token s).

(** A dense float matrix, as [Tensor::matrix<float>()] gives it:
    [dimension1] columns and a coefficient for every (row, column); reading
    outside the dimensions is undefined in the C++ and left to [coeff]
    here. *)
Record Matrix := mkMatrix {
  dimension0 : nat;
  dimension1 : nat;
  coeff : nat -> nat -> float
}.

(** [ParserAction] is an [int]. *)
Definition ParserAction := Z.

(* ===================================================================== *)
(** ** Interfaces of the collaborators *)

(** parser_state.h and parser_transitions.h: what the readers call on a
    [ParserState] and on the [ParserTransitionSystem]. [PerformAction]
    mutates the state in place; here it returns the new state. *)
Class ParserTransitionSystem (ParserState : Type) := {
  (** [new ParserState(sentence, NewTransitionState(true), label_map_)] *)
  NewParserState : Sentence -> ParserState;
  sentence : ParserState -> Sentence;
  IsTokenCorrect : ParserState -> nat -> bool;
  AddParseToDocument : ParserState -> Sentence -> Sentence;
  IsAllowedAction : ParserAction -> ParserState -> bool;
  PerformAction : ParserAction -> ParserState -> ParserState;
  IsFinalState : ParserState -> bool;
  GetNextGoldAction : ParserState -> ParserAction
}.

(** feature_extractor.h: [ParserEmbeddingFeatureExtractor] with its
    workspaces, and the serialization of a [SparseFeatures] message. *)
Class FeatureExtractor (ParserState WorkspaceSet SparseFeatures : Type) := {
  NumEmbeddings : nat;
  FeatureSize : nat -> nat;
  (** a workspace set after [Reset(workspace_registry_)] *)
  ResetWorkspace : WorkspaceSet;
  Preprocess : WorkspaceSet -> ParserState -> WorkspaceSet;
  ExtractSparseFeatures :
    WorkspaceSet -> ParserState -> list (list SparseFeatures);
  SerializeAsString : SparseFeatures -> string
}.

(** The environment of the decoded reader: [utils::PunctuationUtil::ScoreToken]
    and the serialization of a [Sentence]. *)
Class DocumentOps := {
  ScoreToken : string -> string -> string -> bool;
  SerializeSentence : Sentence -> string
}.

(* ===================================================================== *)
(** ** Sentence batch *)

(** Modelled from the spec: [SentenceBatch] (sentence_batch.h is not part of
    the sources). Section 4.4: [AdvanceSentence(slot)] loads the next sentence
    into the slot and returns true if more sentences remain, otherwise leaves
    the slot empty and returns false; [size()] counts the occupied slots;
    [Rewind()] resets the corpus cursor to the start; [sentence(slot)] is the
    sentence currently loaded. *)
Record SentenceBatch := mkBatch {
  corpus : list Sentence;
  cursor : nat;
  sentences_ : list (option Sentence)
}.

Definition Batch_Init (batch_size : nat) (c : list Sentence) : SentenceBatch :=
  mkBatch c 0 (replicate batch_size None).

Definition Batch_AdvanceSentence (index : nat) (b : SentenceBatch)
  : bool * SentenceBatch :=
  match corpus b !! cursor b with
  | Some s =>
      (true, mkBatch (corpus b) (S (cursor b)) (<[index := Some s]> (sentences_ b)))
  | None =>
      (false, mkBatch (corpus b) (cursor b) (<[index := None]> (sentences_ b)))
  end.

Definition Batch_size (b : SentenceBatch) : nat :=
  length (omap id (sentences_ b)).

Definition Batch_Rewind (b : SentenceBatch) : SentenceBatch :=
  mkBatch (corpus b) 0 (sentences_ b).

Definition Batch_sentence (index : nat) (b : SentenceBatch) : option Sentence :=
  default None (sentences_ b !! index).

(** Sentences the cursor has not reached yet. *)
Definition unread (b : SentenceBatch) : nat := (length (corpus b) - cursor b)%nat.

(* ===================================================================== *)
(** ** Kernel context and results *)

(** What a reader uses of [OpKernelContext]: the first input tensor and
    [allocate_output], which either yields a tensor of the requested shape or
    a non-OK status ([can_allocate] tells which, per output index). *)
Record OpKernelContext := mkContext {
  input0 : Matrix;
  can_allocate : nat -> bool
}.

(** Output tensors of one [Compute]. Outputs [0 .. feature_size_ - 1] are the
    feature groups (string matrices, one list per row), output [feature_size_]
    is the epoch scalar, the following ones belong to the subclass. *)
Inductive AdditionalOutputs :=
  | GoldOutputs (gold_actions : list Z)
  | DecodedOutputs (eval_metrics : list Z) (document_output : list string).

Record Outputs := mkOutputs {
  feature_outputs : list (list (list string));
  epoch_output : Z;
  additional_outputs : AdditionalOutputs
}.

(** How a call of [Compute] ends: it returns with its outputs set, it returns
    early because [OP_REQUIRES_OK] recorded a non-OK status in the context, or
    a [CHECK] fails and the process is aborted. The first two leave the reader
    object behind. *)
Inductive Result (R A : Type) :=
  | Value (a : A) (r : R)
  | Failed (r : R)
  | Aborted.
Arguments Value {R A} a r.
Arguments Failed {R A} r.
Arguments Aborted {R A}.

Definition M (R A : Type) : Type := R -> Result R A.

Definition ret {R A} (a : A) : M R A := fun r => Value a r.

Definition bind {R A B} (m : M R A) (k : A -> M R B) : M R B :=
  fun r => match m r with
           | Value a r' => k a r'
           | Failed r' => Failed r'
           | Aborted => Aborted
           end.

Definition gets {R A} (f : R -> A) : M R A := fun r => Value (f r) r.

Definition modify {R} (f : R -> R) : M R unit := fun r => Value tt (f r).

(** [OP_REQUIRES_OK(context, status)]: go on when the status is OK, return
    from [Compute] otherwise. *)
Definition OP_REQUIRES_OK {R} (ok : bool) : M R unit :=
  fun r => if ok then Value tt r else Failed r.

Declare Scope reader_scope.
Delimit Scope reader_scope with reader.
Notation "'do' x <- m 'in' k" := (bind m (fun x => k))
  (at level 10, x pattern, m at level 100, k at level 200) : reader_scope.
Notation "'run' m 'in' k" := (bind m (fun _ => k))
  (at level 10, m at level 100, k at level 200) : reader_scope.

(** [for (i = 0; i < n; ++i) body], with the loop-carried variables in [s]. *)
Definition for_loop {S : Type} (n : nat) (body : nat -> S -> S) (s : S) : S :=
  foldl (fun s i => body i s) s (seq 0 n).

(** The same loop with a body that may stop it ([None]). *)
Definition for_loop_opt {S : Type} (n : nat) (body : nat -> S -> option S)
    (s : S) : option S :=
  foldl (fun acc i => match acc with Some s => body i s | None => None end)
        (Some s) (seq 0 n).

(* ===================================================================== *)
(** ** The readers *)

Section Readers.

Context {ParserState WorkspaceSet SparseFeatures : Type}.
Context {transition_system_ : ParserTransitionSystem ParserState}.
Context {features_ : FeatureExtractor ParserState WorkspaceSet SparseFeatures}.
Context {document_ops : DocumentOps}.

(** Which registered kernel an object is; [PerformActions] and
    [AddAdditionalOutputs] are virtual and dispatch on it. *)
Inductive ReaderKind := GoldParseReader | DecodedParseReader.

(** The members of [ParsingReader], followed by those that
    [DecodedParseReader] adds (a [GoldParseReader] adds none and never reads
    them). A null [unique_ptr<ParserState>] is [None]. *)
Record ParsingReader := mkReader {
  kind : ReaderKind;
  num_epochs_ : Z;
  max_batch_size_ : nat;
  feature_size_ : nat;
  sentence_batch_ : SentenceBatch;
  states_ : list (option ParserState);
  workspaces_ : list WorkspaceSet;
  (* DecodedParseReader *)
  num_tokens_ : Z;
  num_correct_ : Z;
  scoring_type_ : string;
  documents_ : list Sentence
}.

Definition set_num_epochs (v : Z) (r : ParsingReader) : ParsingReader :=
  mkReader (kind r) v (max_batch_size_ r) (feature_size_ r) (sentence_batch_ r)
    (states_ r) (workspaces_ r) (num_tokens_ r) (num_correct_ r)
    (scoring_type_ r) (documents_ r).

Definition set_sentence_batch (v : SentenceBatch) (r : ParsingReader)
  : ParsingReader :=
  mkReader (kind r) (num_epochs_ r) (max_batch_size_ r) (feature_size_ r) v
    (states_ r) (workspaces_ r) (num_tokens_ r) (num_correct_ r)
    (scoring_type_ r) (documents_ r).

Definition set_states (v : list (option ParserState)) (r : ParsingReader)
  : ParsingReader :=
  mkReader (kind r) (num_epochs_ r) (max_batch_size_ r) (feature_size_ r)
    (sentence_batch_ r) v (workspaces_ r) (num_tokens_ r) (num_correct_ r)
    (scoring_type_ r) (documents_ r).

Definition set_workspaces (v : list WorkspaceSet) (r : ParsingReader)
  : ParsingReader :=
  mkReader (kind r) (num_epochs_ r) (max_batch_size_ r) (feature_size_ r)
    (sentence_batch_ r) (states_ r) v (num_tokens_ r) (num_correct_ r)
    (scoring_type_ r) (documents_ r).

Definition set_num_tokens (v : Z) (r : ParsingReader) : ParsingReader :=
  mkReader (kind r) (num_epochs_ r) (max_batch_size_ r) (feature_size_ r)
    (sentence_batch_ r) (states_ r) (workspaces_ r) v (num_correct_ r)
    (scoring_type_ r) (documents_ r).

Definition set_num_correct (v : Z) (r : ParsingReader) : ParsingReader :=
  mkReader (kind r) (num_epochs_ r) (max_batch_size_ r) (feature_size_ r)
    (sentence_batch_ r) (states_ r) (workspaces_ r) (num_tokens_ r) v
    (scoring_type_ r) (documents_ r).

Definition set_documents (v : list Sentence) (r : ParsingReader)
  : ParsingReader :=
  mkReader (kind r) (num_epochs_ r) (max_batch_size_ r) (feature_size_ r)
    (sentence_batch_ r) (states_ r) (workspaces_ r) (num_tokens_ r)
    (num_correct_ r) (scoring_type_ r) v.

(** The object the constructor leaves: [resize] gives [max_batch_size_] null
    states and as many workspaces, the batch is initialised on the corpus, the
    counters are zero. *)
Definition new_reader (k : ReaderKind) (batch_size feature_size : nat)
    (scoring : string) (c : list Sentence) : ParsingReader :=
  mkReader k 0 batch_size feature_size (Batch_Init batch_size c)
    (replicate batch_size None) (replicate batch_size ResetWorkspace)
    0 0 scoring [].

(** Accessors. Both vectors have [max_batch_size_] entries and every loop
    runs below that bound, so the indices stay within them; outside, where the
    C++ is undefined, the model reads a null state and writes nothing. *)
Definition max_batch_size (r : ParsingReader) : nat := max_batch_size_ r.
Definition batch_size (r : ParsingReader) : nat := Batch_size (sentence_batch_ r).
Definition additional_output_index (r : ParsingReader) : nat :=
  (feature_size_ r + 1)%nat.
Definition state (r : ParsingReader) (i : nat) : option ParserState :=
  default None (states_ r !! i).

(** [states_[i]] is assigned, or the state it points to is mutated in place. *)
Definition set_state (i : nat) (st : option ParserState) (r : ParsingReader)
  : ParsingReader :=
  set_states (<[i := st]> (states_ r)) r.

(** [ParsingReader::AdvanceSentence]: creates a new [ParserState] if there is
    another sentence to be read. *)
Definition AdvanceSentence (index : nat) (r : ParsingReader) : ParsingReader :=
  let r := set_state index None r in
  let '(more, batch) := Batch_AdvanceSentence index (sentence_batch_ r) in
  let r := set_sentence_batch batch r in
  if more then
    match Batch_sentence index batch with
    | Some s =>
        let st := NewParserState s in
        let r := set_state index (Some st) r in
        set_workspaces
          (<[index := Preprocess ResetWorkspace st]> (workspaces_ r)) r
    | None => r
    end
  else r.

(** The loop "while the state of slot i is final: AdvanceSentence(i); break
    if state(i) is null". Every turn but the last consumes a
    sentence of the corpus, so [fuel] bounds the turns; [advance_final] below
    supplies enough of it. *)
Fixpoint while_final (fuel : nat) (i : nat) (r : ParsingReader)
  : ParsingReader :=
  match fuel with
  | O => r
  | S fuel =>
      match state r i with
      | None => r
      | Some st =>
          if IsFinalState st then
            let r := AdvanceSentence i r in
            match state r i with
            | None => r (* EOF has been reached *)
            | Some _ => while_final fuel i r
            end
          else r
      end
  end.

(** "Advances any final states to the next sentences": the first loop of
    [Compute]. *)
Definition advance_final (i : nat) (r : ParsingReader) : ParsingReader :=
  match state r i with
  | None => r (* continue *)
  | Some _ => while_final (S (unread (sentence_batch_ r))) i r
  end.

Definition AdvanceFinalStates (r : ParsingReader) : ParsingReader :=
  for_loop (max_batch_size_ r) advance_final r.

(** "Rewinds if no states remain in the batch". *)
Definition RewindIfEmpty (r : ParsingReader) : ParsingReader :=
  if decide (Batch_size (sentence_batch_ r) = 0%nat) then
    let r := set_num_epochs (incr (num_epochs_ r)) r in
    let r := set_sentence_batch (Batch_Rewind (sentence_batch_ r)) r in
    for_loop (max_batch_size_ r) AdvanceSentence r
  else r.

(* --------------------------------------------------------------------- *)
(** *** GoldParseReader *)

(** "Always performs the next gold action for each state." *)
Definition GoldPerformActions (r : ParsingReader) : ParsingReader :=
  for_loop (max_batch_size r)
    (fun i r =>
       match state r i with
       | Some st =>
           set_state i (Some (PerformAction (GetNextGoldAction st) st)) r
       | None => r
       end) r.

(** "Add all gold actions for non-null states as an additional output":
    the loop of [GoldParseReader::AddAdditionalOutputs] over a vector of
    [batch_size()] entries; it carries the vector and [batch_index]. *)
Definition gold_actions_loop (r : ParsingReader) (gold_actions : list Z)
  : list Z * nat :=
  for_loop (max_batch_size r)
    (fun i '(gold_actions, batch_index) =>
       match state r i with
       | Some st =>
           let gold_action := GetNextGoldAction st in
           (<[batch_index := gold_action]> gold_actions, S batch_index)
       | None => (gold_actions, batch_index)
       end) (gold_actions, 0%nat).

Definition GoldAddAdditionalOutputs (context : OpKernelContext)
  : M ParsingReader AdditionalOutputs :=
  (do index <- gets additional_output_index in
   run OP_REQUIRES_OK (can_allocate context index) in
   do n <- gets batch_size in
   do filled <- gets (fun r => gold_actions_loop r (replicate n 0)) in
   ret (GoldOutputs (fst filled)))%reader.

(* --------------------------------------------------------------------- *)
(** *** DecodedParseReader *)

(** "Tallies the # of correct and incorrect tokens for a given ParserState."
    [state.GetToken(i)] is [state.sentence().token(i)] for the indices of the
    loop. *)
Definition ComputeTokenAccuracy (st : ParserState) (r : ParsingReader)
  : ParsingReader :=
  for_loop (token_size (sentence st))
    (fun i r =>
       match token (sentence st) !! i with
       | Some tok =>
           if ScoreToken (word tok) (tag tok) (scoring_type_ r) then
             let r := set_num_tokens (incr (num_tokens_ r)) r in
             if IsTokenCorrect st i
             then set_num_correct (incr (num_correct_ r)) r
             else r
           else r
       | None => r
       end) r.

(** The inner loop of [DecodedParseReader::PerformActions] over the columns
    of row [batch_index]; it carries [best_action] and [best_score]. *)
Definition best_action_loop (scores_matrix : Matrix) (batch_index : nat)
    (st : ParserState) : ParserAction * float :=
  for_loop (dimension1 scores_matrix)
    (fun action '(best_action, best_score) =>
       let score := coeff scores_matrix batch_index action in
       if float_gt score best_score && IsAllowedAction (Z.of_nat action) st
       then (Z.of_nat action, score)
       else (best_action, best_score))
    (0, neg_infinity).

Definition best_action (scores_matrix : Matrix) (batch_index : nat)
    (st : ParserState) : ParserAction :=
  fst (best_action_loop scores_matrix batch_index st).

(** The body of the slot loop for a non-null state. *)
Definition decoded_slot (scores_matrix : Matrix) (i batch_index : nat)
    (st : ParserState) (r : ParsingReader) : ParsingReader :=
  let st := PerformAction (best_action scores_matrix batch_index st) st in
  let r := set_state i (Some st) r in
  if IsFinalState st then
    let r := ComputeTokenAccuracy st r in
    set_documents (documents_ r ++ [AddParseToDocument st (sentence st)]) r
  else r.

(** "Performs the allowed action with the highest score on the given state.
    Also records the accuracy whenver a terminal action is taken." *)
Definition DecodedPerformActions (context : OpKernelContext)
    (r : ParsingReader) : ParsingReader :=
  let scores_matrix := input0 context in
  let r := set_num_tokens 0 r in
  let r := set_num_correct 0 r in
  fst (for_loop (max_batch_size r)
         (fun i '(r, batch_index) =>
            match state r i with
            | Some st => (decoded_slot scores_matrix i batch_index st r,
                          S batch_index)
            | None => (r, batch_index)
            end) (r, 0%nat)).

(** The loop that serializes [documents_] into a vector of
    [documents_.size()] strings. *)
Definition document_output_loop (docs : list Sentence) (out : list string)
  : list string :=
  for_loop (length docs)
    (fun i out =>
       match docs !! i with
       | Some d => <[i := SerializeSentence d]> out
       | None => out
       end) out.

Definition DecodedAddAdditionalOutputs (context : OpKernelContext)
  : M ParsingReader AdditionalOutputs :=
  (do index <- gets additional_output_index in
   run OP_REQUIRES_OK (can_allocate context index) in
   do num_tokens <- gets num_tokens_ in
   do num_correct <- gets num_correct_ in
   let eval_metrics := <[1%nat := num_correct]> (<[0%nat := num_tokens]> [0; 0]) in
   run OP_REQUIRES_OK (can_allocate context (index + 1)%nat) in
   do docs <- gets documents_ in
   let document_output :=
     document_output_loop docs (replicate (length docs) String.EmptyString) in
   run modify (set_documents []) in
   ret (DecodedOutputs eval_metrics document_output))%reader.

(* --------------------------------------------------------------------- *)
(** *** ParsingReader::Compute *)

Definition PerformActions (context : OpKernelContext) (r : ParsingReader)
  : ParsingReader :=
  match kind r with
  | GoldParseReader => GoldPerformActions r
  | DecodedParseReader => DecodedPerformActions context r
  end.

Definition AddAdditionalOutputs (context : OpKernelContext)
  : M ParsingReader AdditionalOutputs :=
  fun r => match kind r with
           | GoldParseReader => GoldAddAdditionalOutputs context r
           | DecodedParseReader => DecodedAddAdditionalOutputs context r
           end.

(** "Create the outputs for each feature space": one string matrix of shape
    [(sentence_batch_->size(), FeatureSize(i))] per group; the vector starts
    with null tensors (here: empty matrices). *)
Definition allocate_feature_outputs (context : OpKernelContext)
    (r : ParsingReader) : option (list (list (list string))) :=
  for_loop_opt NumEmbeddings
    (fun i outs =>
       if can_allocate context i then
         Some (<[i := replicate (Batch_size (sentence_batch_ r))
                        (replicate (FeatureSize i) String.EmptyString)]> outs)
       else None)
    (replicate NumEmbeddings []).

(** [features_output(index, k) = v]. *)
Definition set_coeff (index k : nat) (v : string) (t : list (list string))
  : list (list string) :=
  alter (fun row => <[k := v]> row) index t.

(** The loop over the feature spaces of one state; [None] when the [CHECK]
    on the group's size fails. *)
Definition populate_slot (index : nat) (features : list (list SparseFeatures))
    (outs : list (list (list string))) : option (list (list (list string))) :=
  for_loop_opt (length features)
    (fun feature_space outs =>
       match features !! feature_space with
       | Some group =>
           let feature_size := length group in
           if decide (feature_size = FeatureSize feature_space) then
             Some (alter
                     (fun features_output =>
                        for_loop feature_size
                          (fun k out =>
                             match group !! k with
                             | Some f =>
                                 set_coeff index k (SerializeAsString f) out
                             | None => out
                             end) features_output)
                     feature_space outs)
           else None
       | None => Some outs
       end) outs.

(** "Populate feature outputs": the loop over the slots, carrying the output
    tensors and the row [index]. *)
Definition populate_feature_outputs (r : ParsingReader)
    (outs : list (list (list string)))
  : option (list (list (list string)) * nat) :=
  for_loop_opt (max_batch_size_ r)
    (fun i '(outs, index) =>
       match default None (states_ r !! i) with
       | None => Some (outs, index)
       | Some st =>
           let features :=
             ExtractSparseFeatures
               (default ResetWorkspace (workspaces_ r !! i)) st in
           match populate_slot index features outs with
           | Some outs => Some (outs, S index)
           | None => None
           end
       end) (outs, 0%nat).

(** An allocation that fails ends [Compute] with a non-OK status. *)
Definition require_allocated {R A} (o : option A) : M R A :=
  fun r => match o with Some a => Value a r | None => Failed r end.

(** A [CHECK] that fails aborts the process. *)
Definition require_checked {R A} (o : option A) : M R A :=
  fun r => match o with Some a => Value a r | None => Aborted end.

Definition Compute (context : OpKernelContext) : M ParsingReader Outputs :=
  ((* Advances states to the next positions. *)
   run modify (PerformActions context) in
   (* Advances any final states to the next sentences. *)
   run modify AdvanceFinalStates in
   (* Rewinds if no states remain in the batch. *)
   run modify RewindIfEmpty in
   (* Create the outputs for each feature space. *)
   do allocated <- (fun r => require_allocated (allocate_feature_outputs context r) r) in
   (* Populate feature outputs. *)
   do populated <- (fun r => require_checked (populate_feature_outputs r allocated) r) in
   (* Return the number of epochs. *)
   do epoch_index <- gets feature_size_ in
   run OP_REQUIRES_OK (can_allocate context epoch_index) in
   do num_epochs <- gets num_epochs_ in
   (* Create outputs specific to this reader. *)
   do additional <- AddAdditionalOutputs context in
   ret (mkOutputs (fst populated) num_epochs additional))%reader.

End Readers.

Arguments ParsingReader : clear implicits.

(* ===================================================================== *)
(** ** Notions used to state the properties *)

Section Notions.

Context {ParserState WorkspaceSet SparseFeatures : Type}.
Context {transition_system_ : ParserTransitionSystem ParserState}.
Context {features_ : FeatureExtractor ParserState WorkspaceSet SparseFeatures}.
Context {document_ops : DocumentOps}.

Abbreviation Reader := (ParsingReader ParserState WorkspaceSet).

Implicit Types (r : Reader) (st : ParserState) (context : OpKernelContext).

(** What the column loop has established after [n] columns. *)
Definition best_so_far (scores : Matrix) (row : nat) st (n : nat)
    (p : ParserAction * float) : Prop :=
  is_nan (snd p) = false /\
  (forall j, (j < n)%nat -> IsAllowedAction (Z.of_nat j) st = true ->
     float_gt (coeff scores row j) (snd p) = false) /\
  ((fst p = 0 /\ snd p = neg_infinity) \/
   (exists a, fst p = Z.of_nat a /\ (a < n)%nat /\
      IsAllowedAction (Z.of_nat a) st = true /\
      snd p = coeff scores row a /\
      float_gt (snd p) neg_infinity = true /\
      forall j, (j < a)%nat -> IsAllowedAction (Z.of_nat j) st = true ->
        float_ge (coeff scores row j) (snd p) = false)).

(** A slot has a state exactly when the batch has a sentence in it. *)
Definition same_occupancy (a : option ParserState) (b : option Sentence)
  : Prop :=
  is_Some a <-> is_Some b.

(** The vectors have [max_batch_size_] entries, a slot has a state exactly
    when the batch has a sentence loaded in it, and the cursor is within the
    corpus. *)
Definition reader_inv r : Prop :=
  length (states_ r) = max_batch_size_ r /\
  length (workspaces_ r) = max_batch_size_ r /\
  Forall2 same_occupancy (states_ r) (sentences_ (sentence_batch_ r)) /\
  (cursor (sentence_batch_ r) <= length (corpus (sentence_batch_ r)))%nat.

(** The fields that the advance pass never writes. *)
Definition same_static r r' : Prop :=
  kind r' = kind r /\
  max_batch_size_ r' = max_batch_size_ r /\
  feature_size_ r' = feature_size_ r /\
  num_epochs_ r' = num_epochs_ r /\
  num_tokens_ r' = num_tokens_ r /\
  num_correct_ r' = num_correct_ r /\
  scoring_type_ r' = scoring_type_ r /\
  documents_ r' = documents_ r /\
  corpus (sentence_batch_ r') = corpus (sentence_batch_ r).

(** Where the loop of slot [i] leaves the reader, when it starts on a final
    state with the cursor at [c]: it has skipped [k] sentences whose initial
    state is final, and either loaded the next one, which is not, or found the
    corpus exhausted and left the slot empty. *)
Definition advanced_to (i : nat) r r' : Prop :=
  let b := sentence_batch_ r in
  exists k : nat,
    (forall j s, (j < k)%nat -> corpus b !! (cursor b + j)%nat = Some s ->
       IsFinalState (NewParserState s) = true) /\
    (cursor b + k <= length (corpus b))%nat /\
    ((exists s, corpus b !! (cursor b + k)%nat = Some s /\
        IsFinalState (NewParserState s) = false /\
        state r' i = Some (NewParserState s) /\
        cursor (sentence_batch_ r') = S (cursor b + k)) \/
     ((cursor b + k)%nat = length (corpus b) /\
        state r' i = None /\
        cursor (sentence_batch_ r') = length (corpus b))).

(** After its turn a slot is empty or holds a state that is not final. *)
Definition settled (o : option ParserState) : Prop :=
  match o with
  | Some st => IsFinalState st = false
  | None => True
  end.

(** The reader when the advance pass reaches slot [i]. *)
Definition advance_upto (i : nat) r : Reader := for_loop i advance_final r.

(** The fields that an action pass never writes. *)
Definition same_batch r r' : Prop :=
  kind r' = kind r /\
  max_batch_size_ r' = max_batch_size_ r /\
  feature_size_ r' = feature_size_ r /\
  num_epochs_ r' = num_epochs_ r /\
  sentence_batch_ r' = sentence_batch_ r /\
  workspaces_ r' = workspaces_ r /\
  scoring_type_ r' = scoring_type_ r.

(** The number of non-null slots below slot [i]: the value of [batch_index]
    (and of [index] in the feature loop) when a slot loop reaches [i]. *)
Definition rank (l : list (option ParserState)) (i : nat) : nat :=
  length (omap id (take i l)).

(** The gold action applied to a state. *)
Definition gold_step st : ParserState :=
  PerformAction (GetNextGoldAction st) st.

(** Is token [i] of the state's sentence selected by the scoring type? *)
Definition scored (scoring : string) st (i : nat) : bool :=
  match token (sentence st) !! i with
  | Some tok => ScoreToken (word tok) (tag tok) scoring
  | None => false
  end.

(** The scored tokens of a state's sentence, and the correct ones among
    them. *)
Definition tokens_scored (scoring : string) st : nat :=
  length (List.filter (scored scoring st) (seq 0 (token_size (sentence st)))).

Definition tokens_correct (scoring : string) st : nat :=
  length (List.filter (fun i => scored scoring st i && IsTokenCorrect st i)
            (seq 0 (token_size (sentence st)))).

(** The state of slot [i] after the decoded action pass over the states [l]:
    the best action of row [rank l i] has been applied. *)
Definition decode_at (scores : Matrix) (l : list (option ParserState))
    (i : nat) : option ParserState :=
  (fun st => PerformAction (best_action scores (rank l i) st) st)
    <$> default None (l !! i).

(** The states that are final after their action, among the first [n]
    slots, in slot order. *)
Definition finalized (scores : Matrix) (l : list (option ParserState))
    (n : nat) : list ParserState :=
  omap (fun i => match decode_at scores l i with
                 | Some st => if IsFinalState st then Some st else None
                 | None => None
                 end) (seq 0 n).

(** A finalized sentence with its parse added. *)
Definition annotated st : Sentence := AddParseToDocument st (sentence st).

(** The reader once the three state-changing parts of [Compute] are done. *)
Definition advanced context r : Reader :=
  RewindIfEmpty (AdvanceFinalStates (PerformActions context r)).

(** The extractor honours its declaration: [NumEmbeddings] groups, group [g]
    of [FeatureSize g] features. *)
Definition extractor_well_sized : Prop :=
  forall ws st,
    length (ExtractSparseFeatures ws st) = NumEmbeddings /\
    forall g group, ExtractSparseFeatures ws st !! g = Some group ->
      length group = FeatureSize g.

(** Every [allocate_output] of the context succeeds. *)
Definition allocations_succeed context : Prop :=
  forall i, can_allocate context i = true.

(** The [allocate_output] calls for the feature outputs succeed, whatever
    those for the epoch and the additional outputs do. *)
Definition feature_allocations_succeed context : Prop :=
  forall g, (g < NumEmbeddings)%nat -> can_allocate context g = true.

(** The features of slot [i] as [Compute] extracts them. *)
Definition slot_features r (i : nat) : option (list (list SparseFeatures)) :=
  ExtractSparseFeatures (default ResetWorkspace (workspaces_ r !! i))
    <$> state r i.

(** The row that slot [i] contributes to the output of group [g]: none for
    an empty slot, the serialized features of the group otherwise. *)
Definition slot_row r (g i : nat) : option (list string) :=
  (fun features => SerializeAsString <$> default [] (features !! g))
    <$> slot_features r i.

(** The rows of the first [n] slots, in slot order. *)
Definition feature_rows r (g n : nat) : list (list string) :=
  omap (slot_row r g) (seq 0 n).

(** A row of group [g] as [allocate_output] leaves it. *)
Definition blank_row (g : nat) : list string :=
  replicate (FeatureSize g) String.EmptyString.

(** The next gold action of every non-null state, in slot order. *)
Definition next_gold_actions r : list Z :=
  GetNextGoldAction <$> omap id (states_ r).

(** What a step emits beside the features, and the reader it leaves. *)
Definition expected_additional r : AdditionalOutputs :=
  match kind r with
  | GoldParseReader => GoldOutputs (next_gold_actions r)
  | DecodedParseReader =>
      DecodedOutputs [num_tokens_ r; num_correct_ r]
        (SerializeSentence <$> documents_ r)
  end.

(** [AddAdditionalOutputs] of the decoded reader clears [documents_]. *)
Definition after_outputs r : Reader :=
  match kind r with
  | GoldParseReader => r
  | DecodedParseReader => set_documents [] r
  end.

End Notions.

(* ===================================================================== *)
(** ** Further notions: the outputs a step allocates *)

Section OutputIndices.

Context {ParserState WorkspaceSet SparseFeatures : Type}.
Context {features_ : FeatureExtractor ParserState WorkspaceSet SparseFeatures}.

(** The indices that [Compute] passes to [allocate_output], in the order of
    the calls: one per feature group, [feature_size_] for the epoch, and
    [additional_output_index()] (and the next one, for the decoded reader)
    in [AddAdditionalOutputs]. *)
Definition output_indices (r : ParsingReader ParserState WorkspaceSet)
  : list nat :=
  seq 0 NumEmbeddings ++ [feature_size_ r] ++
  match kind r with
  | GoldParseReader => [additional_output_index r]
  | DecodedParseReader =>
      [additional_output_index r; (additional_output_index r + 1)%nat]
  end.

End OutputIndices.

(* ===================================================================== *)
(** ** WordEmbeddingInitializer *)

(** Single-precision arithmetic: [float] operations round to binary32. *)
Definition f32_add : float -> float -> float := SFadd 24 128.
Definition f32_mul : float -> float -> float := SFmul 24 128.
Definition f32_div : float -> float -> float := SFdiv 24 128.
Definition f32_sqrt : float -> float := SFsqrt 24 128.

(** [0.0f]. *)
Definition f32_zero : float := S754_zero false.

(** The codes of [tensorflow::Status] that the copy tells apart ([ok()] and
    [OUT_OF_RANGE]), and a few of the others. *)
Inductive StatusCode :=
  | OK | NOT_FOUND | PERMISSION_DENIED | OUT_OF_RANGE | DATA_LOSS | UNKNOWN.

Global Instance StatusCode_eq_dec : EqDecision StatusCode.
Proof. solve_decision. Defined.

Definition ok (s : StatusCode) : bool := bool_decide (s = OK).

(** What the copy uses of [tensorflow::RandomAccessFile]:
    [Read(offset, n, &result, scratch)] gives a status and the bytes read. *)
Record RandomAccessFile := mkRandomAccessFile {
  Read : N -> N -> StatusCode * list Byte.byte
}.

(** What the copy uses of [tensorflow::WritableFile]: the bytes written so
    far, and how [Append(data)] answers and changes them. *)
Record WritableFile := mkWritableFile {
  written : list Byte.byte;
  append_to : list Byte.byte -> list Byte.byte -> StatusCode * list Byte.byte
}.

Definition Append (data : list Byte.byte) (f : WritableFile)
  : StatusCode * WritableFile :=
  let '(s, w) := append_to f (written f) data in
  (s, mkWritableFile w (append_to f)).

(** What the copy uses of [tensorflow::Env] and of the process. *)
Record Env := mkEnv {
  NewRandomAccessFile : string -> StatusCode * RandomAccessFile;
  NewWritableFile : string -> StatusCode * WritableFile;
  getpid : Z;
  NowMicros : N
}.

(** [const size_t kBytesToRead = 10 << 20;  // 10MB at a time.] *)
Definition kBytesToRead : N := N.shiftl 10 20.

(** [offset += kBytesToRead] on a [uint64]. *)
Definition uint64_add (a b : N) : N := ((a + b) mod 2 ^ 64)%N.

(** The loop "for (uint64 offset = 0; s.ok(); offset += kBytesToRead)" of
    [CopyToTmpPath], entered with [s] OK: it reads a chunk, appends what was
    read whatever the status of the read (and ignores the status of
    [Append]), and goes on while the read is OK. It ends with the first
    status that is not OK; [None] when the fuel runs out before that. *)
Fixpoint copy_loop (fuel : nat) (chunk : N) (source_file : RandomAccessFile)
    (target_file : WritableFile) (offset : N)
  : option (StatusCode * WritableFile) :=
  match fuel with
  | O => None
  | S fuel =>
      let '(s, data) := Read source_file offset chunk in
      let target_file := snd (Append data target_file) in
      if ok s
      then copy_loop fuel chunk source_file target_file
             (uint64_add offset chunk)
      else Some (s, target_file)
  end.

(** [%lld] of a [uint64]: the value read as a signed 64-bit integer. *)
Definition int64_of_uint64 (n : N) : Z :=
  if (n <? 2 ^ 63)%N then Z.of_N n else Z.of_N n - 2 ^ 64.

(** [Printf("/tmp/%d.%lld", getpid(), Env::Default()->NowMicros())]. *)
Definition tmp_path_of (env : Env) : string :=
  ("/tmp/" +:+ pretty (getpid env) +:+ "." +:+
   pretty (int64_of_uint64 (NowMicros env)))%string.

(** What a call of [CopyToTmpPath] leaves: the status it returns, [*tmp_path]
    if it was assigned, and the target file if it was created. *)
Record CopyResult := mkCopyResult {
  copy_status : StatusCode;
  tmp_path : option string;
  target : option WritableFile
}.

(** [CopyToTmpPath]: "Copies the file at source_path to a temporary file and
    sets tmp_path to the temporary file's location." *)
Definition CopyToTmpPath (fuel : nat) (env : Env) (source_path : string)
  : option CopyResult :=
  (* Opens source file. *)
  let '(s, source_file) := NewRandomAccessFile env source_path in
  if negb (ok s) then Some (mkCopyResult s None None) else
  (* Creates destination file. *)
  let path := tmp_path_of env in
  let '(s, target_file) := NewWritableFile env path in
  if negb (ok s) then Some (mkCopyResult s (Some path) None) else
  (* Performs copy. *)
  match copy_loop fuel kBytesToRead source_file target_file 0 with
  | Some (s, target_file) =>
      Some (mkCopyResult
              (if decide (s = OUT_OF_RANGE) then OK else s)
              (Some path) (Some target_file))
  | None => None
  end.

(** The [TokenEmbedding] message as [Compute] reads it: [token()] and
    [vector().values()]. *)
Record TokenEmbedding := mkTokenEmbedding {
  embedding_token : string;
  vector_values : list float
}.

(** [embedding_matrix->matrix<float>()(row, col) = v]. The indices are
    checked only by an assertion of debug builds: a store outside the matrix
    is [None], and the model does not follow the program past it. *)
Definition set_entry (row col : nat) (v : float) (m : list (list float))
  : option (list (list float)) :=
  match m !! row with
  | Some r =>
      if decide (col < length r)%nat
      then Some (<[row := <[col := v]> r]> m)
      else None
  | None => None
  end.

(** [SetNormalizedRow]: "Sets embedding_matrix[row] to a normalized version
    of the given vector." [val * val], the sum and the quotient are
    single-precision operations; the square root is rounded to single
    precision when it is stored in [norm]. *)
Definition SetNormalizedRow (values : list float) (row : nat)
    (embedding_matrix : list (list float)) : option (list (list float)) :=
  let norm :=
    for_loop (length values)
      (fun col norm =>
         match values !! col with
         | Some val => f32_add norm (f32_mul val val)
         | None => norm
         end) f32_zero in
  let norm := f32_sqrt norm in
  for_loop_opt (length values)
    (fun col m =>
       match values !! col with
       | Some val => set_entry row col (f32_div val norm) m
       | None => Some m
       end) embedding_matrix.

(** "Loads words from vocabulary with mapping to ids": the loop
    [vocab[word_map->GetTerm(i)] = i] over the terms of the word map. *)
Definition load_vocab (word_map : list string) : gmap string nat :=
  for_loop (length word_map)
    (fun i vocab =>
       match word_map !! i with
       | Some term => <[term := i]> vocab
       | None => vocab
       end) ∅.

(** What [WordEmbeddingInitializer::Compute] takes from outside the kernel:
    the file system, the terms of the shared word map by id, the records that
    a [ProtoRecordReader] over a file of given content returns before its
    first status that is not OK, and the values that [setRandom] draws for the
    entries of a fresh matrix. *)
Record InitializerEnv := mkInitializerEnv {
  file_system : Env;
  word_map : list string;
  read_records : list Byte.byte -> list TokenEmbedding;
  normal_random : nat -> nat -> float
}.

(** The members of [WordEmbeddingInitializer] that [Compute] could read. *)
Record WordEmbeddingInitializer := mkInitializer {
  vectors_path_ : string;
  embedding_init_ : float
}.

(** How a call of [WordEmbeddingInitializer::Compute] ends: it returns, with
    output 0 if it was allocated; or [OP_REQUIRES_OK] fails on the copy or on
    the allocation; or a store falls outside the matrix. *)
Inductive InitializerOutcome :=
  | Returned (output : option (list (list float)))
  | CopyFailed (s : StatusCode)
  | AllocationFailed
  | StoreOutsideMatrix.

(** A fresh output of shape [(rows, cols)] after [setRandom]. *)
Definition random_matrix (random : nat -> nat -> float) (rows cols : nat)
  : list (list float) :=
  (fun i => random i <$> seq 0 cols) <$> seq 0 rows.

(** "Loads the embedding vectors into a matrix": the loop over the records.
    [embedding_matrix] is [None] while the pointer is null. *)
Fixpoint load_embeddings (context : OpKernelContext) (env : InitializerEnv)
    (vocab : gmap string nat) (records : list TokenEmbedding)
    (embedding_matrix : option (list (list float))) : InitializerOutcome :=
  match records with
  | [] => Returned embedding_matrix
  | embedding :: records =>
      let allocated :=
        match embedding_matrix with
        | None =>
            let embedding_size := length (vector_values embedding) in
            if can_allocate context 0 then
              Some (random_matrix (normal_random env)
                      (length (word_map env) + 3) embedding_size)
            else None
        | Some m => Some m
        end in
      match allocated with
      | None => AllocationFailed
      | Some m =>
          match vocab !! embedding_token embedding with
          | Some row =>
              match SetNormalizedRow (vector_values embedding) row m with
              | Some m => load_embeddings context env vocab records (Some m)
              | None => StoreOutsideMatrix
              end
          | None => load_embeddings context env vocab records (Some m)
          end
      end
  end.

(** [WordEmbeddingInitializer::Compute]. The record reader is given what the
    copy wrote to the temporary file. [None] stands for a copy that the fuel
    cut short. *)
Definition InitializerCompute (fuel : nat) (context : OpKernelContext)
    (env : InitializerEnv) (op : WordEmbeddingInitializer)
  : option InitializerOutcome :=
  (* Loads words from vocabulary with mapping to ids. *)
  let vocab := load_vocab (word_map env) in
  (* Creates a reader pointing to a local copy of the vectors recordio. *)
  match CopyToTmpPath fuel (file_system env) (vectors_path_ op) with
  | None => None
  | Some copied =>
      if negb (ok (copy_status copied))
      then Some (CopyFailed (copy_status copied)) else
      let records :=
        read_records env
          (match target copied with Some f => written f | None => [] end) in
      (* Loads the embedding vectors into a matrix. *)
      Some (load_embeddings context env vocab records None)
  end.

(** A file that holds [content], as [RandomAccessFile::Read] is documented:
    the bytes from [offset], at most [n] of them, and [OUT_OF_RANGE] when the
    end of the file cut the read short. *)
Definition holds (f : RandomAccessFile) (content : list Byte.byte) : Prop :=
  forall offset n,
    Read f offset n =
    (if decide (N.to_nat offset + N.to_nat n <= length content)%nat
     then OK else OUT_OF_RANGE,
     take (N.to_nat n) (drop (N.to_nat offset) content)).

(** A file that appends what it is given. *)
Definition appends (f : WritableFile) : Prop :=
  forall w data, append_to f w data = (OK, w ++ data).

Definition file_of (content : list Byte.byte) : RandomAccessFile :=
  mkRandomAccessFile
    (fun offset n =>
       (if decide (N.to_nat offset + N.to_nat n <= length content)%nat
        then OK else OUT_OF_RANGE,
        take (N.to_nat n) (drop (N.to_nat offset) content))).

Definition new_file : WritableFile :=
  mkWritableFile [] (fun w data => (OK, w ++ data)).

(** The chunks that the reads of the copy return, up to chunk [k]. *)
Definition chunks_read (source_file : RandomAccessFile) (chunk : N) (k : nat)
  : list Byte.byte :=
  mjoin ((fun i => snd (Read source_file (N.of_nat i * chunk) chunk))
           <$> seq 0 (S k)).

(** The row that [SetNormalizedRow] computes from a vector: every value
    divided by the square root of the sum of the squares, accumulated from
    the left in single precision. *)
Definition vector_norm (values : list float) : float :=
  f32_sqrt (foldl (fun norm val => f32_add norm (f32_mul val val))
              f32_zero values).

Definition normalized (values : list float) : list float :=
  (fun val => f32_div val (vector_norm values)) <$> values.

Definition is_zero (x : float) : bool :=
  match x with S754_zero _ => true | _ => false end.

(** The records that address row [i] of the matrix. *)
Definition records_of_row (vocab : gmap string nat)
    (records : list TokenEmbedding) (i : nat) : list TokenEmbedding :=
  filter (fun e => vocab !! embedding_token e = Some i) records.

(** Row [i] of the matrix after the records: the normalized vector of the
    last record that addresses it, or what [init] gives. *)
Definition row_after (vocab : gmap string nat) (records : list TokenEmbedding)
    (init : nat -> list float) (i : nat) : list float :=
  match last (records_of_row vocab records i) with
  | Some e => normalized (vector_values e)
  | None => init i
  end.

(* ===================================================================== *)
(** ** A small instance

    A one-label arc-standard system over the interfaces above, with a feature
    extractor of two groups, used to run the readers on concrete corpora.
    Actions: 0 = SHIFT, 1 = LEFT_ARC, 2 = RIGHT_ARC; the stack starts with the
    root (-1); a state is final at the end of the input with fewer than two
    stack entries. *)
Module ArcStandard.

Record State := mkState {
  st_sentence : Sentence;
  stack : list Z;          (* top of the stack first *)
  next : nat;              (* index of the next input token *)
  heads : list Z           (* inferred head per token, -1 until set *)
}.

Definition init (s : Sentence) : State :=
  mkState s [-1] 0 (replicate (token_size s) (-1)).

Definition end_of_input (st : State) : bool :=
  bool_decide (token_size (st_sentence st) <= next st)%nat.

Definition is_final (st : State) : bool :=
  end_of_input st && bool_decide (length (stack st) < 2)%nat.

Definition is_allowed (action : ParserAction) (st : State) : bool :=
  match action with
  | 0 => negb (end_of_input st)
  | 1 => bool_decide (2 < length (stack st))%nat
  | 2 => bool_decide (1 < length (stack st))%nat
  | _ => false
  end.

Definition perform (action : ParserAction) (st : State) : State :=
  match action, stack st with
  | 0, stk =>
      mkState (st_sentence st) (Z.of_nat (next st) :: stk) (S (next st)) (heads st)
  | 1, s0 :: s1 :: stk =>
      mkState (st_sentence st) (s0 :: stk) (next st)
        (<[Z.to_nat s1 := s0]> (heads st))
  | 2, s0 :: s1 :: stk =>
      mkState (st_sentence st) (s1 :: stk) (next st)
        (<[Z.to_nat s0 := s1]> (heads st))
  | _, _ => st
  end.

Definition gold_head (st : State) (i : Z) : Z :=
  match token (st_sentence st) !! Z.to_nat i with
  | Some t => head t
  | None => -1
  end.

(** Does a token of the remaining input have [i] as its gold head? *)
Definition pending_child (st : State) (i : Z) : bool :=
  existsb (fun t => head t =? i) (drop (next st) (token (st_sentence st))).

Definition gold (st : State) : ParserAction :=
  match stack st with
  | s0 :: s1 :: _ =>
      if (0 <=? s1) && (gold_head st s1 =? s0) then 1
      else if (gold_head st s0 =? s1) && negb (pending_child st s0) then 2
      else 0
  | _ => 0
  end.

Definition token_correct (st : State) (i : nat) : bool :=
  match heads st !! i, token (st_sentence st) !! i with
  | Some h, Some t => h =? head t
  | _, _ => false
  end.

Definition add_parse (st : State) (doc : Sentence) : Sentence :=
  mkSentence
    (imap (fun i t => mkToken (word t) (tag t) (default (head t) (heads st !! i))
                        (label t)) (token doc)).

#[export] Instance system : ParserTransitionSystem State := {|
  NewParserState := init;
  sentence := st_sentence;
  IsTokenCorrect := token_correct;
  AddParseToDocument := add_parse;
  IsAllowedAction := is_allowed;
  PerformAction := perform;
  IsFinalState := is_final;
  GetNextGoldAction := gold
|}.

(** Word of the token at a stack or input position, "<ROOT>" for the root and
    "<NONE>" outside the sentence. *)
Definition word_at (st : State) (i : Z) : string :=
  if i <? 0 then "<ROOT>"%string
  else match token (st_sentence st) !! Z.to_nat i with
       | Some t => word t
       | None => "<NONE>"%string
       end.

Definition stack_word (st : State) (k : nat) : string :=
  match stack st !! k with
  | Some i => word_at st i
  | None => "<NONE>"%string
  end.

(** Two groups: the words of the two topmost stack entries, and the word of
    the next input token. A feature is serialized as its word. *)
#[export] Instance extractor : FeatureExtractor State unit string := {|
  NumEmbeddings := 2;
  FeatureSize := fun g => match g with O => 2%nat | _ => 1%nat end;
  ResetWorkspace := tt;
  Preprocess := fun _ _ => tt;
  ExtractSparseFeatures := fun _ st =>
    [[stack_word st 0; stack_word st 1]; [word_at st (Z.of_nat (next st))]];
  SerializeAsString := fun f => f
|}.

(** The same extractor with a first group of one feature where two are
    declared. *)
Definition short_extractor : FeatureExtractor State unit string := {|
  NumEmbeddings := 2;
  FeatureSize := fun g => match g with O => 2%nat | _ => 1%nat end;
  ResetWorkspace := tt;
  Preprocess := fun _ _ => tt;
  ExtractSparseFeatures := fun _ st =>
    [[stack_word st 0]; [word_at st (Z.of_nat (next st))]];
  SerializeAsString := fun f => f
|}.

(** Scoring "default" skips the tokens tagged "."; the empty scoring type
    scores every token. A sentence is serialized as its words with their
    heads. *)
#[export] Instance documents : DocumentOps := {|
  ScoreToken := fun w t scoring =>
    negb (String.eqb scoring "default" && String.eqb t ".");
  SerializeSentence := fun s =>
    String.concat " "
      (map (fun t => (word t ++ (if (head t <? 0)%Z then "<" else ">"))%string)
           (token s))
|}.

Definition tok (w t : string) (h : Z) : Token := mkToken w t h "dep".

(** "a b .": [a] is the root, [b] and the full stop depend on [a]. *)
Definition sentence_ab : Sentence :=
  mkSentence [tok "a" "N" (-1); tok "b" "N" 0; tok "." "." 0].

Definition sentence_c : Sentence := mkSentence [tok "c" "N" (-1)].

Definition sentence_d : Sentence := mkSentence [tok "d" "V" (-1)].

Definition empty_sentence : Sentence := mkSentence [].

(** A context whose allocations succeed. *)
Definition context_of (scores : Matrix) : OpKernelContext :=
  mkContext scores (fun _ => true).

(** A score matrix given by its rows. *)
Definition matrix_of (cols : nat) (rows : list (list float)) : Matrix :=
  mkMatrix (length rows) cols
    (fun i j => default S754_nan (default [] (rows !! i) !! j)).

Definition no_scores : Matrix := matrix_of 0 [].

(** Positive and negative small integers as floats. *)
Definition fl (z : Z) : float :=
  match z with
  | Z0 => S754_zero false
  | Zpos p => S754_finite false p 0
  | Zneg p => S754_finite true p 0
  end.

(** The reader after a number of steps with the given contexts; [None] once
    a step does not return normally. *)
Fixpoint run_steps {WS SF : Type} {FE : FeatureExtractor State WS SF}
    (contexts : list OpKernelContext) (r : ParsingReader State WS)
  : option (ParsingReader State WS) :=
  match contexts with
  | [] => Some r
  | c :: contexts =>
      match Compute c r with
      | Value _ r' => run_steps contexts r'
      | _ => None
      end
  end.

(** Example inputs: a gold reader with two slots over three sentences, and
    decoded readers with one slot. *)
Definition gold_context : OpKernelContext := context_of no_scores.

Definition gold_reader : ParsingReader State unit :=
  new_reader GoldParseReader 2 2 "" [sentence_ab; sentence_c; sentence_d].

Definition decoded_reader : ParsingReader State unit :=
  new_reader DecodedParseReader 2 2 "default"
    [sentence_ab; sentence_c; sentence_d].

Definition one_slot_reader (c : list Sentence) : ParsingReader State unit :=
  new_reader DecodedParseReader 1 2 "" c.

(** Score rows that make SHIFT, respectively RIGHT_ARC, the best action. *)
Definition shift_row : list float := [fl 1; fl 0; fl 0].
Definition right_row : list float := [fl 0; fl 0; fl 1].

Definition scores_context (rows : list (list float)) : OpKernelContext :=
  context_of (matrix_of 3 rows).

(** A row without a score above [-INFINITY], and one where only the
    disallowed SHIFT has one. *)
Definition all_neg_infinity : OpKernelContext :=
  scores_context [[neg_infinity; neg_infinity; neg_infinity]].

Definition tied_at_neg_infinity : OpKernelContext :=
  scores_context [[fl 1; neg_infinity; neg_infinity]].

(** The reader after the given steps (the reader itself if one of them does
    not return normally). *)
Definition after_steps {WS SF : Type} {FE : FeatureExtractor State WS SF}
    (contexts : list OpKernelContext) (r : ParsingReader State WS)
  : ParsingReader State WS :=
  default r (run_steps contexts r).

(** A gold reader with one slot over "c", an empty sentence and "d". *)
Definition skipping_reader : ParsingReader State unit :=
  new_reader GoldParseReader 1 2 "" [sentence_c; empty_sentence; sentence_d].

Definition skipping_reader_2 : ParsingReader State unit :=
  after_steps [gold_context; gold_context] skipping_reader.

(** The gold reader after two and after four steps; after four, slot 1 is
    empty. *)
Definition gold_reader_2 : ParsingReader State unit :=
  after_steps [gold_context; gold_context] gold_reader.

Definition gold_reader_4 : ParsingReader State unit :=
  after_steps [gold_context; gold_context; gold_context; gold_context]
    gold_reader.

(** The decoded reader after four steps, and a context whose scores finish
    the sentence of slot 1 in the fifth. *)
Definition decoded_reader_4 : ParsingReader State unit :=
  after_steps
    [gold_context; scores_context [shift_row; shift_row];
     scores_context [shift_row; right_row];
     scores_context [right_row; shift_row]] decoded_reader.

Definition finishing_context : OpKernelContext :=
  scores_context [shift_row; right_row].

(** A decoded reader over "c" after the step that shifts its token, and one
    over "a b ." after SHIFT, SHIFT, RIGHT_ARC, SHIFT. *)
Definition shifted_reader : ParsingReader State unit :=
  after_steps [gold_context; scores_context [shift_row]]
    (one_slot_reader [sentence_c]).

Definition stacked_reader : ParsingReader State unit :=
  after_steps
    [gold_context; scores_context [shift_row]; scores_context [shift_row];
     scores_context [right_row]; scores_context [shift_row]]
    (one_slot_reader [sentence_ab]).

(** A gold reader whose extractor returns a short first group. *)
Definition short_reader : ParsingReader State unit :=
  new_reader GoldParseReader 1 2 "" [sentence_c].

(** The scores of [finishing_context] in a context where no output can be
    allocated, and a gold reader over an empty corpus. *)
Definition failing_context : OpKernelContext :=
  mkContext (matrix_of 3 [shift_row; right_row]) (fun _ => false).

Definition empty_reader : ParsingReader State unit :=
  new_reader GoldParseReader 2 2 "" [].

(** A context in which the two feature outputs can be allocated and no other
    output can, and the scores that make RIGHT_ARC the best action of a
    single slot. *)
Definition features_only_context : OpKernelContext :=
  mkContext no_scores (fun i => bool_decide (i < 2)%nat).


End ArcStandard.

(* ===================================================================== *)
(** ** A small vectors file *)

Module Vectors.

(** Three bytes stand for the vectors file; the record reader is given by the
    records it returns. *)
Definition vectors_file : list Byte.byte := [Byte.x61; Byte.x62; Byte.x63].

Definition disk : Env :=
  mkEnv (fun _ => (OK, file_of vectors_file)) (fun _ => (OK, new_file))
    42 1000.

(** A target file on which every [Append] fails, and a file system that
    creates such files. *)
Definition full_file : WritableFile :=
  mkWritableFile [] (fun w _ => (DATA_LOSS, w)).

Definition full_disk : Env :=
  mkEnv (fun _ => (OK, file_of vectors_file)) (fun _ => (OK, full_file))
    42 1000.

(** The word map has "the" twice; "cat" has two records, "dog" is not in the
    word map, and the vector of "the" is all zero. *)
Definition records : list TokenEmbedding :=
  [mkTokenEmbedding "cat" [ArcStandard.fl 3; ArcStandard.fl 4];
   mkTokenEmbedding "dog" [ArcStandard.fl 1; ArcStandard.fl 1];
   mkTokenEmbedding "the" [ArcStandard.fl 0; ArcStandard.fl 0];
   mkTokenEmbedding "cat" [ArcStandard.fl 0; ArcStandard.fl 2]].

Definition terms : list string := ["the"; "cat"; "the"]%string.

Definition random (i j : nat) : float :=
  ArcStandard.fl (Z.of_nat (10 * i + j + 1)).

Definition initializer_env : InitializerEnv :=
  mkInitializerEnv disk terms (fun _ => records) random.

Definition empty_env : InitializerEnv :=
  mkInitializerEnv disk terms (fun _ => []) random.

Definition initializer : WordEmbeddingInitializer :=
  mkInitializer "vectors" (ArcStandard.fl 1).

Definition context : OpKernelContext :=
  ArcStandard.context_of ArcStandard.no_scores.

(** 1.0 in single precision. *)
Definition one : float := S754_finite false 8388608 (-23).

(** The matrix that the records leave. *)
Definition output : list (list float) :=
  [[random 0 0; random 0 1];
   [S754_zero false; one];
   [S754_nan; S754_nan];
   [random 3 0; random 3 1];
   [random 4 0; random 4 1];
   [random 5 0; random 5 1]].

(** A matrix of two rows and three columns. *)
Definition small_matrix : list (list float) :=
  [[ArcStandard.fl 0; ArcStandard.fl 0; ArcStandard.fl 9];
   [ArcStandard.fl 1; ArcStandard.fl 1; ArcStandard.fl 7]].

End Vectors.

(* ===================================================================== *)
(** * Properties *)

(** ** Loops *)

Lemma for_loop_S {S : Type} (n : nat) (body : nat -> S -> S) (s : S) :
  for_loop (Datatypes.S n) body s = body n (for_loop n body s).
Proof.
  unfold for_loop. rewrite seq_S, foldl_app. reflexivity.
Qed.

(** The invariant rule for [for_loop]. *)
Lemma for_loop_ind {S : Type} (P : nat -> S -> Prop) (n : nat)
    (body : nat -> S -> S) (s : S) :
  P 0%nat s ->
  (forall i s, (i < n)%nat -> P i s -> P (Datatypes.S i) (body i s)) ->
  P n (for_loop n body s).
Proof.
  intros H0 Hstep.
  assert (forall k, (k <= n)%nat -> P k (for_loop k body s)) as H.
  { induction k as [|k IH]; intros Hk; [exact H0|].
    rewrite for_loop_S. apply Hstep; [lia|]. apply IH. lia. }
  apply H. lia.
Qed.

Lemma for_loop_opt_S {S : Type} (n : nat) (body : nat -> S -> option S) (s : S) :
  for_loop_opt (Datatypes.S n) body s =
  match for_loop_opt n body s with Some s' => body n s' | None => None end.
Proof.
  unfold for_loop_opt. rewrite seq_S, foldl_app. reflexivity.
Qed.

(** A loop whose body never stops is a plain loop. *)
Lemma for_loop_opt_total {S : Type} (n : nat) (body : nat -> S -> option S)
    (f : nat -> S -> S) (P : nat -> S -> Prop) (s : S) :
  P 0%nat s ->
  (forall i s, (i < n)%nat -> P i s ->
     body i s = Some (f i s) /\ P (Datatypes.S i) (f i s)) ->
  for_loop_opt n body s = Some (for_loop n f s) /\ P n (for_loop n f s).
Proof.
  intros H0 Hstep.
  assert (forall k, (k <= n)%nat ->
            for_loop_opt k body s = Some (for_loop k f s) /\
            P k (for_loop k f s)) as H.
  { induction k as [|k IH]; intros Hk; [split; [reflexivity|exact H0]|].
    destruct IH as [IH1 IH2]; [lia|].
    rewrite for_loop_opt_S, for_loop_S, IH1.
    apply Hstep; [lia|exact IH2]. }
  apply H. lia.
Qed.

(** Once the body has stopped the loop, it stays stopped. *)
Lemma for_loop_opt_stops {S : Type} (n k : nat) (body : nat -> S -> option S)
    (s : S) :
  (k <= n)%nat -> for_loop_opt k body s = None -> for_loop_opt n body s = None.
Proof.
  intros Hk Hnone. induction n as [|n IH].
  - assert (k = 0)%nat as -> by lia. exact Hnone.
  - destruct (decide (k = Datatypes.S n)) as [->|Hne]; [exact Hnone|].
    rewrite for_loop_opt_S, IH; [reflexivity|lia].
Qed.

(** Writing [f k] at every index [k < n] of a vector. *)
Lemma for_loop_insert {A : Type} (f : nat -> A) (n : nat) (l : list A) :
  (n <= length l)%nat ->
  for_loop n (fun k l => <[k := f k]> l) l = (f <$> seq 0 n) ++ drop n l.
Proof.
  induction n as [|n IH]; intros Hn.
  - reflexivity.
  - rewrite for_loop_S, IH by lia.
    rewrite seq_S, fmap_app, <- app_assoc. simpl.
    rewrite insert_app_r_alt; rewrite length_fmap, length_seq; [|lia].
    rewrite Nat.sub_diag.
    destruct (drop n l) as [|x l'] eqn:Hd.
    + apply (f_equal length) in Hd. rewrite length_drop in Hd. simpl in Hd. lia.
    + simpl. f_equal. f_equal.
      assert (drop (Datatypes.S n) l = drop 1 (drop n l)) as ->
        by (rewrite drop_drop; f_equal; lia).
      rewrite Hd. reflexivity.
Qed.

(* --------------------------------------------------------------------- *)
(** ** Machine integers *)

Lemma int32_wrap_range z : int32_range (int32_wrap z).
Proof.
  unfold int32_range, int32_wrap.
  pose proof (Z.mod_pos_bound (z + 2 ^ 31) (2 ^ 32) ltac:(lia)). lia.
Qed.

Lemma int32_wrap_id z : int32_range z -> int32_wrap z = z.
Proof.
  unfold int32_range, int32_wrap. intros H.
  rewrite Z.mod_small; lia.
Qed.

Lemma int32_wrap_add z n : int32_wrap (int32_wrap z + n) = int32_wrap (z + n).
Proof.
  unfold int32_wrap.
  replace ((z + 2 ^ 31) mod 2 ^ 32 - 2 ^ 31 + n + 2 ^ 31)
    with ((z + 2 ^ 31) mod 2 ^ 32 + n) by lia.
  rewrite Zplus_mod_idemp_l. f_equal. f_equal. lia.
Qed.


(** Away from [INT_MAX], [++x] is [x + 1]. *)
Lemma incr_small z : - 2 ^ 31 <= z < 2 ^ 31 - 1 -> incr z = z + 1.
Proof.
  intros H. unfold incr. apply int32_wrap_id. unfold int32_range. lia.
Qed.

(** [n] increments from [z]. *)
Lemma incr_iter (n : nat) z :
  Nat.iter n incr (int32_wrap z) = int32_wrap (z + Z.of_nat n).
Proof.
  induction n as [|n IH].
  - simpl. f_equal. lia.
  - rewrite Nat.iter_succ, IH. unfold incr. rewrite int32_wrap_add.
    f_equal. lia.
Qed.

(* --------------------------------------------------------------------- *)
(** ** Float comparison *)

Ltac compare_cases :=
  repeat match goal with
    | H : context [Z.compare ?a ?b] |- _ =>
        destruct (Z.compare_spec a b); subst; simpl in H
    | |- context [Z.compare ?a ?b] =>
        destruct (Z.compare_spec a b); subst; simpl
    | H : context [Pos.compare_cont Eq ?a ?b] |- _ =>
        change (Pos.compare_cont Eq a b) with (Pos.compare a b) in H;
        destruct (Pos.compare_spec a b); subst; simpl in H
    | |- context [Pos.compare_cont Eq ?a ?b] =>
        change (Pos.compare_cont Eq a b) with (Pos.compare a b);
        destruct (Pos.compare_spec a b); subst; simpl
    end;
  try congruence; try lia.

Ltac float_cases :=
  unfold float_gt, float_ge, SFltb, SFleb, SFcompare in *;
  repeat match goal with
    | s : bool |- _ => destruct s
    end;
  simpl in *; try congruence; compare_cases.

Lemma float_gt_irrefl (a : float) : float_gt a a = false.
Proof. destruct a; float_cases. Qed.

Lemma float_gt_trans (a b c : float) :
  float_gt a b = true -> float_gt b c = true -> float_gt a c = true.
Proof. destruct a, b, c; intros H1 H2; float_cases. Qed.

Lemma float_ge_gt_trans (a b c : float) :
  float_ge a b = true -> float_gt b c = true -> float_gt a c = true.
Proof. destruct a, b, c; intros H1 H2; float_cases. Qed.

Lemma float_gt_not_nan (a b : float) :
  float_gt a b = true -> is_nan a = false /\ is_nan b = false.
Proof. destruct a, b; intros H; split; float_cases. Qed.

Lemma float_gt_above_neg_infinity (a b : float) :
  float_gt a b = true -> float_gt a neg_infinity = true.
Proof. unfold neg_infinity. destruct a, b; intros H; float_cases. Qed.

(** Exactly the NaNs and [-INFINITY] itself are not above [-INFINITY]. *)
Lemma float_gt_neg_infinity (a : float) :
  float_gt a neg_infinity = true <-> is_nan a = false /\ a <> neg_infinity.
Proof.
  unfold neg_infinity, float_gt, SFltb.
  destruct a as [s|s| |s m e]; try destruct s; simpl;
    (split; [intros H; split; congruence | intros [H1 H2]; congruence]).
Qed.

(* ===================================================================== *)
(** ** The readers *)

Section ReaderProperties.

Context {ParserState WorkspaceSet SparseFeatures : Type}.
Context {transition_system_ : ParserTransitionSystem ParserState}.
Context {features_ : FeatureExtractor ParserState WorkspaceSet SparseFeatures}.
Context {document_ops : DocumentOps}.

Abbreviation Reader := (ParsingReader ParserState WorkspaceSet).

Implicit Types (r : Reader) (st : ParserState) (context : OpKernelContext).
Implicit Types (l : list (option ParserState)).

(* --------------------------------------------------------------------- *)
(** *** Selection of the best action *)

Lemma best_action_loop_inv (scores : Matrix) (row : nat) st :
  best_so_far scores row st (dimension1 scores)
    (best_action_loop scores row st).
Proof.
  unfold best_action_loop.
  apply (for_loop_ind (best_so_far scores row st)).
  - repeat split; [intros; lia | left; split; reflexivity].
  - intros n [a b] Hn (Hnan & Hmax & Hsel). simpl in Hnan, Hmax, Hsel.
    cbn beta iota.
    destruct (float_gt (coeff scores row n) b) eqn:Hgt; cbn [andb].
    + destruct (IsAllowedAction (Z.of_nat n) st) eqn:Hal;
        unfold best_so_far; cbn [fst snd].
      * split; [apply (float_gt_not_nan _ _ Hgt)|]. split.
        -- intros j Hj Hallowed.
           destruct (decide (j = n)) as [->|Hne]; [apply float_gt_irrefl|].
           destruct (float_gt (coeff scores row j) (coeff scores row n)) eqn:E;
             [|reflexivity].
           rewrite <- (Hmax j ltac:(lia) Hallowed).
           symmetry. eapply float_gt_trans; eassumption.
        -- right. exists n. repeat split; try lia; try assumption.
           { eapply float_gt_above_neg_infinity; eassumption. }
           intros j Hj Hallowed.
           destruct (float_ge (coeff scores row j) (coeff scores row n)) eqn:E;
             [|reflexivity].
           rewrite <- (Hmax j ltac:(lia) Hallowed).
           symmetry. eapply float_ge_gt_trans; eassumption.
      * split; [exact Hnan|]. split.
        -- intros j Hj Hallowed.
           destruct (decide (j = n)) as [->|Hne]; [congruence|].
           apply Hmax; [lia|assumption].
        -- destruct Hsel as [Hsel|(a' & ? & ? & ? & ? & ? & ?)]; [left; exact Hsel|].
           right. exists a'. repeat split; try assumption. lia.
    + unfold best_so_far; cbn [fst snd]. split; [exact Hnan|]. split.
      * intros j Hj Hallowed.
        destruct (decide (j = n)) as [->|Hne]; [exact Hgt|].
        apply Hmax; [lia|assumption].
      * destruct Hsel as [Hsel|(a' & ? & ? & ? & ? & ? & ?)]; [left; exact Hsel|].
        right. exists a'. repeat split; try assumption. lia.
Qed.

(** When some allowed action scores above [-INFINITY], the selected action is
    an allowed one, no allowed action scores above it, and no allowed action
    of a lower index scores as much: the first maximum wins. *)
Lemma best_action_argmax (scores : Matrix) (row : nat) st (j0 : nat) :
  (j0 < dimension1 scores)%nat ->
  IsAllowedAction (Z.of_nat j0) st = true ->
  float_gt (coeff scores row j0) neg_infinity = true ->
  exists a,
    best_action scores row st = Z.of_nat a /\
    (a < dimension1 scores)%nat /\
    IsAllowedAction (Z.of_nat a) st = true /\
    (forall j, (j < dimension1 scores)%nat ->
       IsAllowedAction (Z.of_nat j) st = true ->
       float_gt (coeff scores row j) (coeff scores row a) = false) /\
    (forall j, (j < a)%nat -> IsAllowedAction (Z.of_nat j) st = true ->
       float_ge (coeff scores row j) (coeff scores row a) = false).
Proof.
  intros Hj0 Hal0 Hgt0.
  destruct (best_action_loop_inv scores row st) as (Hnan & Hmax & Hsel).
  unfold best_action.
  destruct Hsel as [[_ Hb]|(a & Ha & Hlt & Hal & Hb & _ & Hfirst)].
  - specialize (Hmax j0 Hj0 Hal0). rewrite Hb in Hmax. congruence.
  - exists a. rewrite <- Hb. repeat split; assumption.
Qed.

(** When no allowed action scores above [-INFINITY] (none is allowed, or
    their scores are [-INFINITY] or NaN), [best_action] keeps its initial
    value 0. *)
Lemma best_action_fallback (scores : Matrix) (row : nat) st :
  (forall j, (j < dimension1 scores)%nat ->
     IsAllowedAction (Z.of_nat j) st = true ->
     float_gt (coeff scores row j) neg_infinity = false) ->
  best_action scores row st = 0.
Proof.
  intros Hnone.
  destruct (best_action_loop_inv scores row st) as (Hnan & Hmax & Hsel).
  unfold best_action.
  destruct Hsel as [[Ha _]|(a & Ha & Hlt & Hal & Hb & Hgt & Hfirst)]; [exact Ha|].
  specialize (Hnone a Hlt Hal). rewrite Hb in Hgt. congruence.
Qed.

(* --------------------------------------------------------------------- *)
(** *** The invariant of a reader object *)

Lemma new_reader_inv k n fs scoring c :
  reader_inv (new_reader k n fs scoring c).
Proof.
  unfold reader_inv, new_reader; simpl.
  rewrite !length_replicate. repeat split; try lia.
  induction n as [|n IH]; simpl; constructor; [|exact IH].
  unfold same_occupancy. split; intros [? ?]; discriminate.
Qed.

Lemma reader_inv_lengths r :
  reader_inv r ->
  length (sentences_ (sentence_batch_ r)) = max_batch_size_ r.
Proof.
  intros (Hs & _ & H2 & _). rewrite <- Hs. symmetry.
  eapply Forall2_length; exact H2.
Qed.

(** The batch counts the non-null states. *)
Lemma same_occupancy_size (l : list (option ParserState))
    (k : list (option Sentence)) :
  Forall2 same_occupancy l k -> length (omap id k) = length (omap id l).
Proof.
  induction 1 as [|a b l k Hab _ IH]; [reflexivity|].
  destruct a as [a|], b as [b|]; simpl; try (f_equal; exact IH); try exact IH.
  - destruct Hab as [Hab _]. destruct Hab as [? ?]; [eexists; reflexivity|discriminate].
  - destruct Hab as [_ Hab]. destruct Hab as [? ?]; [eexists; reflexivity|discriminate].
Qed.

Lemma batch_size_states r :
  reader_inv r -> Batch_size (sentence_batch_ r) = length (omap id (states_ r)).
Proof.
  intros (_ & _ & H & _). unfold Batch_size. apply same_occupancy_size, H.
Qed.

(** [AdvanceSentence] in one piece: the slot receives the initial state of
    the sentence under the cursor, or becomes empty at the end of the
    corpus. *)
Lemma AdvanceSentence_eq index r :
  (index < length (sentences_ (sentence_batch_ r)))%nat ->
  AdvanceSentence index r =
  match corpus (sentence_batch_ r) !! cursor (sentence_batch_ r) with
  | Some s =>
      set_workspaces
        (<[index := Preprocess ResetWorkspace (NewParserState s)]> (workspaces_ r))
        (set_states (<[index := Some (NewParserState s)]> (states_ r))
           (set_sentence_batch
              (mkBatch (corpus (sentence_batch_ r))
                 (S (cursor (sentence_batch_ r)))
                 (<[index := Some s]> (sentences_ (sentence_batch_ r)))) r))
  | None =>
      set_states (<[index := None]> (states_ r))
        (set_sentence_batch
           (mkBatch (corpus (sentence_batch_ r)) (cursor (sentence_batch_ r))
              (<[index := None]> (sentences_ (sentence_batch_ r)))) r)
  end.
Proof.
  intros Hi. unfold AdvanceSentence, Batch_AdvanceSentence.
  destruct r as [k e n fs [c cur sents] sts ws nt nc sc docs]; simpl in *.
  destruct (c !! cur) as [s|] eqn:Hc; simpl.
  - unfold Batch_sentence; simpl.
    rewrite list_lookup_insert_eq by exact Hi. simpl.
    unfold set_workspaces, set_states, set_state, set_sentence_batch; simpl.
    rewrite list_insert_insert_eq. reflexivity.
  - reflexivity.
Qed.

Lemma AdvanceSentence_inv index r :
  reader_inv r -> reader_inv (AdvanceSentence index r).
Proof.
  intros Hinv. pose proof (reader_inv_lengths r Hinv) as Hlen.
  destruct Hinv as (Hs & Hw & Hocc & Hcur).
  destruct (decide (index < max_batch_size_ r)%nat) as [Hi|Hi].
  - rewrite AdvanceSentence_eq by lia.
    destruct (corpus (sentence_batch_ r) !! cursor (sentence_batch_ r))
      as [s|] eqn:Hc; unfold reader_inv; simpl; rewrite ?length_insert.
    + repeat split; try assumption.
      * apply Forall2_insert; [exact Hocc|].
        unfold same_occupancy; split; intros _; eexists; reflexivity.
      * apply lookup_lt_Some in Hc. lia.
    + repeat split; try assumption.
      apply Forall2_insert; [exact Hocc|].
      unfold same_occupancy; split; intros [? ?]; discriminate.
  - unfold AdvanceSentence, Batch_AdvanceSentence, set_state.
    rewrite (list_insert_ge (states_ r)) by lia.
    destruct r as [k e n fs [c cur sents] sts ws nt nc sc docs]; simpl in *.
    destruct (c !! cur) as [s|] eqn:Hc; simpl;
      rewrite (list_insert_ge sents) by lia.
    + unfold Batch_sentence; simpl.
      rewrite (lookup_ge_None_2 sents) by lia. simpl.
      unfold reader_inv; simpl. repeat split; try assumption.
      apply lookup_lt_Some in Hc. lia.
    + unfold reader_inv; simpl. repeat split; assumption.
Qed.

Lemma AdvanceSentence_static index r :
  kind (AdvanceSentence index r) = kind r /\
  max_batch_size_ (AdvanceSentence index r) = max_batch_size_ r /\
  feature_size_ (AdvanceSentence index r) = feature_size_ r /\
  num_epochs_ (AdvanceSentence index r) = num_epochs_ r /\
  num_tokens_ (AdvanceSentence index r) = num_tokens_ r /\
  num_correct_ (AdvanceSentence index r) = num_correct_ r /\
  scoring_type_ (AdvanceSentence index r) = scoring_type_ r /\
  documents_ (AdvanceSentence index r) = documents_ r /\
  corpus (sentence_batch_ (AdvanceSentence index r)) =
    corpus (sentence_batch_ r).
Proof.
  unfold AdvanceSentence, Batch_AdvanceSentence.
  destruct r as [k e n fs [c cur sents] sts ws nt nc sc docs]; simpl.
  destruct (c !! cur) as [s|]; simpl; [|repeat split].
  destruct (Batch_sentence _ _); simpl; repeat split.
Qed.

Lemma AdvanceSentence_other index r j :
  index <> j -> state (AdvanceSentence index r) j = state r j.
Proof.
  intros Hne. unfold AdvanceSentence, Batch_AdvanceSentence.
  destruct r as [k e n fs [c cur sents] sts ws nt nc sc docs]; simpl.
  destruct (c !! cur) as [s|]; simpl.
  - destruct (Batch_sentence _ _); simpl; unfold state; simpl;
      rewrite ?list_lookup_insert_ne by exact Hne; reflexivity.
  - unfold state; simpl. rewrite list_lookup_insert_ne by exact Hne. reflexivity.
Qed.

Lemma AdvanceSentence_some index r s :
  reader_inv r -> (index < max_batch_size_ r)%nat ->
  corpus (sentence_batch_ r) !! cursor (sentence_batch_ r) = Some s ->
  state (AdvanceSentence index r) index = Some (NewParserState s) /\
  cursor (sentence_batch_ (AdvanceSentence index r)) =
    S (cursor (sentence_batch_ r)).
Proof.
  intros Hinv Hi Hc. pose proof (reader_inv_lengths r Hinv) as Hlen.
  rewrite AdvanceSentence_eq, Hc by lia. simpl. split; [|reflexivity].
  unfold state; simpl. destruct Hinv as (Hs & _).
  rewrite list_lookup_insert_eq by lia. reflexivity.
Qed.

Lemma AdvanceSentence_none index r :
  reader_inv r -> (index < max_batch_size_ r)%nat ->
  corpus (sentence_batch_ r) !! cursor (sentence_batch_ r) = None ->
  state (AdvanceSentence index r) index = None /\
  cursor (sentence_batch_ (AdvanceSentence index r)) =
    cursor (sentence_batch_ r).
Proof.
  intros Hinv Hi Hc. pose proof (reader_inv_lengths r Hinv) as Hlen.
  rewrite AdvanceSentence_eq, Hc by lia. simpl. split; [|reflexivity].
  unfold state; simpl. destruct Hinv as (Hs & _).
  rewrite list_lookup_insert_eq by lia. reflexivity.
Qed.

(* --------------------------------------------------------------------- *)
(** *** Advancing the final states *)

Lemma same_static_refl r : same_static r r.
Proof. repeat split. Qed.

Lemma same_static_trans r1 r2 r3 :
  same_static r1 r2 -> same_static r2 r3 -> same_static r1 r3.
Proof.
  unfold same_static. intros H1 H2.
  decompose [and] H1. decompose [and] H2. repeat split; congruence.
Qed.

Lemma while_final_spec (fuel i : nat) : forall r st,
  reader_inv r -> (i < max_batch_size_ r)%nat ->
  (unread (sentence_batch_ r) < fuel)%nat ->
  state r i = Some st -> IsFinalState st = true ->
  let r' := while_final fuel i r in
  advanced_to i r r' /\
  reader_inv r' /\ same_static r r' /\
  (forall j, j <> i -> state r' j = state r j).
Proof.
  induction fuel as [|fuel IH]; intros r st Hinv Hi Hfuel Hst Hfin; [lia|].
  simpl. rewrite Hst, Hfin.
  pose proof (AdvanceSentence_inv i r Hinv) as Hinv1.
  pose proof (AdvanceSentence_static i r) as Hstat1.
  pose proof (fun j (H : j <> i) => AdvanceSentence_other i r j (not_eq_sym H))
    as Hother1.
  assert (Hcur : (cursor (sentence_batch_ r) <= length (corpus (sentence_batch_ r)))%nat)
    by apply Hinv.
  destruct (corpus (sentence_batch_ r) !! cursor (sentence_batch_ r))
    as [s|] eqn:Hc.
  - destruct (AdvanceSentence_some i r s Hinv Hi Hc) as [Hst1 Hcur1].
    rewrite Hst1.
    pose proof (lookup_lt_Some _ _ _ Hc) as Hlt.
    destruct (IsFinalState (NewParserState s)) eqn:Hfin1.
    + destruct (IH (AdvanceSentence i r) (NewParserState s)) as
        ((k & Hskip & Hle & Hend) & Hinv' & Hstat' & Hother'); try assumption.
      * destruct Hstat1 as (_ & -> & _). exact Hi.
      * unfold unread in *. rewrite Hcur1.
        destruct Hstat1 as (_ & _ & _ & _ & _ & _ & _ & _ & ->). lia.
      * assert (Hcorp : corpus (sentence_batch_ (AdvanceSentence i r)) =
                        corpus (sentence_batch_ r)) by apply Hstat1.
        rewrite Hcorp, Hcur1 in Hskip, Hle, Hend.
        split; [|split; [exact Hinv'|split]].
        -- exists (S k). split; [|split; [lia|]].
           ++ intros j s' Hj Hs'. destruct j as [|j].
              ** rewrite Nat.add_0_r, Hc in Hs'. congruence.
              ** apply (Hskip j s'); [lia|]. rewrite <- Hs'. f_equal. lia.
           ++ replace (cursor (sentence_batch_ r) + S k)%nat
                with (S (cursor (sentence_batch_ r)) + k)%nat by lia.
              exact Hend.
        -- eapply same_static_trans; [exact Hstat1|exact Hstat'].
        -- intros j Hj. rewrite Hother' by exact Hj. apply Hother1, Hj.
    + assert (while_final fuel i (AdvanceSentence i r) = AdvanceSentence i r)
        as ->.
      { destruct fuel; simpl; [reflexivity|]. rewrite Hst1, Hfin1. reflexivity. }
      split; [|split; [exact Hinv1|split; [exact Hstat1|exact Hother1]]].
      exists 0%nat. rewrite Nat.add_0_r. split; [intros; lia|split; [lia|]].
      left. exists s. repeat split; assumption.
  - destruct (AdvanceSentence_none i r Hinv Hi Hc) as [Hst1 Hcur1].
    rewrite Hst1.
    apply lookup_ge_None in Hc.
    split; [|split; [exact Hinv1|split; [exact Hstat1|exact Hother1]]].
    exists 0%nat. rewrite Nat.add_0_r. split; [intros; lia|split; [lia|]].
    right. repeat split; [lia|exact Hst1|lia].
Qed.

(** The loop does not depend on the fuel, once there is more of it than
    unread sentences: the bound never cuts a run short. *)
Lemma while_final_fuel (i : nat) : forall (fuel fuel' : nat) r,
  reader_inv r -> (i < max_batch_size_ r)%nat ->
  (unread (sentence_batch_ r) < fuel)%nat ->
  (unread (sentence_batch_ r) < fuel')%nat ->
  while_final fuel i r = while_final fuel' i r.
Proof.
  induction fuel as [|fuel IH]; intros fuel' r Hinv Hi Hf Hf'; [lia|].
  destruct fuel' as [|fuel']; [lia|]. simpl.
  destruct (state r i) as [st|]; [|reflexivity].
  destruct (IsFinalState st); [|reflexivity].
  destruct (corpus (sentence_batch_ r) !! cursor (sentence_batch_ r))
    as [s|] eqn:Hc.
  - destruct (AdvanceSentence_some i r s Hinv Hi Hc) as [Hst1 Hcur1].
    rewrite Hst1.
    pose proof (lookup_lt_Some _ _ _ Hc) as Hlt.
    destruct (AdvanceSentence_static i r)
      as (_ & Hmax & _ & _ & _ & _ & _ & _ & Hcorp).
    apply IH.
    + apply AdvanceSentence_inv, Hinv.
    + rewrite Hmax. exact Hi.
    + unfold unread in *. rewrite Hcur1, Hcorp. lia.
    + unfold unread in *. rewrite Hcur1, Hcorp. lia.
  - destruct (AdvanceSentence_none i r Hinv Hi Hc) as [Hst1 _].
    rewrite Hst1. reflexivity.
Qed.

(** One turn of the slot loop of the advance pass. *)
Lemma advance_final_spec (i : nat) r :
  reader_inv r -> (i < max_batch_size_ r)%nat ->
  let r' := advance_final i r in
  match state r i with
  | Some st =>
      if IsFinalState st then advanced_to i r r' else r' = r
  | None => r' = r
  end /\
  reader_inv r' /\ same_static r r' /\
  (forall j, j <> i -> state r' j = state r j).
Proof.
  intros Hinv Hi. unfold advance_final.
  destruct (state r i) as [st|] eqn:Hst.
  2: { split; [reflexivity|]. split; [exact Hinv|].
       split; [apply same_static_refl|reflexivity]. }
  destruct (IsFinalState st) eqn:Hfin.
  - apply (while_final_spec _ i r st); try assumption. lia.
  - simpl. rewrite Hst, Hfin.
    split; [reflexivity|]. split; [exact Hinv|].
    split; [apply same_static_refl|reflexivity].
Qed.

Lemma advance_final_settled (i : nat) r :
  reader_inv r -> (i < max_batch_size_ r)%nat ->
  settled (state (advance_final i r) i).
Proof.
  intros Hinv Hi.
  destruct (advance_final_spec i r Hinv Hi) as (H & _).
  destruct (state r i) as [st|] eqn:Hst.
  - destruct (IsFinalState st) eqn:Hfin.
    + destruct H as (k & _ & _ & [(s & _ & Hnf & -> & _)|(_ & -> & _)]);
        simpl; [exact Hnf|exact I].
    + rewrite H, Hst. exact Hfin.
  - rewrite H, Hst. exact I.
Qed.

Lemma advance_upto_spec r (n : nat) :
  reader_inv r -> (n <= max_batch_size_ r)%nat ->
  let r' := advance_upto n r in
  reader_inv r' /\ same_static r r' /\
  (forall j, (j < n)%nat -> settled (state r' j)) /\
  (forall j, (n <= j)%nat -> state r' j = state r j).
Proof.
  intros Hinv Hn. unfold advance_upto. cbv zeta. revert Hn.
  apply (for_loop_ind (fun k r' =>
           (k <= max_batch_size_ r)%nat ->
           reader_inv r' /\ same_static r r' /\
           (forall j, (j < k)%nat -> settled (state r' j)) /\
           (forall j, (k <= j)%nat -> state r' j = state r j))).
  - intros _. split; [exact Hinv|]. split; [apply same_static_refl|].
    split; intros; [lia|reflexivity].
  - intros i r1 Hi IH Hle.
    destruct IH as (Hinv1 & Hstat1 & Hdone & Hrest); [lia|].
    assert (i < max_batch_size_ r1)%nat as Hi1.
    { destruct Hstat1 as (_ & -> & _). lia. }
    destruct (advance_final_spec i r1 Hinv1 Hi1) as (_ & Hinv2 & Hstat2 & Hother).
    split; [exact Hinv2|]. split; [eapply same_static_trans; eassumption|].
    split.
    + intros j Hj. destruct (decide (j = i)) as [->|Hne].
      * apply advance_final_settled; assumption.
      * rewrite Hother by exact Hne. apply Hdone. lia.
    + intros j Hj. rewrite Hother by lia. apply Hrest. lia.
Qed.

(* --------------------------------------------------------------------- *)
(** *** Rewinding *)

Lemma omap_id_nil {A : Type} (l : list (option A)) :
  length (omap id l) = 0%nat <-> forall i, default None (l !! i) = None.
Proof.
  induction l as [|[a|] l IH]; simpl.
  - split; [intros _ i; destruct i; reflexivity|reflexivity].
  - split; [discriminate|]. intros H. specialize (H 0%nat). discriminate.
  - rewrite IH. split.
    + intros H [|i]; [reflexivity|apply H].
    + intros H i. apply (H (S i)).
Qed.

(** The batch is empty exactly when every slot is. *)
Lemma batch_empty_iff r :
  reader_inv r ->
  Batch_size (sentence_batch_ r) = 0%nat <-> forall i, state r i = None.
Proof.
  intros Hinv. rewrite (batch_size_states r Hinv). apply omap_id_nil.
Qed.

(** Refilling [n] slots from a rewound corpus: slot [j] receives the initial
    state of sentence [j], as far as the corpus goes. *)
Lemma refill_spec r (n : nat) :
  reader_inv r -> cursor (sentence_batch_ r) = 0%nat ->
  (n <= max_batch_size_ r)%nat ->
  let r' := for_loop n AdvanceSentence r in
  reader_inv r' /\ same_static r r' /\
  cursor (sentence_batch_ r') = (n `min` length (corpus (sentence_batch_ r)))%nat /\
  (forall j, (j < n)%nat ->
     state r' j = NewParserState <$> corpus (sentence_batch_ r) !! j) /\
  (forall j, (n <= j)%nat -> state r' j = state r j).
Proof.
  intros Hinv Hcur Hn. cbv zeta. revert Hn.
  apply (for_loop_ind (fun k r' =>
           (k <= max_batch_size_ r)%nat ->
           reader_inv r' /\ same_static r r' /\
           cursor (sentence_batch_ r') =
             (k `min` length (corpus (sentence_batch_ r)))%nat /\
           (forall j, (j < k)%nat ->
              state r' j = NewParserState <$> corpus (sentence_batch_ r) !! j) /\
           (forall j, (k <= j)%nat -> state r' j = state r j))).
  - intros _. split; [exact Hinv|]. split; [apply same_static_refl|].
    split; [rewrite Hcur; reflexivity|]. split; intros; [lia|reflexivity].
  - intros i r1 Hi IH Hle.
    destruct IH as (Hinv1 & Hstat1 & Hcur1 & Hdone & Hrest); [lia|].
    assert (corpus (sentence_batch_ r1) = corpus (sentence_batch_ r)) as Hcorp
      by apply Hstat1.
    assert (i < max_batch_size_ r1)%nat as Hi1.
    { destruct Hstat1 as (_ & -> & _). lia. }
    split; [apply AdvanceSentence_inv, Hinv1|].
    split; [eapply same_static_trans;
            [exact Hstat1|apply AdvanceSentence_static]|].
    destruct (corpus (sentence_batch_ r1) !! cursor (sentence_batch_ r1))
      as [s|] eqn:Hc.
    + destruct (AdvanceSentence_some i r1 s Hinv1 Hi1 Hc) as [Hs Hc'].
      pose proof (lookup_lt_Some _ _ _ Hc) as Hlt.
      rewrite Hcorp, Hcur1 in Hlt.
      assert (cursor (sentence_batch_ r1) = i) as Hci by lia.
      split; [lia|]. split.
      * intros j Hj. destruct (decide (j = i)) as [->|Hne].
        -- rewrite Hs, <- Hcorp, <- Hci at 1. rewrite Hc. reflexivity.
        -- rewrite AdvanceSentence_other by congruence. apply Hdone. lia.
      * intros j Hj. rewrite AdvanceSentence_other by lia. apply Hrest. lia.
    + destruct (AdvanceSentence_none i r1 Hinv1 Hi1 Hc) as [Hs Hc'].
      apply lookup_ge_None in Hc. rewrite Hcorp, Hcur1 in Hc.
      split; [lia|]. split.
      * intros j Hj. destruct (decide (j = i)) as [->|Hne].
        -- rewrite Hs. symmetry.
           rewrite (lookup_ge_None_2 (corpus (sentence_batch_ r)) i) by lia.
           reflexivity.
        -- rewrite AdvanceSentence_other by congruence. apply Hdone. lia.
      * intros j Hj. rewrite AdvanceSentence_other by lia. apply Hrest. lia.
Qed.

Lemma RewindIfEmpty_inv r : reader_inv r -> reader_inv (RewindIfEmpty r).
Proof.
  intros Hinv. unfold RewindIfEmpty.
  destruct (decide (Batch_size (sentence_batch_ r) = 0%nat)); [|exact Hinv].
  apply refill_spec; [|reflexivity|simpl; lia].
  destruct Hinv as (? & ? & ? & ?). unfold reader_inv; simpl.
  repeat split; try assumption. lia.
Qed.

Lemma RewindIfEmpty_static r :
  kind (RewindIfEmpty r) = kind r /\
  max_batch_size_ (RewindIfEmpty r) = max_batch_size_ r /\
  feature_size_ (RewindIfEmpty r) = feature_size_ r /\
  num_tokens_ (RewindIfEmpty r) = num_tokens_ r /\
  num_correct_ (RewindIfEmpty r) = num_correct_ r /\
  scoring_type_ (RewindIfEmpty r) = scoring_type_ r /\
  documents_ (RewindIfEmpty r) = documents_ r /\
  corpus (sentence_batch_ (RewindIfEmpty r)) = corpus (sentence_batch_ r).
Proof.
  unfold RewindIfEmpty.
  destruct (decide (Batch_size (sentence_batch_ r) = 0%nat)); [|repeat split].
  set (r0 := set_sentence_batch _ _).
  assert (same_static r0 (for_loop (max_batch_size_ r0) AdvanceSentence r0)) as H.
  { apply (for_loop_ind (fun _ r' => same_static r0 r')).
    - apply same_static_refl.
    - intros i r1 _ H1. eapply same_static_trans;
        [exact H1|apply AdvanceSentence_static]. }
  unfold same_static in H. decompose [and] H. repeat split; assumption.
Qed.

(* --------------------------------------------------------------------- *)
(** *** The action pass *)

Lemma rank_S l i :
  rank l (S i) = (rank l i + match default None (l !! i) with
                             | Some _ => 1 | None => 0 end)%nat.
Proof.
  unfold rank. destruct (l !! i) as [o|] eqn:Hl.
  - rewrite (take_S_r _ _ _ Hl), omap_app, length_app.
    destruct o; reflexivity.
  - apply lookup_ge_None in Hl. rewrite !take_ge by lia. simpl. lia.
Qed.

(** A slot loop that rewrites non-null states keeps the occupancy. *)
Lemma same_occupancy_states (l l' : list (option ParserState))
    (k : list (option Sentence)) :
  length l' = length l ->
  (forall i, is_Some (default None (l' !! i)) <->
             is_Some (default None (l !! i))) ->
  Forall2 same_occupancy l k ->
  Forall2 same_occupancy l' k.
Proof.
  intros Hlen Hsame H.
  apply Forall2_same_length_lookup_2.
  - rewrite Hlen. eapply Forall2_length; exact H.
  - intros i x y Hx Hy.
    destruct (lookup_lt_is_Some_2 l i) as [x0 Hx0].
    { rewrite <- Hlen. eapply lookup_lt_Some; exact Hx. }
    pose proof (Forall2_lookup_lr _ _ _ _ _ _ H Hx0 Hy) as Hocc.
    specialize (Hsame i). rewrite Hx, Hx0 in Hsame. simpl in Hsame.
    unfold same_occupancy in *. rewrite Hsame. exact Hocc.
Qed.

Lemma lookup_done_todo {A : Type} (done l : list A) (k : nat) :
  length done = k -> (done ++ drop k l) !! k = l !! k.
Proof.
  intros Hk. rewrite lookup_app_r by lia.
  rewrite Hk, Nat.sub_diag, lookup_drop. f_equal. lia.
Qed.

Lemma insert_done_todo {A : Type} (done l : list A) (k : nat) (x y : A) :
  length done = k -> l !! k = Some x ->
  <[k := y]> (done ++ drop k l) = (done ++ [y]) ++ drop (S k) l.
Proof.
  intros Hk Hl. rewrite insert_app_r_alt by lia.
  rewrite Hk, Nat.sub_diag, (drop_S _ _ _ Hl), <- app_assoc. reflexivity.
Qed.

Lemma keep_done_todo {A : Type} (done l : list A) (k : nat) (x : A) :
  l !! k = Some x ->
  done ++ drop k l = (done ++ [x]) ++ drop (S k) l.
Proof.
  intros Hl. rewrite (drop_S _ _ _ Hl), <- app_assoc. reflexivity.
Qed.

(** The gold action pass applies the oracle's action to every non-null
    state. *)
Lemma GoldPerformActions_eq r :
  reader_inv r ->
  GoldPerformActions r = set_states (fmap (M:=option) gold_step <$> states_ r) r.
Proof.
  intros (Hlen & _). unfold GoldPerformActions, max_batch_size.
  rewrite <- Hlen.
  set (l := states_ r).
  assert (for_loop (length l)
            (fun i r0 =>
               match state r0 i with
               | Some st =>
                   set_state i (Some (PerformAction (GetNextGoldAction st) st)) r0
               | None => r0
               end) r =
          set_states ((fmap (M:=option) gold_step <$> take (length l) l) ++ drop (length l) l) r)
    as ->.
  { apply (for_loop_ind (fun k r' =>
             r' = set_states ((fmap (M:=option) gold_step <$> take k l) ++ drop k l) r)).
    - simpl. rewrite drop_0. destruct r; reflexivity.
    - intros i r1 Hi ->.
      assert (length (fmap (M:=option) gold_step <$> take i l) = i) as Hdone
        by (rewrite length_fmap, length_take; lia).
      destruct (lookup_lt_is_Some_2 l i Hi) as [o Ho].
      unfold state at 1. simpl.
      rewrite lookup_done_todo by exact Hdone. rewrite Ho. simpl.
      rewrite (take_S_r _ _ _ Ho), fmap_app. simpl.
      destruct o as [st|]; simpl.
      + unfold set_state, set_states; simpl. f_equal.
        eapply insert_done_todo; [exact Hdone|exact Ho].
      + unfold set_states. f_equal. apply keep_done_todo. exact Ho. }
  rewrite take_ge, drop_ge, app_nil_r by lia. reflexivity.
Qed.

Lemma GoldPerformActions_inv r :
  reader_inv r -> reader_inv (GoldPerformActions r).
Proof.
  intros Hinv. rewrite GoldPerformActions_eq by exact Hinv.
  destruct Hinv as (Hs & Hw & Hocc & Hcur).
  unfold reader_inv; simpl. rewrite length_fmap.
  repeat split; try assumption.
  eapply same_occupancy_states; [apply length_fmap| |exact Hocc].
  intros i. rewrite list_lookup_fmap.
  destruct (states_ r !! i) as [[st|]|]; simpl;
    split; intros [? ?]; try discriminate; eexists; reflexivity.
Qed.

Lemma filter_seq_S (f : nat -> bool) (k : nat) :
  length (List.filter f (seq 0 (S k))) =
  (length (List.filter f (seq 0 k)) + (if f k then 1 else 0))%nat.
Proof.
  rewrite seq_S, List.filter_app, length_app. simpl.
  destruct (f k); reflexivity.
Qed.

Lemma ComputeTokenAccuracy_eq st r :
  ComputeTokenAccuracy st r =
  set_num_correct
    (Nat.iter (tokens_correct (scoring_type_ r) st) incr (num_correct_ r))
    (set_num_tokens
       (Nat.iter (tokens_scored (scoring_type_ r) st) incr (num_tokens_ r)) r).
Proof.
  unfold ComputeTokenAccuracy, tokens_scored, tokens_correct.
  apply (for_loop_ind (fun k r' =>
    r' = set_num_correct
           (Nat.iter
              (length (List.filter
                         (fun i => scored (scoring_type_ r) st i &&
                                   IsTokenCorrect st i) (seq 0 k)))
              incr (num_correct_ r))
           (set_num_tokens
              (Nat.iter
                 (length (List.filter (scored (scoring_type_ r) st) (seq 0 k)))
                 incr (num_tokens_ r)) r))).
  - destruct r; reflexivity.
  - intros i r1 Hi ->. rewrite !filter_seq_S.
    destruct r as [k e n fs b sts ws nt nc sc docs]. simpl.
    unfold scored.
    destruct (token (sentence st) !! i) as [tok|]; simpl.
    + destruct (ScoreToken (word tok) (tag tok) sc); simpl.
      * destruct (IsTokenCorrect st i); simpl;
          rewrite ?Nat.add_0_r, ?Nat.add_1_r; reflexivity.
      * rewrite !Nat.add_0_r. reflexivity.
    + rewrite !Nat.add_0_r. reflexivity.
Qed.

Lemma DecodedPerformActions_spec context r :
  reader_inv r ->
  let scores := input0 context in
  let l := states_ r in
  let fin := finalized scores l (length l) in
  let r' := DecodedPerformActions context r in
  same_batch r r' /\
  states_ r' = decode_at scores l <$> seq 0 (length l) /\
  documents_ r' = documents_ r ++ (annotated <$> fin) /\
  num_tokens_ r' =
    Nat.iter (sum_list_with (tokens_scored (scoring_type_ r)) fin) incr 0 /\
  num_correct_ r' =
    Nat.iter (sum_list_with (tokens_correct (scoring_type_ r)) fin) incr 0.
Proof.
  intros (Hlen & _). cbv zeta.
  unfold DecodedPerformActions, max_batch_size. simpl.
  rewrite <- Hlen.
  set (scores := input0 context). set (l := states_ r).
  set (r0 := set_num_correct 0 (set_num_tokens 0 r)).
  assert (forall k, (k <= length l)%nat ->
    let p := for_loop k
               (fun i '(r1, batch_index) =>
                  match state r1 i with
                  | Some st => (decoded_slot scores i batch_index st r1,
                                S batch_index)
                  | None => (r1, batch_index)
                  end) (r0, 0%nat) in
    snd p = rank l k /\
    same_batch r (fst p) /\
    states_ (fst p) = (decode_at scores l <$> seq 0 k) ++ drop k l /\
    documents_ (fst p) = documents_ r ++ (annotated <$> finalized scores l k) /\
    num_tokens_ (fst p) =
      Nat.iter (sum_list_with (tokens_scored (scoring_type_ r))
                  (finalized scores l k)) incr 0 /\
    num_correct_ (fst p) =
      Nat.iter (sum_list_with (tokens_correct (scoring_type_ r))
                  (finalized scores l k)) incr 0) as H.
  { induction k as [|k IH]; intros Hk.
    - simpl. rewrite drop_0, app_nil_r. repeat split.
    - rewrite for_loop_S. specialize (IH ltac:(lia)). cbv zeta in IH.
      destruct (for_loop k _ (r0, 0%nat)) as [r1 bi].
      cbn [fst snd] in IH. destruct IH as (Hbi & Hsame & Hst & Hdocs & Hnt & Hnc).
      assert (length (decode_at scores l <$> seq 0 k) = k) as Hdone
        by (rewrite length_fmap, length_seq; reflexivity).
      destruct (lookup_lt_is_Some_2 l k ltac:(lia)) as [o Ho].
      assert (state r1 k = o) as Hstate.
      { unfold state. rewrite Hst, lookup_done_todo by exact Hdone.
        rewrite Ho. reflexivity. }
      assert (decode_at scores l k =
              (fun st => PerformAction (best_action scores (rank l k) st) st)
                <$> o) as Hdec
        by (unfold decode_at; rewrite Ho; reflexivity).
      assert (finalized scores l (S k) =
              finalized scores l k ++
              match decode_at scores l k with
              | Some st => if IsFinalState st then [st] else []
              | None => []
              end) as Hfinal.
      { unfold finalized. rewrite seq_S, omap_app. simpl.
        destruct (decode_at scores l k) as [st|]; [|reflexivity].
        destruct (IsFinalState st); reflexivity. }
      cbv zeta. rewrite Hstate, rank_S, Ho, Hfinal, seq_S, fmap_app.
      cbn [fmap list_fmap default Nat.add]. rewrite Hdec. subst bi.
      destruct o as [st|]; cbn [fst snd fmap option_fmap option_map].
      + split; [simpl; lia|].
        set (st' := PerformAction (best_action scores (rank l k) st) st).
        unfold decoded_slot. fold st'.
        assert (<[k := Some st']> (states_ r1) =
                ((decode_at scores l <$> seq 0 k) ++ [Some st']) ++
                drop (S k) l) as Hins.
        { rewrite Hst. eapply insert_done_todo; [exact Hdone|exact Ho]. }
        destruct (IsFinalState st') eqn:Hfin.
        * rewrite ComputeTokenAccuracy_eq. simpl.
          assert (scoring_type_ r1 = scoring_type_ r) as -> by apply Hsame.
          rewrite Hins, Hdocs, Hnt, Hnc.
          rewrite fmap_app, !sum_list_with_app, app_assoc. simpl.
          rewrite !Nat.add_0_r, !(Nat.add_comm (sum_list_with _ _)),
            !Nat.iter_add.
          repeat split; apply Hsame.
        * simpl. rewrite Hins, Hdocs, Hnt, Hnc, !app_nil_r.
          repeat split; apply Hsame.
      + split; [simpl; lia|]. rewrite !app_nil_r. split; [exact Hsame|].
        split; [|repeat split; assumption].
        rewrite Hst. apply keep_done_todo. exact Ho. }
  specialize (H (length l) ltac:(lia)). cbv zeta in H.
  destruct H as (_ & Hsame & Hst & Hdocs & Hnt & Hnc).
  rewrite drop_ge, app_nil_r in Hst by lia.
  repeat split; try assumption; apply Hsame.
Qed.

Lemma DecodedPerformActions_inv context r :
  reader_inv r -> reader_inv (DecodedPerformActions context r).
Proof.
  intros Hinv.
  destruct (DecodedPerformActions_spec context r Hinv)
    as (Hsame & Hst & _). cbv zeta in Hst.
  destruct Hsame as (_ & Hmax & _ & _ & Hbatch & Hws & _).
  destruct Hinv as (Hs & Hw & Hocc & Hcur).
  unfold reader_inv. rewrite Hst, Hmax, Hbatch, Hws, length_fmap, length_seq.
  repeat split; try assumption.
  eapply same_occupancy_states; [| |exact Hocc].
  - rewrite length_fmap, length_seq. reflexivity.
  - intros i. rewrite list_lookup_fmap.
    destruct (decide (i < length (states_ r))%nat) as [Hi|Hi].
    + rewrite lookup_seq_lt by exact Hi. simpl. unfold decode_at.
      destruct (default None (states_ r !! i)); simpl;
        split; intros [? ?]; try discriminate; eexists; reflexivity.
    + rewrite lookup_seq_ge, (lookup_ge_None_2 (states_ r)) by lia.
      reflexivity.
Qed.

Lemma PerformActions_inv context r :
  reader_inv r -> reader_inv (PerformActions context r).
Proof.
  intros Hinv. unfold PerformActions. destruct (kind r).
  - apply GoldPerformActions_inv, Hinv.
  - apply DecodedPerformActions_inv, Hinv.
Qed.

Lemma PerformActions_same_batch context r :
  reader_inv r -> same_batch r (PerformActions context r).
Proof.
  intros Hinv. unfold PerformActions. destruct (kind r) eqn:Hk.
  - rewrite GoldPerformActions_eq by exact Hinv. repeat split.
  - apply DecodedPerformActions_spec, Hinv.
Qed.

Lemma AdvanceFinalStates_spec r :
  reader_inv r ->
  let r' := AdvanceFinalStates r in
  reader_inv r' /\ same_static r r' /\ forall j, settled (state r' j).
Proof.
  intros Hinv. cbv zeta.
  destruct (advance_upto_spec r (max_batch_size_ r) Hinv ltac:(lia))
    as (Hinv' & Hstat & Hdone & Hrest).
  fold (AdvanceFinalStates r) in *. unfold advance_upto in *.
  fold (AdvanceFinalStates r) in *.
  split; [exact Hinv'|]. split; [exact Hstat|].
  intros j. destruct (decide (j < max_batch_size_ r)%nat) as [Hj|Hj].
  - apply Hdone, Hj.
  - unfold state. rewrite lookup_ge_None_2; [exact I|].
    destruct Hinv' as (-> & _). destruct Hstat as (_ & -> & _). lia.
Qed.

Lemma advanced_inv context r : reader_inv r -> reader_inv (advanced context r).
Proof.
  intros Hinv. unfold advanced.
  apply RewindIfEmpty_inv, AdvanceFinalStates_spec, PerformActions_inv, Hinv.
Qed.

Lemma advanced_kind context r :
  reader_inv r ->
  kind (advanced context r) = kind r /\
  max_batch_size_ (advanced context r) = max_batch_size_ r /\
  feature_size_ (advanced context r) = feature_size_ r.
Proof.
  intros Hinv. unfold advanced.
  pose proof (PerformActions_inv context r Hinv) as Hinv1.
  destruct (PerformActions_same_batch context r Hinv) as (H1 & H2 & H3 & _).
  destruct (AdvanceFinalStates_spec _ Hinv1) as (_ & (H4 & H5 & H6 & _) & _).
  destruct (RewindIfEmpty_static
              (AdvanceFinalStates (PerformActions context r)))
    as (H7 & H8 & H9 & _).
  repeat split; congruence.
Qed.

(* --------------------------------------------------------------------- *)
(** *** Feature outputs *)

Lemma slot_row_eq r g i :
  slot_row r g i =
  match default None (states_ r !! i) with
  | Some st =>
      Some (SerializeAsString <$>
              default [] (ExtractSparseFeatures
                            (default ResetWorkspace (workspaces_ r !! i)) st
                          !! g))
  | None => None
  end.
Proof.
  unfold slot_row, slot_features, state.
  destruct (default None (states_ r !! i)); reflexivity.
Qed.

Lemma feature_rows_S r g n :
  feature_rows r g (S n) =
  feature_rows r g n ++ match slot_row r g n with Some row => [row] | None => [] end.
Proof.
  unfold feature_rows. rewrite seq_S, omap_app. simpl.
  destruct (slot_row r g n); reflexivity.
Qed.

Lemma length_feature_rows r g n :
  length (feature_rows r g n) = rank (states_ r) n.
Proof.
  induction n as [|n IH]; [reflexivity|].
  rewrite feature_rows_S, length_app, IH, rank_S.
  unfold slot_row, slot_features, state.
  destruct (default None (states_ r !! n)); reflexivity.
Qed.

Lemma rank_le (l : list (option ParserState)) (i j : nat) :
  (i <= j)%nat -> (rank l i <= rank l j)%nat.
Proof.
  induction 1 as [|j _ IH]; [lia|]. rewrite rank_S. lia.
Qed.

Lemma rank_all (l : list (option ParserState)) :
  rank l (length l) = length (omap id l).
Proof. unfold rank. rewrite take_ge by lia. reflexivity. Qed.

Lemma allocate_feature_outputs_eq context r :
  feature_allocations_succeed context ->
  allocate_feature_outputs context r =
  Some ((fun g => replicate (Batch_size (sentence_batch_ r)) (blank_row g))
          <$> seq 0 NumEmbeddings).
Proof.
  intros Halloc. unfold allocate_feature_outputs.
  set (f := fun g => replicate (Batch_size (sentence_batch_ r))
                      (replicate (FeatureSize g) String.EmptyString)).
  destruct (for_loop_opt_total NumEmbeddings
              (fun i outs =>
                 if can_allocate context i
                 then Some (<[i := f i]> outs) else None)
              (fun i outs => <[i := f i]> outs)
              (fun _ _ => True) (replicate NumEmbeddings [])) as [H _].
  - exact I.
  - intros i outs Hi _. rewrite (Halloc i Hi). split; [reflexivity|exact I].
  - etransitivity; [exact H|].
    rewrite for_loop_insert by (rewrite length_replicate; lia).
    rewrite drop_ge, app_nil_r by (rewrite length_replicate; lia).
    reflexivity.
Qed.

Lemma alter_insert_eq {A : Type} (f : A -> A) (l : list A) (i : nat) (x : A) :
  alter f i (<[i := x]> l) = <[i := f x]> l.
Proof.
  revert i. induction l as [|y l IH]; intros [|i]; simpl; try reflexivity.
  f_equal. apply IH.
Qed.

(** The loop over the features of one group fills row [index]. *)
Lemma write_row (index : nat) (group : list SparseFeatures)
    (T : list (list string)) (row0 : list string) :
  T !! index = Some row0 -> length row0 = length group ->
  for_loop (length group)
    (fun k out =>
       match group !! k with
       | Some f => set_coeff index k (SerializeAsString f) out
       | None => out
       end) T =
  <[index := SerializeAsString <$> group]> T.
Proof.
  intros HT Hlen.
  assert (forall k, (k <= length group)%nat ->
    for_loop k
      (fun k out =>
         match group !! k with
         | Some f => set_coeff index k (SerializeAsString f) out
         | None => out
         end) T =
    <[index := (SerializeAsString <$> take k group) ++ drop k row0]> T) as H.
  { induction k as [|k IH]; intros Hk.
    - simpl. rewrite drop_0, list_insert_id; [reflexivity|exact HT].
    - rewrite for_loop_S, IH by lia.
      destruct (lookup_lt_is_Some_2 group k ltac:(lia)) as [f Hf].
      destruct (lookup_lt_is_Some_2 row0 k ltac:(lia)) as [x Hx].
      rewrite Hf. unfold set_coeff. rewrite alter_insert_eq. f_equal.
      rewrite (take_S_r _ _ _ Hf), fmap_app. simpl.
      eapply insert_done_todo; [|exact Hx].
      rewrite length_fmap, length_take. lia. }
  rewrite H by lia. rewrite take_ge, drop_ge, app_nil_r by lia. reflexivity.
Qed.

(** The loop over the groups of one state, when the groups have their
    declared sizes: every output receives its row at [index]. *)
Lemma populate_slot_eq (index : nat) (features : list (list SparseFeatures))
    (outs : list (list (list string))) :
  length features = length outs ->
  (forall g group, features !! g = Some group -> length group = FeatureSize g) ->
  (forall g T, outs !! g = Some T ->
     exists row0, T !! index = Some row0 /\ length row0 = FeatureSize g) ->
  populate_slot index features outs =
  Some (imap (fun g T =>
                <[index := SerializeAsString <$> default [] (features !! g)]> T)
          outs).
Proof.
  intros Hlen Hsized Hrows. unfold populate_slot.
  set (F := fun g (T : list (list string)) =>
              <[index := SerializeAsString <$> default [] (features !! g)]> T).
  destruct (for_loop_opt_total (length features)
              (fun feature_space outs0 =>
                 match features !! feature_space with
                 | Some group =>
                     let feature_size := length group in
                     if decide (feature_size = FeatureSize feature_space) then
                       Some (alter
                               (fun features_output =>
                                  for_loop feature_size
                                    (fun k out =>
                                       match group !! k with
                                       | Some f =>
                                           set_coeff index k
                                             (SerializeAsString f) out
                                       | None => out
                                       end) features_output)
                               feature_space outs0)
                     else None
                 | None => Some outs0
                 end)
              (fun g outs0 => alter (F g) g outs0)
              (fun m outs0 =>
                 length outs0 = length outs /\
                 forall g, outs0 !! g =
                           if decide (g < m)%nat then F g <$> outs !! g
                           else outs !! g)
              outs) as [H [Hl Hlook]]; [| |etransitivity; [exact H|]].
  - split; [reflexivity|]. intros g. case_decide; [lia|reflexivity].
  - intros m outs0 Hm [Hl0 Hlook0].
    destruct (lookup_lt_is_Some_2 features m Hm) as [group Hgroup].
    rewrite Hgroup. cbv zeta.
    rewrite decide_True by (apply (Hsized m group Hgroup)).
    split.
    + f_equal. apply list_alter_ext; [|reflexivity].
      intros T HT. rewrite Hlook0 in HT.
      rewrite decide_False in HT by lia.
      destruct (Hrows m T HT) as (row0 & Hrow0 & Hlen0).
      unfold F. rewrite Hgroup. simpl.
      apply (write_row index group T row0 Hrow0).
      rewrite Hlen0. symmetry. apply (Hsized m group Hgroup).
    + split; [rewrite length_alter; exact Hl0|].
      intros g. rewrite list_lookup_alter, !Hlook0.
      destruct (decide (m = g)) as [->|Hne].
      * rewrite decide_False, decide_True by lia. reflexivity.
      * destruct (decide (g < m)%nat); [rewrite decide_True by lia|
                                         rewrite decide_False by lia];
          reflexivity.
  - f_equal. apply list_eq. intros g.
    rewrite Hlook, list_lookup_imap.
    destruct (decide (g < length features)%nat) as [Hg|Hg]; [reflexivity|].
    rewrite (lookup_ge_None_2 outs) by lia. reflexivity.
Qed.

(** A group of the wrong size stops the loop over the groups. *)
Lemma populate_slot_None (index : nat) (features : list (list SparseFeatures))
    (outs : list (list (list string))) (g : nat) (group : list SparseFeatures) :
  features !! g = Some group -> length group <> FeatureSize g ->
  populate_slot index features outs = None.
Proof.
  intros Hg Hsize. unfold populate_slot.
  apply (for_loop_opt_stops _ (S g)).
  - apply lookup_lt_Some in Hg. lia.
  - rewrite for_loop_opt_S.
    destruct (for_loop_opt g _ outs) as [outs0|]; [|reflexivity].
    rewrite Hg. cbv zeta. rewrite decide_False by exact Hsize. reflexivity.
Qed.

(** ... and with it the loop over the slots. *)
Lemma populate_feature_outputs_None r (outs : list (list (list string)))
    (i : nat) (features : list (list SparseFeatures)) (g : nat)
    (group : list SparseFeatures) :
  (i < max_batch_size_ r)%nat ->
  slot_features r i = Some features ->
  features !! g = Some group -> length group <> FeatureSize g ->
  populate_feature_outputs r outs = None.
Proof.
  intros Hi Hf Hg Hsize. unfold populate_feature_outputs.
  apply (for_loop_opt_stops _ (S i)); [lia|].
  rewrite for_loop_opt_S.
  destruct (for_loop_opt i _ (outs, 0%nat)) as [[outs0 index]|]; [|reflexivity].
  unfold slot_features, state in Hf.
  destruct (default None (states_ r !! i)) as [st|]; [|discriminate].
  simpl in Hf. injection Hf as Hf. rewrite Hf.
  rewrite (populate_slot_None index features outs0 g group Hg Hsize).
  reflexivity.
Qed.

(** With a well-sized extractor the loop over the slots fills the outputs
    with one row per non-null state, in slot order, and ends with [index] at
    the size of the batch. *)
Lemma populate_feature_outputs_eq r :
  reader_inv r -> extractor_well_sized ->
  populate_feature_outputs r
    ((fun g => replicate (Batch_size (sentence_batch_ r)) (blank_row g))
       <$> seq 0 NumEmbeddings) =
  Some ((fun g => feature_rows r g (max_batch_size_ r)) <$> seq 0 NumEmbeddings,
        Batch_size (sentence_batch_ r)).
Proof.
  intros Hinv Hsized. unfold populate_feature_outputs.
  pose proof (batch_size_states r Hinv) as Hsize.
  destruct Hinv as (Hlen & _).
  set (l := states_ r) in *. set (size := Batch_size (sentence_batch_ r)) in *.
  rewrite <- rank_all in Hsize.
  set (F := fun index (features : list (list SparseFeatures)) g
                (T : list (list string)) =>
              <[index := SerializeAsString <$> default [] (features !! g)]> T).
  destruct (for_loop_opt_total (max_batch_size_ r)
    (fun i '(outs, index) =>
       match default None (l !! i) with
       | None => Some (outs, index)
       | Some st =>
           let features :=
             ExtractSparseFeatures
               (default ResetWorkspace (workspaces_ r !! i)) st in
           match populate_slot index features outs with
           | Some outs => Some (outs, S index)
           | None => None
           end
       end)
    (fun i '(outs, index) =>
       match default None (l !! i) with
       | None => (outs, index)
       | Some st =>
           (imap (F index (ExtractSparseFeatures
                             (default ResetWorkspace (workspaces_ r !! i)) st))
              outs, S index)
       end)
    (fun k p =>
       snd p = rank l k /\
       fst p = (fun g => feature_rows r g k ++
                         replicate (size - rank l k) (blank_row g))
                 <$> seq 0 NumEmbeddings)
    ((fun g => replicate size (blank_row g)) <$> seq 0 NumEmbeddings, 0%nat))
    as [H [Hindex Houts]]; [| |etransitivity; [exact H|]].
  - split; [reflexivity|]. simpl. unfold rank. simpl.
    rewrite Nat.sub_0_r. reflexivity.
  - intros k [outs index] Hk [Hi Ho]. simpl in Hi, Ho. subst index outs.
    pose proof (rank_S l k) as HrS.
    pose proof (rank_le l (S k) (length l) ltac:(lia)) as Hrle.
    destruct (default None (l !! k)) as [st|] eqn:Hst.
    + cbv zeta.
      set (features := ExtractSparseFeatures
                         (default ResetWorkspace (workspaces_ r !! k)) st).
      destruct (Hsized (default ResetWorkspace (workspaces_ r !! k)) st)
        as [HN Hgroups]. fold features in HN, Hgroups.
      rewrite populate_slot_eq.
      * split; [reflexivity|]. split; [simpl; lia|]. simpl.
        apply list_eq. intros g.
        rewrite list_lookup_imap, !list_lookup_fmap.
        destruct (seq 0 NumEmbeddings !! g) as [g'|] eqn:Hg; [|reflexivity].
        apply lookup_seq in Hg. destruct Hg as [-> Hg]. simpl. f_equal.
        rewrite feature_rows_S, (slot_row_eq r g k). fold l. rewrite Hst.
        fold features. unfold F.
        rewrite insert_app_r_alt; rewrite length_feature_rows; fold l; [|lia].
        rewrite Nat.sub_diag, <- app_assoc. f_equal.
        replace (size - rank l k)%nat with (S (size - rank l (S k)))%nat by lia.
        reflexivity.
      * rewrite length_fmap, length_seq. exact HN.
      * exact Hgroups.
      * intros g T HT. rewrite list_lookup_fmap in HT.
        destruct (seq 0 NumEmbeddings !! g) as [g'|] eqn:Hg; [|discriminate].
        apply lookup_seq in Hg. destruct Hg as [-> Hg]. simpl in HT.
        injection HT as <-. exists (blank_row g).
        split; [|apply length_replicate].
        rewrite lookup_app_r; rewrite length_feature_rows; fold l; [|lia].
        rewrite Nat.sub_diag. apply lookup_replicate_2. lia.
    + split; [reflexivity|]. split; [simpl; lia|]. simpl.
      apply list_eq. intros g. rewrite !list_lookup_fmap.
      destruct (seq 0 NumEmbeddings !! g) as [g'|]; [|reflexivity]. simpl.
      rewrite feature_rows_S, (slot_row_eq r g' k). fold l. rewrite Hst.
      rewrite app_nil_r. do 3 f_equal. lia.
  - destruct (for_loop (max_batch_size_ r) _ _) as [outs index].
    simpl in Hindex, Houts. subst index outs.
    rewrite <- Hlen. fold l. rewrite <- Hsize, Nat.sub_diag. f_equal. f_equal.
    apply list_eq. intros g. rewrite !list_lookup_fmap.
    destruct (seq 0 NumEmbeddings !! g); [|reflexivity]. simpl.
    rewrite app_nil_r. reflexivity.
Qed.

(* --------------------------------------------------------------------- *)
(** *** Additional outputs *)

Lemma gold_actions_loop_eq r :
  reader_inv r ->
  gold_actions_loop r (replicate (batch_size r) 0) =
  (next_gold_actions r, batch_size r).
Proof.
  intros Hinv. unfold gold_actions_loop, max_batch_size, batch_size.
  pose proof (batch_size_states r Hinv) as Hsize.
  destruct Hinv as (Hlen & _). rewrite <- Hlen.
  unfold next_gold_actions.
  set (l := states_ r) in *. set (size := Batch_size (sentence_batch_ r)) in *.
  rewrite <- rank_all in Hsize.
  assert (forall k, (k <= length l)%nat ->
    for_loop k
      (fun i '(gold_actions, batch_index) =>
         match state r i with
         | Some st =>
             let gold_action := GetNextGoldAction st in
             (<[batch_index := gold_action]> gold_actions, S batch_index)
         | None => (gold_actions, batch_index)
         end) (replicate size 0, 0%nat) =
    ((GetNextGoldAction <$> omap id (take k l)) ++
       replicate (size - rank l k) 0, rank l k)) as H.
  { induction k as [|k IH]; intros Hk.
    - simpl. unfold rank. simpl. rewrite Nat.sub_0_r. reflexivity.
    - rewrite for_loop_S, IH by lia.
      pose proof (rank_S l k) as HrS.
      pose proof (rank_le l (S k) (length l) ltac:(lia)) as Hrle.
      destruct (lookup_lt_is_Some_2 l k ltac:(lia)) as [o Ho].
      unfold state. fold l. rewrite Ho in *. simpl in *.
      rewrite (take_S_r _ _ _ Ho), omap_app, fmap_app.
      destruct o as [st|]; simpl.
      + f_equal; [|lia].
        rewrite insert_app_r_alt; rewrite length_fmap; fold (rank l k); [|lia].
        rewrite Nat.sub_diag, <- app_assoc. f_equal.
        replace (size - rank l k)%nat with (S (size - rank l (S k)))%nat by lia.
        reflexivity.
      + rewrite app_nil_r. f_equal; [|lia]. do 2 f_equal. lia. }
  rewrite H by lia.
  rewrite take_ge, <- Hsize, Nat.sub_diag, app_nil_r by lia. reflexivity.
Qed.

Lemma document_output_loop_eq (docs : list Sentence) :
  document_output_loop docs (replicate (length docs) String.EmptyString) =
  SerializeSentence <$> docs.
Proof.
  unfold document_output_loop.
  set (out0 := replicate (length docs) String.EmptyString).
  assert (length out0 = length docs) as Hlen by apply length_replicate.
  assert (forall k, (k <= length docs)%nat ->
    for_loop k
      (fun i out =>
         match docs !! i with
         | Some d => <[i := SerializeSentence d]> out
         | None => out
         end) out0 =
    (SerializeSentence <$> take k docs) ++ drop k out0) as H.
  { induction k as [|k IH]; intros Hk.
    - reflexivity.
    - rewrite for_loop_S, IH by lia.
      destruct (lookup_lt_is_Some_2 docs k ltac:(lia)) as [d Hd].
      destruct (lookup_lt_is_Some_2 out0 k ltac:(lia)) as [x Hx].
      rewrite Hd, (take_S_r _ _ _ Hd), fmap_app. simpl.
      eapply insert_done_todo; [|exact Hx].
      rewrite length_fmap, length_take. lia. }
  rewrite H by lia. rewrite take_ge, drop_ge, app_nil_r by lia. reflexivity.
Qed.

Lemma AddAdditionalOutputs_eq context r :
  reader_inv r -> allocations_succeed context ->
  AddAdditionalOutputs context r =
  Value (expected_additional r) (after_outputs r).
Proof.
  intros Hinv Halloc.
  unfold AddAdditionalOutputs, expected_additional, after_outputs.
  destruct (kind r).
  - unfold GoldAddAdditionalOutputs, bind, gets, OP_REQUIRES_OK, ret.
    rewrite Halloc, gold_actions_loop_eq by exact Hinv. reflexivity.
  - unfold DecodedAddAdditionalOutputs, bind, gets, OP_REQUIRES_OK, ret, modify.
    rewrite !Halloc, document_output_loop_eq. reflexivity.
Qed.

(** One step of a reader whose allocations succeed and whose extractor is
    well sized: the outputs and the reader that [Compute] leaves, in terms of
    the reader after the action, advance and rewind parts. *)
Lemma Compute_eq context r :
  reader_inv r -> allocations_succeed context -> extractor_well_sized ->
  let r3 := advanced context r in
  Compute context r =
  Value (mkOutputs
           ((fun g => feature_rows r3 g (max_batch_size_ r3))
              <$> seq 0 NumEmbeddings)
           (num_epochs_ r3) (expected_additional r3))
        (after_outputs r3).
Proof.
  intros Hinv Halloc Hsized r3.
  pose proof (advanced_inv context r Hinv) as Hinv3. fold r3 in Hinv3.
  unfold Compute, bind, modify, gets, OP_REQUIRES_OK, ret,
    require_allocated, require_checked.
  fold (advanced context r). fold r3.
  rewrite allocate_feature_outputs_eq by (intros g _; apply Halloc).
  rewrite populate_feature_outputs_eq by assumption.
  rewrite Halloc, AddAdditionalOutputs_eq by assumption. reflexivity.
Qed.

(** A group of the wrong size in a non-null slot aborts the step, once the
    feature outputs are allocated: the [CHECK] comes before the allocation of
    the epoch and of the additional outputs. *)
Lemma Compute_aborts context r (i : nat) (features : list (list SparseFeatures))
    (g : nat) (group : list SparseFeatures) :
  feature_allocations_succeed context ->
  let r3 := advanced context r in
  (i < max_batch_size_ r3)%nat ->
  slot_features r3 i = Some features ->
  features !! g = Some group -> length group <> FeatureSize g ->
  Compute context r = Aborted.
Proof.
  intros Halloc r3 Hi Hf Hg Hsize.
  unfold Compute, bind, modify, gets, OP_REQUIRES_OK, ret,
    require_allocated, require_checked.
  fold (advanced context r). fold r3.
  rewrite allocate_feature_outputs_eq by exact Halloc.
  rewrite (populate_feature_outputs_None r3 _ i features g group)
    by assumption.
  reflexivity.
Qed.

Lemma after_outputs_fields r :
  states_ (after_outputs r) = states_ r /\
  workspaces_ (after_outputs r) = workspaces_ r /\
  max_batch_size_ (after_outputs r) = max_batch_size_ r /\
  num_epochs_ (after_outputs r) = num_epochs_ r /\
  kind (after_outputs r) = kind r /\
  sentence_batch_ (after_outputs r) = sentence_batch_ r.
Proof. unfold after_outputs. destruct (kind r) eqn:Hk; repeat split; exact Hk. Qed.

Lemma after_outputs_inv r : reader_inv r -> reader_inv (after_outputs r).
Proof.
  intros Hinv. unfold after_outputs. destruct (kind r); exact Hinv.
Qed.

Lemma feature_rows_after_outputs r g n :
  feature_rows (after_outputs r) g n = feature_rows r g n.
Proof. unfold after_outputs. destruct (kind r); reflexivity. Qed.

(** Whenever [Compute] returns normally, the epoch it reports and the reader
    it leaves are those of the reader after the rewind part. *)
Lemma Compute_Value context r out r' :
  Compute context r = Value out r' ->
  epoch_output out = num_epochs_ (advanced context r) /\
  r' = after_outputs (advanced context r).
Proof.
  unfold Compute, bind, modify, gets, OP_REQUIRES_OK, ret,
    require_allocated, require_checked.
  fold (advanced context r). set (r3 := advanced context r).
  destruct (allocate_feature_outputs context r3); [|discriminate].
  destruct (populate_feature_outputs r3 _); [|discriminate].
  destruct (can_allocate context (feature_size_ r3)); [|discriminate].
  unfold AddAdditionalOutputs, after_outputs.
  destruct (kind r3).
  - unfold GoldAddAdditionalOutputs, bind, gets, OP_REQUIRES_OK, ret.
    destruct (can_allocate context _); [|discriminate].
    intros H. injection H as <- <-. split; reflexivity.
  - unfold DecodedAddAdditionalOutputs, bind, gets, OP_REQUIRES_OK, ret, modify.
    destruct (can_allocate context (additional_output_index r3));
      [|discriminate].
    destruct (can_allocate context _); [|discriminate].
    intros H. injection H as <- <-. split; reflexivity.
Qed.

(** A step that returns early leaves the reader of the rewind part: nothing
    of the action, advance and rewind parts is undone. *)
Lemma Compute_Failed context r r' :
  Compute context r = Failed r' -> r' = advanced context r.
Proof.
  unfold Compute, bind, modify, gets, OP_REQUIRES_OK, ret,
    require_allocated, require_checked.
  fold (advanced context r). set (r3 := advanced context r).
  destruct (allocate_feature_outputs context r3); [|congruence].
  destruct (populate_feature_outputs r3 _); [|discriminate].
  destruct (can_allocate context (feature_size_ r3)); [|congruence].
  unfold AddAdditionalOutputs.
  destruct (kind r3).
  - unfold GoldAddAdditionalOutputs, bind, gets, OP_REQUIRES_OK, ret.
    destruct (can_allocate context _); [discriminate|congruence].
  - unfold DecodedAddAdditionalOutputs, bind, gets, OP_REQUIRES_OK, ret, modify.
    destruct (can_allocate context (additional_output_index r3));
      [|congruence].
    destruct (can_allocate context _); [discriminate|congruence].
Qed.

(** A non-null slot sits at its rank in the compacted list of states. *)
Lemma lookup_compacted (l : list (option ParserState)) (i : nat) st :
  l !! i = Some (Some st) -> omap id l !! rank l i = Some st.
Proof.
  intros Hl.
  assert (omap id l = omap id (take i l) ++ st :: omap id (drop (S i) l)) as ->.
  { rewrite <- (take_drop_middle l i (Some st) Hl) at 1.
    rewrite (omap_app id). reflexivity. }
  unfold rank. rewrite lookup_app_r by lia.
  rewrite Nat.sub_diag. reflexivity.
Qed.

Lemma feature_rows_lookup r g (n i : nat) (row : list string) :
  (i < n)%nat -> slot_row r g i = Some row ->
  feature_rows r g n !! rank (states_ r) i = Some row.
Proof.
  intros Hi Hrow. induction n as [|n IH]; [lia|].
  rewrite feature_rows_S.
  destruct (decide (i = n)) as [->|Hne].
  - rewrite lookup_app_r; rewrite length_feature_rows; [|lia].
    rewrite Nat.sub_diag, Hrow. reflexivity.
  - specialize (IH ltac:(lia)). rewrite lookup_app_l; [exact IH|].
    eapply lookup_lt_Some; exact IH.
Qed.

Lemma advance_upto_later r (i k : nat) :
  reader_inv r -> (i < k)%nat -> (k <= max_batch_size_ r)%nat ->
  state (advance_upto k r) i = state (advance_upto (S i) r) i.
Proof.
  intros Hinv Hi Hk. induction k as [|k IH]; [lia|].
  destruct (decide (i = k)) as [->|Hne]; [reflexivity|].
  rewrite <- IH by lia.
  destruct (advance_upto_spec r k Hinv ltac:(lia)) as (Hinv1 & Hstat1 & _).
  unfold advance_upto at 1. rewrite for_loop_S. fold (advance_upto k r).
  apply advance_final_spec; [exact Hinv1| |exact Hne].
  destruct Hstat1 as (_ & -> & _). lia.
Qed.

Lemma iter_incr_zero (n : nat) : Nat.iter n incr 0 = int32_wrap (Z.of_nat n).
Proof. apply (incr_iter n 0). Qed.

Lemma state_Some_lookup r i st :
  state r i = Some st -> states_ r !! i = Some (Some st).
Proof.
  unfold state. destruct (states_ r !! i) as [o|]; simpl; congruence.
Qed.

Lemma state_Some_lt r i st :
  reader_inv r -> state r i = Some st -> (i < max_batch_size_ r)%nat.
Proof.
  intros (Hlen & _) Hst. rewrite <- Hlen.
  eapply lookup_lt_Some, state_Some_lookup, Hst.
Qed.

Lemma RewindIfEmpty_spec r :
  reader_inv r ->
  let r' := RewindIfEmpty r in
  ((forall i, state r i = None) ->
     num_epochs_ r' = incr (num_epochs_ r) /\
     cursor (sentence_batch_ r') =
       (max_batch_size_ r `min` length (corpus (sentence_batch_ r)))%nat /\
     forall j, (j < max_batch_size_ r)%nat ->
       state r' j = NewParserState <$> corpus (sentence_batch_ r) !! j) /\
  (~ (forall i, state r i = None) -> r' = r).
Proof.
  intros Hinv. cbv zeta. unfold RewindIfEmpty.
  destruct (decide (Batch_size (sentence_batch_ r) = 0%nat)) as [He|He].
  - split; [intros _|intros Hn; exfalso; apply Hn, batch_empty_iff; assumption].
    set (r0 := set_sentence_batch (Batch_Rewind (sentence_batch_ r))
                 (set_num_epochs (incr (num_epochs_ r)) r)).
    assert (reader_inv r0) as Hinv0.
    { destruct Hinv as (? & ? & ? & ?). unfold reader_inv; simpl.
      repeat split; try assumption. lia. }
    destruct (refill_spec r0 (max_batch_size_ r0) Hinv0 eq_refl ltac:(lia))
      as (_ & Hstat & Hcur & Hload & _).
    split; [apply Hstat|]. split; [exact Hcur|exact Hload].
  - split; [|reflexivity].
    intros Hall. exfalso. apply He, batch_empty_iff; assumption.
Qed.

(** A step that returns leaves a reader that satisfies the invariant. *)
Lemma Compute_inv context r out r' :
  reader_inv r -> Compute context r = Value out r' -> reader_inv r'.
Proof.
  intros Hinv Hc. destruct (Compute_Value context r out r' Hc) as [_ ->].
  apply after_outputs_inv, advanced_inv, Hinv.
Qed.

(* ===================================================================== *)
(** ** The claims of the specification *)

(** C1 (as amended). For every GoldPolicy step whose allocations succeed,
    the gold-action output lists, for each slot that is occupied after the
    refill pass of the step (the slots whose features the step emits, in the
    same compacted order), the next gold action of the state the slot now
    holds. It is computed after the finalization checks and refills, and it is
    the action that the action pass of the following step applies to that
    slot. *)
Theorem gold_output_is_next_gold_action context r :
  reader_inv r -> allocations_succeed context -> extractor_well_sized ->
  kind r = GoldParseReader ->
  exists out r',
    Compute context r = Value out r' /\
    r' = advanced context r /\
    additional_outputs out = GoldOutputs (next_gold_actions r') /\
    forall i st, state r' i = Some st ->
      next_gold_actions r' !! rank (states_ r') i =
        Some (GetNextGoldAction st) /\
      forall context',
        state (PerformActions context' r') i =
          Some (PerformAction (GetNextGoldAction st) st).
Proof.
  intros Hinv Halloc Hsized Hkind.
  pose proof (Compute_eq context r Hinv Halloc Hsized) as Hc. cbv zeta in Hc.
  pose proof (advanced_inv context r Hinv) as Hinv3.
  destruct (advanced_kind context r Hinv) as (Hk3 & _).
  rewrite Hkind in Hk3.
  set (r3 := advanced context r) in *.
  assert (after_outputs r3 = r3) as Hafter
    by (unfold after_outputs; rewrite Hk3; reflexivity).
  eexists _, r3. rewrite Hafter in Hc. split; [exact Hc|].
  split; [reflexivity|]. simpl. unfold expected_additional. rewrite Hk3.
  split; [reflexivity|].
  intros i st Hst. pose proof (state_Some_lookup r3 i st Hst) as Hl. split.
  - unfold next_gold_actions. rewrite list_lookup_fmap.
    rewrite (lookup_compacted _ _ _ Hl). reflexivity.
  - intros context'. unfold PerformActions. rewrite Hk3.
    rewrite GoldPerformActions_eq by exact Hinv3.
    unfold state; simpl. rewrite list_lookup_fmap, Hl. reflexivity.
Qed.

(** C3 (as amended). If, in a step whose feature outputs are allocated
    (whether or not the epoch and the additional outputs can be), the
    extractor returns for a non-null slot a feature group whose cardinality
    differs from the [FeatureSize] declared for that group, the [CHECK] of the
    feature loop fails and the step aborts; [Compute] does not return to its
    caller, with or without an error status. *)
Theorem wrong_group_size_aborts context r (i : nat)
    (features : list (list SparseFeatures)) (g : nat)
    (group : list SparseFeatures) :
  feature_allocations_succeed context ->
  (i < max_batch_size_ (advanced context r))%nat ->
  slot_features (advanced context r) i = Some features ->
  features !! g = Some group ->
  length group <> FeatureSize g ->
  Compute context r = Aborted /\
  (forall r', Compute context r <> Failed r') /\
  (forall out r', Compute context r <> Value out r').
Proof.
  intros Halloc Hi Hf Hg Hsize.
  rewrite (Compute_aborts context r i features g group) by assumption.
  repeat split; intros; discriminate.
Qed.


(** The feature outputs of a step, row by row. *)
Lemma step_feature_rows context r :
  reader_inv r -> allocations_succeed context -> extractor_well_sized ->
  exists out r',
    Compute context r = Value out r' /\
    length (feature_outputs out) = NumEmbeddings /\
    forall g T, feature_outputs out !! g = Some T ->
      T = omap (slot_row r' g) (seq 0 (max_batch_size_ r')) /\
      length T = length (omap id (states_ r')) /\
      forall i st, state r' i = Some st ->
        T !! rank (states_ r') i =
        Some (SerializeAsString <$>
                default []
                  (ExtractSparseFeatures
                     (default ResetWorkspace (workspaces_ r' !! i)) st !! g)).
Proof.
  intros Hinv Halloc Hsized.
  pose proof (Compute_eq context r Hinv Halloc Hsized) as Hc. cbv zeta in Hc.
  pose proof (after_outputs_inv _ (advanced_inv context r Hinv)) as Hinv'.
  destruct (after_outputs_fields (advanced context r))
    as (_ & _ & Hmax & _).
  set (r3 := advanced context r) in *. set (r' := after_outputs r3) in *.
  eexists _, r'. split; [exact Hc|]. simpl.
  split; [rewrite length_fmap, length_seq; reflexivity|].
  intros g T HT. rewrite list_lookup_fmap in HT.
  destruct (seq 0 NumEmbeddings !! g) as [g'|] eqn:Hg; [|discriminate].
  apply lookup_seq in Hg. destruct Hg as [-> _]. simpl in HT.
  injection HT as <-.
  rewrite <- Hmax, <- (feature_rows_after_outputs r3). fold r'.
  split; [reflexivity|]. split.
  - rewrite length_feature_rows. destruct Hinv' as (<- & _). apply rank_all.
  - intros i st Hst. apply feature_rows_lookup.
    + eapply state_Some_lt; eassumption.
    + rewrite slot_row_eq. fold (state r' i). rewrite Hst. reflexivity.
Qed.

(** C6. For every step whose allocations succeed and whose extractor is
    well sized, each feature-group output has exactly one row per slot that is
    non-null after the refill pass: its rows are the rows of these slots in
    increasing slot order (empty slots contribute none), there are as many
    rows as non-null states, and the row of slot [i] sits at the rank of [i]
    among the non-null slots. *)
Theorem feature_output_rows context r :
  reader_inv r -> allocations_succeed context -> extractor_well_sized ->
  exists out r',
    Compute context r = Value out r' /\
    length (feature_outputs out) = NumEmbeddings /\
    forall g T, feature_outputs out !! g = Some T ->
      T = omap (slot_row r' g) (seq 0 (max_batch_size_ r')) /\
      length T = length (omap id (states_ r')) /\
      forall i st, state r' i = Some st ->
        T !! rank (states_ r') i =
        Some (SerializeAsString <$>
                default []
                  (ExtractSparseFeatures
                     (default ResetWorkspace (workspaces_ r' !! i)) st !! g)).
Proof. exact (step_feature_rows context r). Qed.

(** A decoded step in one piece: what it emits beside the features, and the
    reader it leaves. *)
Lemma decoded_step context r :
  reader_inv r -> allocations_succeed context -> extractor_well_sized ->
  kind r = DecodedParseReader ->
  let fin := finalized (input0 context) (states_ r) (max_batch_size_ r) in
  exists out r',
    Compute context r = Value out r' /\
    additional_outputs out =
      DecodedOutputs
        [int32_wrap (Z.of_nat
           (sum_list_with (tokens_scored (scoring_type_ r)) fin));
         int32_wrap (Z.of_nat
           (sum_list_with (tokens_correct (scoring_type_ r)) fin))]
        (SerializeSentence <$> (documents_ r ++ (annotated <$> fin))) /\
    documents_ (PerformActions context r) =
      documents_ r ++ (annotated <$> fin) /\
    documents_ r' = [] /\
    reader_inv r' /\ kind r' = DecodedParseReader.
Proof.
  intros Hinv Halloc Hsized Hkind fin.
  pose proof (Compute_eq context r Hinv Halloc Hsized) as Hc. cbv zeta in Hc.
  pose proof (after_outputs_inv _ (advanced_inv context r Hinv)) as Hinv'.
  destruct (advanced_kind context r Hinv) as (Hk3 & _). rewrite Hkind in Hk3.
  pose proof (PerformActions_inv context r Hinv) as Hinv1.
  destruct (DecodedPerformActions_spec context r Hinv)
    as (_ & _ & Hdocs & Hnt & Hnc). cbv zeta in Hdocs, Hnt, Hnc.
  assert (PerformActions context r = DecodedPerformActions context r) as Hp
    by (unfold PerformActions; rewrite Hkind; reflexivity).
  rewrite <- Hp in Hdocs, Hnt, Hnc.
  destruct Hinv as (Hlen & _). rewrite Hlen in Hdocs, Hnt, Hnc.
  fold fin in Hdocs, Hnt, Hnc.
  destruct (AdvanceFinalStates_spec _ Hinv1)
    as (_ & (_ & _ & _ & _ & Hnt2 & Hnc2 & _ & Hd2 & _) & _).
  destruct (RewindIfEmpty_static
              (AdvanceFinalStates (PerformActions context r)))
    as (_ & _ & _ & Hnt3 & Hnc3 & _ & Hd3 & _).
  fold (advanced context r) in Hnt3, Hnc3, Hd3.
  set (r3 := advanced context r) in *.
  eexists _, (after_outputs r3). split; [exact Hc|]. simpl.
  unfold expected_additional, after_outputs. rewrite Hk3.
  split; [|split; [exact Hdocs|split; [reflexivity|split]]].
  - rewrite Hnt3, Hnt2, Hnt, Hnc3, Hnc2, Hnc, Hd3, Hd2, Hdocs.
    rewrite !iter_incr_zero. reflexivity.
  - unfold after_outputs in Hinv'. rewrite Hk3 in Hinv'. exact Hinv'.
  - exact Hk3.
Qed.

Lemma finalized_elem (scores : Matrix) (l : list (option ParserState))
    (n : nat) st' :
  length l = n ->
  st' ∈ finalized scores l n <->
  exists i st,
    l !! i = Some (Some st) /\
    st' = PerformAction (best_action scores (rank l i) st) st /\
    IsFinalState st' = true.
Proof.
  intros Hn. unfold finalized. rewrite list_elem_of_omap. split.
  - intros (i & Hi & Hf). apply elem_of_seq in Hi. unfold decode_at in Hf.
    destruct (lookup_lt_is_Some_2 l i ltac:(lia)) as [o Ho].
    rewrite Ho in Hf. destruct o as [st|]; simpl in Hf; [|discriminate].
    destruct (IsFinalState _) eqn:Hfin; [|discriminate].
    injection Hf as <-. exists i, st. repeat split; assumption.
  - intros (i & st & Hl & -> & Hfin). exists i. split.
    + apply elem_of_seq. apply lookup_lt_Some in Hl. lia.
    + unfold decode_at. rewrite Hl. simpl. rewrite Hfin. reflexivity.
Qed.

(** C7. For every DecodedPolicy step whose allocations succeed, the accuracy
    tuple is (tokens scored, tokens correct) summed over the sentences whose
    state is final after the action of this step, as 32-bit counters; it does
    not depend on the values the counters had when the step began, since the
    action pass resets both to zero before it applies any action. *)
Theorem accuracy_tuple_per_step context r :
  reader_inv r -> allocations_succeed context -> extractor_well_sized ->
  kind r = DecodedParseReader ->
  let fin := finalized (input0 context) (states_ r) (max_batch_size_ r) in
  let scored_total := sum_list_with (tokens_scored (scoring_type_ r)) fin in
  let correct_total := sum_list_with (tokens_correct (scoring_type_ r)) fin in
  exists out r' docs,
    Compute context r = Value out r' /\
    additional_outputs out =
      DecodedOutputs
        [int32_wrap (Z.of_nat scored_total);
         int32_wrap (Z.of_nat correct_total)] docs /\
    forall tokens correct, exists out2 r2,
      Compute context (set_num_correct correct (set_num_tokens tokens r)) =
        Value out2 r2 /\
      additional_outputs out2 = additional_outputs out.
Proof.
  intros Hinv Halloc Hsized Hkind. cbv zeta.
  destruct (decoded_step context r Hinv Halloc Hsized Hkind)
    as (out & r' & Hc & Hout & _).
  exists out, r'. eexists. split; [exact Hc|]. split; [exact Hout|].
  intros tokens correct.
  destruct (decoded_step context
              (set_num_correct correct (set_num_tokens tokens r)))
    as (out2 & r2 & Hc2 & Hout2 & _); try assumption.
  exists out2, r2. split; [exact Hc2|]. rewrite Hout, Hout2. reflexivity.
Qed.

(** C8. For every DecodedPolicy step whose allocations succeed, the action
    pass appends to the pending documents, in slot order, the annotated
    sentence of exactly those slots whose state is final after the action
    applied in this pass; the step emits the serialized buffer and leaves it
    empty, so that the next step emits only the documents of its own action
    pass. *)
Theorem documents_emitted_once context r :
  reader_inv r -> allocations_succeed context -> extractor_well_sized ->
  kind r = DecodedParseReader ->
  let scores := input0 context in
  let fin := finalized scores (states_ r) (max_batch_size_ r) in
  (forall st', st' ∈ fin <->
     exists i st,
       states_ r !! i = Some (Some st) /\
       st' = PerformAction
               (best_action scores (rank (states_ r) i) st) st /\
       IsFinalState st' = true) /\
  documents_ (PerformActions context r) = documents_ r ++ (annotated <$> fin) /\
  exists out r' metrics,
    Compute context r = Value out r' /\
    additional_outputs out =
      DecodedOutputs metrics
        (SerializeSentence <$> (documents_ r ++ (annotated <$> fin))) /\
    documents_ r' = [] /\
    forall context2, allocations_succeed context2 ->
      exists out2 r2 metrics2,
        Compute context2 r' = Value out2 r2 /\
        additional_outputs out2 =
          DecodedOutputs metrics2
            (SerializeSentence <$>
               (annotated <$>
                  finalized (input0 context2) (states_ r')
                    (max_batch_size_ r'))).
Proof.
  intros Hinv Halloc Hsized Hkind. cbv zeta.
  split; [intros st'; apply finalized_elem, Hinv|].
  destruct (decoded_step context r Hinv Halloc Hsized Hkind)
    as (out & r' & Hc & Hout & Hdocs & Hempty & Hinv' & Hkind').
  split; [exact Hdocs|].
  exists out, r'. eexists. split; [exact Hc|]. split; [exact Hout|].
  split; [exact Hempty|].
  intros context2 Halloc2.
  destruct (decoded_step context2 r' Hinv' Halloc2 Hsized Hkind')
    as (out2 & r2 & Hc2 & Hout2 & _).
  exists out2, r2. eexists. split; [exact Hc2|].
  rewrite Hout2, Hempty. reflexivity.
Qed.

(** C9. For every step and every slot: when the advance pass reaches the
    slot and its state, as the action pass left it, is final, the driver
    advances the slot through the corpus, skipping [k] sentences whose initial
    state is already final, until it has loaded a sentence whose initial state
    is not final or the corpus is exhausted and the slot is left empty; a slot
    that is empty or not final is left alone. Later turns of the pass do not
    touch the slot, so after the pass it is empty or not final. The step
    itself runs this pass: when its allocations succeed and the extractor is
    well sized, [Compute] returns, and whenever it returns, with outputs or
    early on a failed allocation, the slot of the reader it leaves is the slot
    as its turn of the pass left it, and the batch is the batch after the
    pass, unless the pass left every slot empty; then the rewind part has
    refilled the slot from the start of the corpus. *)
Theorem advance_pass_per_slot context r0 (i : nat) :
  reader_inv r0 -> (i < max_batch_size_ r0)%nat ->
  let r := PerformActions context r0 in
  let before := advance_upto i r in
  let after := advance_upto (S i) r in
  let b := sentence_batch_ before in
  after = advance_final i before /\
  state before i = state r i /\
  match state r i with
  | Some st =>
      if IsFinalState st then
        exists k : nat,
          (forall j s, (j < k)%nat ->
             corpus b !! (cursor b + j)%nat = Some s ->
             IsFinalState (NewParserState s) = true) /\
          (cursor b + k <= length (corpus b))%nat /\
          ((exists s, corpus b !! (cursor b + k)%nat = Some s /\
              IsFinalState (NewParserState s) = false /\
              state after i = Some (NewParserState s) /\
              cursor (sentence_batch_ after) = S (cursor b + k)) \/
           ((cursor b + k)%nat = length (corpus b) /\
              state after i = None /\
              cursor (sentence_batch_ after) = length (corpus b)))
      else after = before
  | None => after = before
  end /\
  state (AdvanceFinalStates r) i = state after i /\
  match state (AdvanceFinalStates r) i with
  | Some st => IsFinalState st = false
  | None => True
  end /\
  (allocations_succeed context -> extractor_well_sized ->
     exists out r', Compute context r0 = Value out r') /\
  (forall r',
     (exists out, Compute context r0 = Value out r') \/
     Compute context r0 = Failed r' ->
     (~ (forall j, state (AdvanceFinalStates r) j = None) ->
        state r' i = state after i /\
        states_ r' = states_ (AdvanceFinalStates r) /\
        sentence_batch_ r' = sentence_batch_ (AdvanceFinalStates r)) /\
     ((forall j, state (AdvanceFinalStates r) j = None) ->
        state r' i = NewParserState <$> corpus (sentence_batch_ r0) !! i)).
Proof.
  intros Hinv0 Hi0. cbv zeta.
  pose proof (PerformActions_inv context r0 Hinv0) as Hinv.
  destruct (PerformActions_same_batch context r0 Hinv0)
    as (_ & Hmax & _ & _ & Hb0 & _).
  set (r := PerformActions context r0) in *.
  assert (i < max_batch_size_ r)%nat as Hi by lia.
  destruct (advance_upto_spec r i Hinv ltac:(lia))
    as (Hinv1 & Hstat1 & _ & Hrest).
  assert (i < max_batch_size_ (advance_upto i r))%nat as Hi1.
  { destruct Hstat1 as (_ & -> & _). exact Hi. }
  assert (advance_upto (S i) r = advance_final i (advance_upto i r)) as Hstep
    by (unfold advance_upto; apply for_loop_S).
  split; [exact Hstep|]. split; [apply Hrest; lia|].
  destruct (advance_final_spec i (advance_upto i r) Hinv1 Hi1) as (Hturn & _).
  rewrite (Hrest i ltac:(lia)) in Hturn. rewrite Hstep.
  split; [exact Hturn|].
  assert (state (AdvanceFinalStates r) i =
          state (advance_final i (advance_upto i r)) i) as Hlater.
  { rewrite <- Hstep. apply (advance_upto_later r i (max_batch_size_ r));
      [exact Hinv|exact Hi|lia]. }
  split; [exact Hlater|].
  split; [rewrite Hlater; apply advance_final_settled; assumption|].
  split.
  { intros Halloc Hsized.
    pose proof (Compute_eq context r0 Hinv0 Halloc Hsized) as Hv.
    cbv zeta in Hv. eexists _, _. exact Hv. }
  intros r' Hreturns.
  destruct (AdvanceFinalStates_spec r Hinv) as (Hinv2 & Hstat2 & _).
  set (r2 := AdvanceFinalStates r) in *.
  destruct Hstat2 as (_ & Hmax2 & _ & _ & _ & _ & _ & _ & Hc2).
  destruct (RewindIfEmpty_spec r2 Hinv2) as [Hempty Hsome].
  assert (states_ r' = states_ (RewindIfEmpty r2) /\
          sentence_batch_ r' = sentence_batch_ (RewindIfEmpty r2))
    as [Hstates Hbatch].
  { destruct Hreturns as [[out Hv]|Hf].
    - destruct (Compute_Value context r0 out r' Hv) as [_ ->].
      destruct (after_outputs_fields (advanced context r0))
        as (Hs & _ & _ & _ & _ & Hb).
      split; [exact Hs|exact Hb].
    - rewrite (Compute_Failed context r0 r' Hf). split; reflexivity. }
  assert (forall j, state r' j = state (RewindIfEmpty r2) j) as Hslot
    by (intros j; unfold state; rewrite Hstates; reflexivity).
  split.
  - intros Hn. rewrite (Hsome Hn) in Hstates, Hbatch, Hslot.
    split; [rewrite Hslot; exact Hlater|]. split; assumption.
  - intros Hall. destruct (Hempty Hall) as (_ & _ & Hload).
    rewrite Hslot, (Hload i) by lia.
    rewrite Hc2, Hb0. reflexivity.
Qed.

Lemma DecodedPerformActions_state context r i st :
  reader_inv r -> state r i = Some st ->
  state (DecodedPerformActions context r) i =
  Some (PerformAction
          (best_action (input0 context) (rank (states_ r) i) st) st).
Proof.
  intros Hinv Hst. pose proof (state_Some_lookup r i st Hst) as Hl.
  destruct (DecodedPerformActions_spec context r Hinv) as (_ & Hs & _).
  cbv zeta in Hs. unfold state. rewrite Hs, list_lookup_fmap.
  rewrite lookup_seq_lt by (eapply lookup_lt_Some; exact Hl). simpl.
  unfold decode_at. rewrite Hl. reflexivity.
Qed.

(** C10. For every DecodedPolicy step that follows a step whose allocations
    succeeded: a slot that the previous step left non-null has its features in
    the row of every feature output of that step whose index is the rank of
    the slot among the non-null slots, and the action pass applies to it the
    best action of the row of the score matrix with the same index. *)
Theorem score_row_is_previous_feature_row context1 r :
  reader_inv r -> allocations_succeed context1 -> extractor_well_sized ->
  kind r = DecodedParseReader ->
  exists out1 r1,
    Compute context1 r = Value out1 r1 /\
    forall i st, state r1 i = Some st ->
      let k := rank (states_ r1) i in
      (forall g T, feature_outputs out1 !! g = Some T ->
         T !! k =
         Some (SerializeAsString <$>
                 default []
                   (ExtractSparseFeatures
                      (default ResetWorkspace (workspaces_ r1 !! i)) st
                    !! g))) /\
      (forall context2,
         state (PerformActions context2 r1) i =
         Some (PerformAction (best_action (input0 context2) k st) st)).
Proof.
  intros Hinv Halloc Hsized Hkind.
  destruct (step_feature_rows context1 r Hinv Halloc Hsized)
    as (out1 & r1 & Hc & _ & Hrows).
  destruct (decoded_step context1 r Hinv Halloc Hsized Hkind)
    as (out' & r1' & Hc' & _ & _ & _ & Hinv1 & Hkind1).
  rewrite Hc in Hc'. injection Hc' as <- <-.
  exists out1, r1. split; [exact Hc|].
  intros i st Hst. cbv zeta. split.
  - intros g T HT. destruct (Hrows g T HT) as (_ & _ & Hrow).
    apply Hrow, Hst.
  - intros context2. unfold PerformActions. rewrite Hkind1.
    apply DecodedPerformActions_state; assumption.
Qed.

End ReaderProperties.

(* ===================================================================== *)
(** ** The claims on concrete runs *)

Import ArcStandard.

Lemma arc_standard_well_sized :
  extractor_well_sized (features_ := ArcStandard.extractor).
Proof.
  intros ws st. split; [reflexivity|].
  intros [|[|g]] group H; simpl in H; try discriminate;
    injection H as <-; reflexivity.
Qed.

Lemma context_of_allocates (scores : Matrix) :
  allocations_succeed (context_of scores).
Proof. intros i. reflexivity. Qed.

Lemma run_steps_inv {WS SF : Type} {FE : FeatureExtractor State WS SF}
    (contexts : list OpKernelContext) :
  forall r r' : ParsingReader State WS,
    reader_inv r -> run_steps contexts r = Some r' -> reader_inv r'.
Proof.
  induction contexts as [|c contexts IH]; intros r r' Hinv Hrun; simpl in Hrun.
  - injection Hrun as <-. exact Hinv.
  - destruct (Compute c r) as [out r1| |] eqn:Hc; try discriminate.
    apply (IH r1 r'); [|exact Hrun]. eapply Compute_inv; eassumption.
Qed.

Lemma after_steps_inv {WS SF : Type} {FE : FeatureExtractor State WS SF}
    (contexts : list OpKernelContext) (r : ParsingReader State WS) :
  reader_inv r -> reader_inv (after_steps contexts r).
Proof.
  intros Hinv. unfold after_steps.
  destruct (run_steps contexts r) as [r'|] eqn:Hrun; [|exact Hinv].
  eapply run_steps_inv; eassumption.
Qed.

(** C1, counterexample. The third step of the gold reader applies SHIFT to
    slot 0 and RIGHT_ARC to slot 1 (the actions [0; 2]), but its gold-action
    output is [2; 0]: the next gold actions of the states that the slots hold
    after the step, slot 1 having been refilled. *)
Lemma gold_output_is_not_action_taken :
  run_steps [gold_context; gold_context] gold_reader = Some gold_reader_2 /\
  next_gold_actions gold_reader_2 = [0; 2] /\
  state (PerformActions gold_context gold_reader_2) 0 =
    PerformAction 0 <$> state gold_reader_2 0 /\
  state (PerformActions gold_context gold_reader_2) 1 =
    PerformAction 2 <$> state gold_reader_2 1 /\
  exists out r',
    Compute gold_context gold_reader_2 = Value out r' /\
    additional_outputs out = GoldOutputs [2; 0] /\
    additional_outputs out <> GoldOutputs (next_gold_actions gold_reader_2).
Proof.
  split; [vm_compute; reflexivity|].
  split; [vm_compute; reflexivity|].
  split; [vm_compute; reflexivity|].
  split; [vm_compute; reflexivity|].
  eexists _, _.
  split; [vm_compute; reflexivity|].
  split; [vm_compute; reflexivity|].
  vm_compute. discriminate.
Qed.

(** C1 at a concrete input: the gold reader after two steps. *)
Lemma gold_output_is_next_gold_action_witness :
  reader_inv gold_reader_2 /\
  allocations_succeed gold_context /\
  extractor_well_sized (features_ := ArcStandard.extractor) /\
  kind gold_reader_2 = GoldParseReader /\
  exists out r',
    Compute gold_context gold_reader_2 = Value out r' /\
    r' = advanced gold_context gold_reader_2 /\
    additional_outputs out = GoldOutputs (next_gold_actions r') /\
    forall i st, state r' i = Some st ->
      next_gold_actions r' !! rank (states_ r') i =
        Some (GetNextGoldAction st) /\
      forall context',
        state (PerformActions context' r') i =
          Some (PerformAction (GetNextGoldAction st) st).
Proof.
  split; [apply after_steps_inv, new_reader_inv|].
  split; [apply context_of_allocates|].
  split; [exact arc_standard_well_sized|].
  split; [reflexivity|].
  apply (gold_output_is_next_gold_action gold_context gold_reader_2).
  - apply after_steps_inv, new_reader_inv.
  - apply context_of_allocates.
  - exact arc_standard_well_sized.
  - reflexivity.
Defined.

(** C2. A decoded step on a state at the end of its input, where SHIFT
    (action 0) is not allowed and RIGHT_ARC (action 2) is, with a score row
    that has no score above [-INFINITY]: no column passes the test
    [score > best_score], [best_action] keeps its initial value 0, and
    [PerformAction] is called with the disallowed SHIFT. *)
Theorem decoded_applies_disallowed_action :
  let st := mkState sentence_c [0; -1] 1 [-1] in
  run_steps [gold_context; scores_context [shift_row]]
    (one_slot_reader [sentence_c]) = Some shifted_reader /\
  state shifted_reader 0 = Some st /\
  IsAllowedAction 0 st = false /\
  IsAllowedAction 2 st = true /\
  best_action (input0 all_neg_infinity) 0 st = 0 /\
  state (PerformActions all_neg_infinity shifted_reader) 0 =
    Some (PerformAction 0 st).
Proof.
  cbv zeta.
  split; [vm_compute; reflexivity|].
  split; [vm_compute; reflexivity|].
  split; [vm_compute; reflexivity|].
  split; [vm_compute; reflexivity|].
  split; vm_compute; reflexivity.
Qed.

(** C4. A decoded step on a state at the end of its input with three stack
    entries, where LEFT_ARC (1) and RIGHT_ARC (2) are allowed and SHIFT (0) is
    not, with the score row [1; -inf; -inf]: the allowed actions are tied at
    their maximum, and the selected action is neither the lower-indexed of
    them nor an allowed action at all, but the initial value 0 of
    [best_action]. *)
Theorem tie_at_neg_infinity_selects_shift :
  let st := mkState sentence_ab [2; 0; -1] 3 [-1; 0; -1] in
  let scores := input0 tied_at_neg_infinity in
  run_steps
    [gold_context; scores_context [shift_row]; scores_context [shift_row];
     scores_context [right_row]; scores_context [shift_row]]
    (one_slot_reader [sentence_ab]) = Some stacked_reader /\
  state stacked_reader 0 = Some st /\
  IsAllowedAction 0 st = false /\
  IsAllowedAction 1 st = true /\
  IsAllowedAction 2 st = true /\
  coeff scores 0 1 = neg_infinity /\
  coeff scores 0 2 = neg_infinity /\
  best_action scores 0 st = 0 /\
  best_action scores 0 st <> 1 /\
  state (PerformActions tied_at_neg_infinity stacked_reader) 0 =
    Some (PerformAction 0 st).
Proof.
  cbv zeta.
  split; [vm_compute; reflexivity|].
  split; [vm_compute; reflexivity|].
  split; [vm_compute; reflexivity|].
  split; [vm_compute; reflexivity|].
  split; [vm_compute; reflexivity|].
  split; [vm_compute; reflexivity|].
  split; [vm_compute; reflexivity|].
  split; [vm_compute; reflexivity|].
  split; [vm_compute; discriminate|].
  vm_compute; reflexivity.
Qed.

(** C3, counterexample. With an extractor whose first group has one feature
    where two are declared, the first step of a reader aborts: it returns
    neither an error status nor outputs. *)
Lemma wrong_group_size_is_not_an_error :
  (exists features group,
     slot_features (features_ := short_extractor)
       (advanced (features_ := short_extractor) gold_context short_reader) 0
       = Some features /\
     features !! 0%nat = Some group /\
     length group <> FeatureSize (FeatureExtractor := short_extractor) 0) /\
  Compute (features_ := short_extractor) gold_context short_reader = Aborted /\
  ~ (exists r',
       Compute (features_ := short_extractor) gold_context short_reader =
       Failed r').
Proof.
  split; [eexists _, _; split; [vm_compute; reflexivity|];
          split; [reflexivity|vm_compute; lia]|].
  split; [vm_compute; reflexivity|].
  intros [r' H]. vm_compute in H. discriminate.
Qed.

(** C3 at a concrete input: the first step of a reader with the short
    extractor, in a context that can allocate the feature outputs and no
    other output. *)
Lemma wrong_group_size_aborts_witness :
  feature_allocations_succeed (features_ := short_extractor)
    features_only_context /\
  can_allocate features_only_context 2 = false /\
  (0 < max_batch_size_
         (advanced (features_ := short_extractor) features_only_context
            short_reader))%nat /\
  slot_features (features_ := short_extractor)
    (advanced (features_ := short_extractor) features_only_context
       short_reader) 0
    = Some [["<ROOT>"%string]; ["c"%string]] /\
  [["<ROOT>"%string]; ["c"%string]] !! 0%nat = Some ["<ROOT>"%string] /\
  length ["<ROOT>"%string] <> FeatureSize (FeatureExtractor := short_extractor) 0 /\
  Compute (features_ := short_extractor) features_only_context short_reader =
    Aborted /\
  (forall r',
     Compute (features_ := short_extractor) features_only_context short_reader
     <> Failed r') /\
  (forall out r',
     Compute (features_ := short_extractor) features_only_context short_reader
     <> Value out r').
Proof.
  split; [intros g Hg; apply bool_decide_eq_true_2; exact Hg|].
  split; [reflexivity|].
  split; [vm_compute; lia|].
  split; [vm_compute; reflexivity|].
  split; [reflexivity|].
  split; [vm_compute; lia|].
  apply (wrong_group_size_aborts (features_ := short_extractor)
           features_only_context short_reader 0
           [["<ROOT>"%string]; ["c"%string]] 0 ["<ROOT>"%string]).
  - intros g Hg. apply bool_decide_eq_true_2. exact Hg.
  - vm_compute; lia.
  - vm_compute; reflexivity.
  - reflexivity.
  - vm_compute; lia.
Defined.


(** C6 at a concrete input: the fifth step of the gold reader. *)
Lemma feature_output_rows_witness :
  reader_inv gold_reader_4 /\
  allocations_succeed gold_context /\
  extractor_well_sized (features_ := ArcStandard.extractor) /\
  exists out r',
    Compute gold_context gold_reader_4 = Value out r' /\
    length (feature_outputs out) = NumEmbeddings /\
    forall g T, feature_outputs out !! g = Some T ->
      T = omap (slot_row r' g) (seq 0 (max_batch_size_ r')) /\
      length T = length (omap id (states_ r')) /\
      forall i st, state r' i = Some st ->
        T !! rank (states_ r') i =
        Some (SerializeAsString <$>
                default []
                  (ExtractSparseFeatures
                     (default ResetWorkspace (workspaces_ r' !! i)) st !! g)).
Proof.
  split; [apply after_steps_inv, new_reader_inv|].
  split; [apply context_of_allocates|].
  split; [exact arc_standard_well_sized|].
  apply (feature_output_rows gold_context gold_reader_4).
  - apply after_steps_inv, new_reader_inv.
  - apply context_of_allocates.
  - exact arc_standard_well_sized.
Defined.

(** C7 at a concrete input: the fifth step of the decoded reader. *)
Lemma accuracy_tuple_per_step_witness :
  reader_inv decoded_reader_4 /\
  allocations_succeed finishing_context /\
  extractor_well_sized (features_ := ArcStandard.extractor) /\
  kind decoded_reader_4 = DecodedParseReader /\
  exists out r' docs,
    Compute finishing_context decoded_reader_4 = Value out r' /\
    additional_outputs out =
      DecodedOutputs
        [int32_wrap (Z.of_nat
           (sum_list_with (tokens_scored (scoring_type_ decoded_reader_4))
              (finalized (input0 finishing_context) (states_ decoded_reader_4)
                 (max_batch_size_ decoded_reader_4))));
         int32_wrap (Z.of_nat
           (sum_list_with (tokens_correct (scoring_type_ decoded_reader_4))
              (finalized (input0 finishing_context) (states_ decoded_reader_4)
                 (max_batch_size_ decoded_reader_4))))] docs /\
    forall tokens correct, exists out2 r2,
      Compute finishing_context
        (set_num_correct correct (set_num_tokens tokens decoded_reader_4)) =
        Value out2 r2 /\
      additional_outputs out2 = additional_outputs out.
Proof.
  split; [apply after_steps_inv, new_reader_inv|].
  split; [apply context_of_allocates|].
  split; [exact arc_standard_well_sized|].
  split; [reflexivity|].
  apply (accuracy_tuple_per_step finishing_context decoded_reader_4).
  - apply after_steps_inv, new_reader_inv.
  - apply context_of_allocates.
  - exact arc_standard_well_sized.
  - reflexivity.
Defined.

(** C8 at a concrete input: the fifth step of the decoded reader. *)
Lemma documents_emitted_once_witness :
  reader_inv decoded_reader_4 /\
  allocations_succeed finishing_context /\
  extractor_well_sized (features_ := ArcStandard.extractor) /\
  kind decoded_reader_4 = DecodedParseReader /\
  (forall st',
     st' ∈ finalized (input0 finishing_context) (states_ decoded_reader_4)
             (max_batch_size_ decoded_reader_4) <->
     exists i st,
       states_ decoded_reader_4 !! i = Some (Some st) /\
       st' = PerformAction
               (best_action (input0 finishing_context)
                  (rank (states_ decoded_reader_4) i) st) st /\
       IsFinalState st' = true) /\
  documents_ (PerformActions finishing_context decoded_reader_4) =
    documents_ decoded_reader_4 ++
    (annotated <$>
       finalized (input0 finishing_context) (states_ decoded_reader_4)
         (max_batch_size_ decoded_reader_4)) /\
  exists out r' metrics,
    Compute finishing_context decoded_reader_4 = Value out r' /\
    additional_outputs out =
      DecodedOutputs metrics
        (SerializeSentence <$>
           (documents_ decoded_reader_4 ++
            (annotated <$>
               finalized (input0 finishing_context) (states_ decoded_reader_4)
                 (max_batch_size_ decoded_reader_4)))) /\
    documents_ r' = [] /\
    forall context2, allocations_succeed context2 ->
      exists out2 r2 metrics2,
        Compute context2 r' = Value out2 r2 /\
        additional_outputs out2 =
          DecodedOutputs metrics2
            (SerializeSentence <$>
               (annotated <$>
                  finalized (input0 context2) (states_ r')
                    (max_batch_size_ r'))).
Proof.
  split; [apply after_steps_inv, new_reader_inv|].
  split; [apply context_of_allocates|].
  split; [exact arc_standard_well_sized|].
  split; [reflexivity|].
  apply (documents_emitted_once finishing_context decoded_reader_4).
  - apply after_steps_inv, new_reader_inv.
  - apply context_of_allocates.
  - exact arc_standard_well_sized.
  - reflexivity.
Defined.

(** C9 at a concrete input: the third step of the gold reader with one slot
    over "c", an empty sentence and "d". The action of the step finishes "c";
    the advance pass skips the empty sentence, whose initial state is final,
    and loads "d", and this is the slot of the reader that the step leaves. *)
Lemma advance_pass_per_slot_witness :
  reader_inv skipping_reader_2 /\
  (0 < max_batch_size_ skipping_reader_2)%nat /\
  (fmap (M:=option) IsFinalState
     (state (PerformActions gold_context skipping_reader_2) 0) = Some true) /\
  exists out r',
    Compute gold_context skipping_reader_2 = Value out r' /\
    state r' 0 =
      state (advance_upto 1 (PerformActions gold_context skipping_reader_2)) 0 /\
    state r' 0 = Some (NewParserState sentence_d) /\
    cursor (sentence_batch_ r') = 3%nat.
Proof.
  assert (reader_inv skipping_reader_2) as Hinv
    by apply after_steps_inv, new_reader_inv.
  assert (0 < max_batch_size_ skipping_reader_2)%nat as Hlt
    by (vm_compute; lia).
  split; [exact Hinv|]. split; [exact Hlt|].
  split; [vm_compute; reflexivity|].
  destruct (advance_pass_per_slot gold_context skipping_reader_2 0 Hinv Hlt)
    as (_ & _ & _ & _ & _ & Hreturns & Hleft).
  destruct (Hreturns (context_of_allocates _) arc_standard_well_sized)
    as (out & r' & Hc).
  exists out, r'. split; [exact Hc|].
  destruct (Hleft r' (or_introl (ex_intro _ out Hc))) as [Hsome _].
  destruct Hsome as (Hslot & _ & Hbatch).
  { intros Hall. specialize (Hall 0%nat). vm_compute in Hall. discriminate. }
  split; [exact Hslot|].
  split; [rewrite Hslot; vm_compute; reflexivity|].
  rewrite Hbatch. vm_compute. reflexivity.
Defined.

(** C10 at a concrete input: the fifth step of the decoded reader. *)
Lemma score_row_is_previous_feature_row_witness :
  reader_inv decoded_reader_4 /\
  allocations_succeed finishing_context /\
  extractor_well_sized (features_ := ArcStandard.extractor) /\
  kind decoded_reader_4 = DecodedParseReader /\
  exists out1 r1,
    Compute finishing_context decoded_reader_4 = Value out1 r1 /\
    forall i st, state r1 i = Some st ->
      let k := rank (states_ r1) i in
      (forall g T, feature_outputs out1 !! g = Some T ->
         T !! k =
         Some (SerializeAsString <$>
                 default []
                   (ExtractSparseFeatures
                      (default ResetWorkspace (workspaces_ r1 !! i)) st
                    !! g))) /\
      (forall context2,
         state (PerformActions context2 r1) i =
         Some (PerformAction (best_action (input0 context2) k st) st)).
Proof.
  split; [apply after_steps_inv, new_reader_inv|].
  split; [apply context_of_allocates|].
  split; [exact arc_standard_well_sized|].
  split; [reflexivity|].
  apply (score_row_is_previous_feature_row finishing_context decoded_reader_4).
  - apply after_steps_inv, new_reader_inv.
  - apply context_of_allocates.
  - exact arc_standard_well_sized.
  - reflexivity.
Defined.

(* --------------------------------------------------------------------- *)
(** ** The runs behind the witnesses *)

(** The third step of [skipping_reader] finishes "c", skips the empty
    sentence and loads "d". *)
Example skipping_reader_third_step :
  fmap (M:=option) stack
    <$> states_ (PerformActions gold_context skipping_reader_2)
    = [Some [-1]] /\
  cursor (sentence_batch_ skipping_reader_2) = 1%nat /\
  fmap (M:=option) st_sentence
    <$> states_
          (AdvanceFinalStates (PerformActions gold_context skipping_reader_2))
    = [Some sentence_d] /\
  cursor (sentence_batch_
            (AdvanceFinalStates (PerformActions gold_context skipping_reader_2)))
    = 3%nat.
Proof.
  split; [vm_compute; reflexivity|].
  split; [vm_compute; reflexivity|].
  split; vm_compute; reflexivity.
Qed.

(** The fifth step of [decoded_reader] finishes "d" in slot 1: one token
    scored, one correct, one document; the corpus is exhausted, so the slot
    stays empty and the feature outputs have the single row of slot 0. *)
Example decoded_reader_fifth_step :
  exists r',
    Compute finishing_context decoded_reader_4 =
    Value (mkOutputs [[["."; "a"]]; [["<NONE>"]]]%string 1
             (DecodedOutputs [1; 1] ["d<"%string])) r' /\
    states_ r' !! 1%nat = Some None /\
    documents_ r' = [].
Proof.
  eexists. split; [vm_compute; reflexivity|].
  split; vm_compute; reflexivity.
Qed.

(* ===================================================================== *)
(** * Further properties of the readers *)

Section MoreReaderProperties.

Context {ParserState WorkspaceSet SparseFeatures : Type}.
Context {transition_system_ : ParserTransitionSystem ParserState}.
Context {features_ : FeatureExtractor ParserState WorkspaceSet SparseFeatures}.
Context {document_ops : DocumentOps}.

Implicit Types (r : ParsingReader ParserState WorkspaceSet).
Implicit Types (st : ParserState) (context : OpKernelContext).
Implicit Types (l : list (option ParserState)).

(** The pending documents after the state-changing parts of a decoded
    step. *)
Lemma advanced_documents context r :
  reader_inv r -> kind r = DecodedParseReader ->
  documents_ (advanced context r) =
  documents_ r ++
  (annotated <$>
     finalized (input0 context) (states_ r) (max_batch_size_ r)).
Proof.
  intros Hinv Hkind.
  pose proof (PerformActions_inv context r Hinv) as Hinv1.
  destruct (DecodedPerformActions_spec context r Hinv) as (_ & _ & Hdocs & _).
  cbv zeta in Hdocs.
  assert (PerformActions context r = DecodedPerformActions context r) as Hp
    by (unfold PerformActions; rewrite Hkind; reflexivity).
  rewrite <- Hp in Hdocs.
  destruct (AdvanceFinalStates_spec _ Hinv1)
    as (_ & (_ & _ & _ & _ & _ & _ & _ & Hd2 & _) & _).
  destruct (RewindIfEmpty_static
              (AdvanceFinalStates (PerformActions context r)))
    as (_ & _ & _ & _ & _ & _ & Hd3 & _).
  unfold advanced. rewrite Hd3, Hd2, Hdocs.
  destruct Hinv as (-> & _). reflexivity.
Qed.

(** X1. Every step that returns to its caller, with outputs or with an error
    status, leaves a reader that satisfies the invariant of the constructor:
    both vectors have [max_batch_size_] entries, a slot has a state exactly
    when the batch has a sentence in it, so that [sentence_batch_->size()] is
    the number of non-null states, and the cursor is within the corpus. *)
Theorem step_keeps_invariant context r :
  reader_inv r ->
  forall r',
    ((exists out, Compute context r = Value out r') \/
     Compute context r = Failed r') ->
    reader_inv r' /\
    max_batch_size_ r' = max_batch_size_ r /\
    length (states_ r') = max_batch_size_ r /\
    Batch_size (sentence_batch_ r') = length (omap id (states_ r')).
Proof.
  intros Hinv r' Hc.
  pose proof (advanced_inv context r Hinv) as Hinv3.
  destruct (advanced_kind context r Hinv) as (_ & Hmax & _).
  assert (reader_inv r' /\ max_batch_size_ r' = max_batch_size_ r) as [Hinv' Hmax'].
  { destruct Hc as [[out Hc]|Hc].
    - destruct (Compute_Value context r out r' Hc) as [_ ->].
      split; [apply after_outputs_inv, Hinv3|].
      destruct (after_outputs_fields (advanced context r)) as (_ & _ & -> & _).
      exact Hmax.
    - rewrite (Compute_Failed context r r' Hc). split; assumption. }
  split; [exact Hinv'|]. split; [exact Hmax'|].
  split; [destruct Hinv' as (-> & _); exact Hmax'|].
  apply batch_size_states, Hinv'.
Qed.

(** X2. When an allocation of a decoded step fails, the step returns early
    with the state changes of its action, advance and rewind parts in place,
    and the pending documents are not cleared: the buffer holds the documents
    it held before the step followed by those of the sentences finalized in
    the step, so they reach the output of the next step that succeeds. *)
Theorem failed_step_keeps_documents context r r' :
  reader_inv r -> kind r = DecodedParseReader ->
  Compute context r = Failed r' ->
  r' = advanced context r /\
  documents_ r' =
    documents_ r ++
    (annotated <$>
       finalized (input0 context) (states_ r) (max_batch_size_ r)) /\
  forall context2,
    allocations_succeed context2 -> extractor_well_sized ->
    exists out2 r2 metrics,
      Compute context2 r' = Value out2 r2 /\
      additional_outputs out2 =
        DecodedOutputs metrics
          (SerializeSentence <$>
             (documents_ r' ++
              (annotated <$>
                 finalized (input0 context2) (states_ r')
                   (max_batch_size_ r')))).
Proof.
  intros Hinv Hkind Hc.
  pose proof (Compute_Failed context r r' Hc) as ->.
  split; [reflexivity|]. split; [apply advanced_documents; assumption|].
  intros context2 Halloc2 Hsized.
  pose proof (advanced_inv context r Hinv) as Hinv3.
  destruct (advanced_kind context r Hinv) as (Hk3 & _). rewrite Hkind in Hk3.
  destruct (decoded_step context2 (advanced context r) Hinv3 Halloc2 Hsized Hk3)
    as (out2 & r2 & Hc2 & Hout2 & _).
  exists out2, r2. eexists. split; [exact Hc2|exact Hout2].
Qed.

(** X3. The selection of the best action, in full. Either no allowed action
    of the row scores above [-INFINITY] (none is allowed, the row has no
    column, or the scores of the allowed ones are [-INFINITY] or NaN) and
    [best_action] is its initial value 0; or it is a column of the row that is
    allowed, whose score is above [-INFINITY] and not a NaN, that no allowed
    action outscores, and that is the first with this score among the allowed
    ones. *)
Theorem best_action_cases (scores : Matrix) (row : nat) st :
  (best_action scores row st = 0 /\
   forall j, (j < dimension1 scores)%nat ->
     IsAllowedAction (Z.of_nat j) st = true ->
     float_gt (coeff scores row j) neg_infinity = false) \/
  (exists a,
     best_action scores row st = Z.of_nat a /\
     (a < dimension1 scores)%nat /\
     IsAllowedAction (Z.of_nat a) st = true /\
     float_gt (coeff scores row a) neg_infinity = true /\
     is_nan (coeff scores row a) = false /\
     (forall j, (j < dimension1 scores)%nat ->
        IsAllowedAction (Z.of_nat j) st = true ->
        float_gt (coeff scores row j) (coeff scores row a) = false) /\
     (forall j, (j < a)%nat -> IsAllowedAction (Z.of_nat j) st = true ->
        float_ge (coeff scores row j) (coeff scores row a) = false)).
Proof.
  destruct (best_action_loop_inv scores row st) as (Hnan & Hmax & Hsel).
  unfold best_action.
  destruct Hsel as [[Ha Hb]|(a & Ha & Hlt & Hal & Hb & Hgt & Hfirst)].
  - left. split; [exact Ha|]. rewrite Hb in Hmax. exact Hmax.
  - right. exists a. rewrite <- Hb. repeat split; assumption.
Qed.

Lemma filter_length_le {A : Type} (f g : A -> bool) (xs : list A) :
  (length (List.filter (fun x => f x && g x) xs) <=
   length (List.filter f xs) <= length xs)%nat.
Proof.
  induction xs as [|x xs IH]; simpl; [lia|].
  destruct (f x), (g x); simpl; lia.
Qed.

Lemma tokens_correct_le_scored (scoring : string) st :
  (tokens_correct scoring st <= tokens_scored scoring st
   <= token_size (sentence st))%nat.
Proof.
  unfold tokens_correct, tokens_scored.
  pose proof (filter_length_le (scored scoring st) (IsTokenCorrect st)
                (seq 0 (token_size (sentence st)))) as H.
  rewrite length_seq in H. exact H.
Qed.

Lemma sum_list_with_le {A : Type} (f g : A -> nat) (xs : list A) :
  (forall x, (f x <= g x)%nat) ->
  (sum_list_with f xs <= sum_list_with g xs)%nat.
Proof.
  intros Hfg. induction xs as [|x xs IH]; simpl; [lia|].
  specialize (Hfg x). lia.
Qed.

(** X4. The accuracy tuple of a decoded step is well ordered: as long as the
    number of tokens scored in the step fits the 32-bit counter, the emitted
    pair (scored, correct) satisfies 0 <= correct <= scored, and scored is at
    most the number of tokens of the sentences finalized in the step. *)
Theorem accuracy_tuple_ordered context r :
  reader_inv r -> allocations_succeed context -> extractor_well_sized ->
  kind r = DecodedParseReader ->
  let fin := finalized (input0 context) (states_ r) (max_batch_size_ r) in
  Z.of_nat (sum_list_with (tokens_scored (scoring_type_ r)) fin) < 2 ^ 31 ->
  exists out r' scored_total correct_total docs,
    Compute context r = Value out r' /\
    additional_outputs out =
      DecodedOutputs [scored_total; correct_total] docs /\
    0 <= correct_total <= scored_total /\
    scored_total <=
      Z.of_nat (sum_list_with (fun st => token_size (sentence st)) fin).
Proof.
  intros Hinv Halloc Hsized Hkind fin Hfits.
  destruct (decoded_step context r Hinv Halloc Hsized Hkind)
    as (out & r' & Hc & Hout & _). fold fin in Hout.
  pose proof (sum_list_with_le (tokens_correct (scoring_type_ r))
                (tokens_scored (scoring_type_ r)) fin
                (fun st => proj1 (tokens_correct_le_scored _ st))) as H1.
  pose proof (sum_list_with_le (tokens_scored (scoring_type_ r))
                (fun st => token_size (sentence st)) fin
                (fun st => proj2 (tokens_correct_le_scored _ st))) as H2.
  rewrite !int32_wrap_id in Hout by (unfold int32_range; lia).
  eexists out, r', _, _, _. split; [exact Hc|]. split; [exact Hout|]. lia.
Qed.

(** X5. If no sentence of the corpus has an initial state that is already
    final, every state that a step leaves in the batch is not final: the
    action pass of the next step never acts on a final state. *)
Theorem step_leaves_no_final_state context r :
  reader_inv r ->
  (forall s, s ∈ corpus (sentence_batch_ r) ->
     IsFinalState (NewParserState s) = false) ->
  forall out r', Compute context r = Value out r' ->
  forall i st, state r' i = Some st -> IsFinalState st = false.
Proof.
  intros Hinv Hcorpus out r' Hc i st Hst.
  destruct (Compute_Value context r out r' Hc) as [_ ->].
  assert (state (advanced context r) i = Some st) as Hst3.
  { rewrite <- Hst. unfold after_outputs.
    destruct (kind (advanced context r)); reflexivity. }
  clear Hst Hc.
  pose proof (PerformActions_inv context r Hinv) as Hinv1.
  destruct (PerformActions_same_batch context r Hinv)
    as (_ & Hmax1 & _ & _ & Hb1 & _).
  destruct (AdvanceFinalStates_spec _ Hinv1) as (Hinv2 & Hstat2 & Hsettled).
  destruct Hstat2 as (_ & Hmax2 & _ & _ & _ & _ & _ & _ & Hc2).
  set (r2 := AdvanceFinalStates (PerformActions context r)) in *.
  destruct (RewindIfEmpty_spec r2 Hinv2) as [Hempty Hsome].
  unfold advanced in Hst3. fold r2 in Hst3.
  destruct (decide (Batch_size (sentence_batch_ r2) = 0%nat)) as [He|He].
  - pose proof (proj1 (batch_empty_iff r2 Hinv2) He) as Hall.
    destruct (Hempty Hall) as (_ & _ & Hload).
    pose proof (state_Some_lt _ i st (RewindIfEmpty_inv r2 Hinv2) Hst3) as Hi.
    destruct (RewindIfEmpty_static r2) as (_ & Hmax3 & _).
    rewrite Hmax3 in Hi. rewrite (Hload i Hi) in Hst3.
    destruct (corpus (sentence_batch_ r2) !! i) as [s|] eqn:Hs;
      [|discriminate].
    simpl in Hst3. injection Hst3 as <-. apply Hcorpus.
    rewrite Hc2, Hb1 in Hs. eapply list_elem_of_lookup_2; exact Hs.
  - rewrite Hsome in Hst3.
    + specialize (Hsettled i). rewrite Hst3 in Hsettled. exact Hsettled.
    + intros Hall. apply He, batch_empty_iff; assumption.
Qed.

(** X6. The gold-action output of a gold step is aligned with its feature
    outputs: it has one entry per non-null state, as many as every feature
    output has rows. *)
Theorem gold_outputs_aligned context r :
  reader_inv r -> allocations_succeed context -> extractor_well_sized ->
  kind r = GoldParseReader ->
  exists out r' actions,
    Compute context r = Value out r' /\
    additional_outputs out = GoldOutputs actions /\
    length actions = Batch_size (sentence_batch_ r') /\
    forall g T, feature_outputs out !! g = Some T ->
      length T = length actions.
Proof.
  intros Hinv Halloc Hsized Hkind.
  pose proof (Compute_eq context r Hinv Halloc Hsized) as Hc. cbv zeta in Hc.
  pose proof (advanced_inv context r Hinv) as Hinv3.
  destruct (advanced_kind context r Hinv) as (Hk3 & _). rewrite Hkind in Hk3.
  set (r3 := advanced context r) in *.
  assert (after_outputs r3 = r3) as Hafter
    by (unfold after_outputs; rewrite Hk3; reflexivity).
  rewrite Hafter in Hc.
  exists (mkOutputs
            ((fun g => feature_rows r3 g (max_batch_size_ r3))
               <$> seq 0 NumEmbeddings)
            (num_epochs_ r3) (expected_additional r3)), r3,
         (next_gold_actions r3).
  split; [exact Hc|]. simpl. unfold expected_additional. rewrite Hk3.
  split; [reflexivity|].
  assert (length (next_gold_actions r3) = Batch_size (sentence_batch_ r3))
    as Hlen.
  { unfold next_gold_actions. rewrite length_fmap.
    symmetry. apply batch_size_states, Hinv3. }
  split; [exact Hlen|].
  intros g T HT. rewrite list_lookup_fmap in HT.
  destruct (seq 0 NumEmbeddings !! g); [|discriminate]. simpl in HT.
  injection HT as <-. rewrite length_feature_rows, Hlen.
  rewrite (batch_size_states r3 Hinv3).
  destruct Hinv3 as (<- & _). apply rank_all.
Qed.

(** The action pass keeps the occupancy of the slots. *)
Lemma PerformActions_occupancy context r :
  reader_inv r ->
  let r1 := PerformActions context r in
  (forall i, is_Some (state r1 i) <-> is_Some (state r i)) /\
  length (states_ r1) = length (states_ r) /\
  sentence_batch_ r1 = sentence_batch_ r /\
  num_epochs_ r1 = num_epochs_ r /\
  workspaces_ r1 = workspaces_ r.
Proof.
  intros Hinv r1.
  pose proof (PerformActions_inv context r Hinv) as Hinv1. fold r1 in Hinv1.
  destruct (PerformActions_same_batch context r Hinv)
    as (_ & Hmax & _ & Hep & Hb & Hws & _). fold r1 in Hmax, Hep, Hb, Hws.
  assert (length (states_ r1) = length (states_ r)) as Hlen.
  { destruct Hinv as (-> & _), Hinv1 as (-> & _). exact Hmax. }
  split; [|repeat split; assumption].
  intros i. destruct Hinv as (_ & _ & Hocc & _), Hinv1 as (_ & _ & Hocc1 & _).
  rewrite Hb in Hocc1. unfold state.
  destruct (states_ r !! i) as [o|] eqn:Ho.
  - destruct (lookup_lt_is_Some_2 (states_ r1) i) as [o1 Ho1].
    { rewrite Hlen. eapply lookup_lt_Some; exact Ho. }
    destruct (lookup_lt_is_Some_2 (sentences_ (sentence_batch_ r)) i)
      as [s Hs].
    { rewrite <- (Forall2_length _ _ _ Hocc). eapply lookup_lt_Some; exact Ho. }
    rewrite Ho1. simpl.
    pose proof (Forall2_lookup_lr _ _ _ _ _ _ Hocc Ho Hs) as H.
    pose proof (Forall2_lookup_lr _ _ _ _ _ _ Hocc1 Ho1 Hs) as H1.
    unfold same_occupancy in *. rewrite H, H1. reflexivity.
  - rewrite (lookup_ge_None_2 (states_ r1)); [reflexivity|].
    rewrite Hlen. apply lookup_ge_None. exact Ho.
Qed.

(** X7. The action pass of either policy changes states in place only: a
    slot is occupied after it exactly when it was before, and the batch, the
    epoch counter and the workspaces are untouched. *)
Theorem action_pass_keeps_occupancy context r :
  reader_inv r ->
  let r1 := PerformActions context r in
  (forall i, is_Some (state r1 i) <-> is_Some (state r i)) /\
  length (states_ r1) = length (states_ r) /\
  sentence_batch_ r1 = sentence_batch_ r /\
  num_epochs_ r1 = num_epochs_ r /\
  workspaces_ r1 = workspaces_ r.
Proof. exact (PerformActions_occupancy context r). Qed.

Lemma populate_feature_outputs_empty r (outs : list (list (list string))) :
  (forall i, state r i = None) ->
  populate_feature_outputs r outs = Some (outs, 0%nat).
Proof.
  intros Hall. unfold populate_feature_outputs.
  destruct (for_loop_opt_total (max_batch_size_ r)
    (fun i '(outs, index) =>
       match default None (states_ r !! i) with
       | None => Some (outs, index)
       | Some st =>
           let features :=
             ExtractSparseFeatures
               (default ResetWorkspace (workspaces_ r !! i)) st in
           match populate_slot index features outs with
           | Some outs => Some (outs, S index)
           | None => None
           end
       end)
    (fun _ p => p) (fun _ p => p = (outs, 0%nat)) (outs, 0%nat))
    as [H Hp]; [reflexivity| |].
  - intros i p _ ->. specialize (Hall i). unfold state in Hall.
    rewrite Hall. split; reflexivity.
  - etransitivity; [exact H|]. rewrite Hp. reflexivity.
Qed.

Lemma AdvanceFinalStates_empty r :
  (forall i, state r i = None) -> AdvanceFinalStates r = r.
Proof.
  intros Hall. unfold AdvanceFinalStates.
  apply (for_loop_ind (fun _ r' => r' = r)); [reflexivity|].
  intros i r' _ ->. unfold advance_final. rewrite Hall. reflexivity.
Qed.

(** X8. Over an empty corpus a reader idles: a step from a reader whose
    slots are all empty finds nothing to load, increments the epoch counter,
    and returns feature outputs without rows (and, for the gold reader, an
    empty gold-action output), leaving all slots empty again. *)
Theorem empty_corpus_step context r :
  reader_inv r -> allocations_succeed context ->
  corpus (sentence_batch_ r) = [] ->
  (forall i, state r i = None) ->
  exists out r',
    Compute context r = Value out r' /\
    length (feature_outputs out) = NumEmbeddings /\
    (forall g T, feature_outputs out !! g = Some T -> T = []) /\
    epoch_output out = incr (num_epochs_ r) /\
    (kind r = GoldParseReader -> additional_outputs out = GoldOutputs []) /\
    reader_inv r' /\
    corpus (sentence_batch_ r') = [] /\
    (forall i, state r' i = None).
Proof.
  intros Hinv Halloc Hcorpus Hall.
  pose proof (PerformActions_inv context r Hinv) as Hinv1.
  destruct (PerformActions_same_batch context r Hinv)
    as (_ & Hmax1 & _ & Hep1 & Hb1 & _).
  assert (forall i, state (PerformActions context r) i = None) as Hall1.
  { intros i. destruct (PerformActions_occupancy context r Hinv) as (Hocc & _).
    specialize (Hocc i). rewrite Hall in Hocc.
    destruct (state (PerformActions context r) i); [|reflexivity].
    destruct (proj1 Hocc) as [? ?]; [eexists; reflexivity|discriminate]. }
  pose proof (advanced_inv context r Hinv) as Hinv3.
  destruct (advanced_kind context r Hinv) as (Hk3 & Hmax3 & _).
  assert (advanced context r = RewindIfEmpty (PerformActions context r)) as Hadv
    by (unfold advanced; rewrite AdvanceFinalStates_empty by exact Hall1;
        reflexivity).
  destruct (RewindIfEmpty_spec _ Hinv1) as [Hempty _].
  destruct (Hempty Hall1) as (Hep & _ & Hload). rewrite <- Hadv in Hep, Hload.
  destruct (RewindIfEmpty_static (PerformActions context r))
    as (_ & _ & _ & _ & _ & _ & _ & Hc3). rewrite <- Hadv in Hc3.
  set (r3 := advanced context r) in *.
  assert (forall i, state r3 i = None) as Hall3.
  { intros i. destruct (decide (i < max_batch_size_ r3)%nat) as [Hi|Hi].
    - rewrite Hload by lia. rewrite Hb1, Hcorpus. reflexivity.
    - unfold state. rewrite lookup_ge_None_2; [reflexivity|].
      destruct Hinv3 as (-> & _). lia. }
  pose proof (proj2 (batch_empty_iff r3 Hinv3) Hall3) as Hsize.
  assert (omap id (states_ r3) = []) as Hnil.
  { apply length_zero_iff_nil. rewrite <- (batch_size_states r3 Hinv3).
    exact Hsize. }
  exists (mkOutputs
            ((fun g => replicate (Batch_size (sentence_batch_ r3)) (blank_row g))
               <$> seq 0 NumEmbeddings)
            (num_epochs_ r3) (expected_additional r3)), (after_outputs r3).
  split.
  { unfold Compute, bind, modify, gets, OP_REQUIRES_OK, ret,
      require_allocated, require_checked.
    fold (advanced context r). fold r3.
    rewrite allocate_feature_outputs_eq by (intros g _; apply Halloc).
    rewrite populate_feature_outputs_empty by exact Hall3.
    rewrite Halloc, AddAdditionalOutputs_eq by assumption. reflexivity. }
  simpl. split; [rewrite length_fmap, length_seq; reflexivity|].
  split.
  { intros g T HT. rewrite list_lookup_fmap in HT.
    destruct (seq 0 NumEmbeddings !! g); [|discriminate]. simpl in HT.
    injection HT as <-. rewrite Hsize. reflexivity. }
  split; [rewrite Hep, Hep1; reflexivity|].
  split.
  { intros Hk. unfold expected_additional, next_gold_actions.
    rewrite Hk3, Hk, Hnil. reflexivity. }
  split; [apply after_outputs_inv, Hinv3|].
  destruct (after_outputs_fields r3) as (_ & _ & _ & _ & _ & Hb').
  split; [rewrite Hb', Hc3, Hb1; exact Hcorpus|].
  intros i. unfold after_outputs. destruct (kind r3); apply Hall3.
Qed.

Lemma forallb_false {A : Type} (f : A -> bool) (xs : list A) :
  forallb f xs = false -> exists x, x ∈ xs /\ f x = false.
Proof.
  induction xs as [|x xs IH]; simpl; [discriminate|].
  destruct (f x) eqn:Hx; simpl.
  - intros H. destruct (IH H) as (y & Hy & Hfy).
    exists y. split; [right; exact Hy|exact Hfy].
  - intros _. exists x. split; [left|exact Hx].
Qed.

Lemma allocate_feature_outputs_forallb context r :
  allocate_feature_outputs context r =
  if forallb (can_allocate context) (seq 0 NumEmbeddings)
  then Some ((fun g => replicate (Batch_size (sentence_batch_ r)) (blank_row g))
               <$> seq 0 NumEmbeddings)
  else None.
Proof.
  destruct (forallb (can_allocate context) (seq 0 NumEmbeddings)) eqn:Hf.
  - assert (forall i, (i < NumEmbeddings)%nat -> can_allocate context i = true)
      as Halloc.
    { intros i Hi. rewrite forallb_forall in Hf. apply Hf.
      apply list_elem_of_In, elem_of_seq. lia. }
    unfold allocate_feature_outputs.
    set (f := fun g => replicate (Batch_size (sentence_batch_ r))
                         (replicate (FeatureSize g) String.EmptyString)).
    destruct (for_loop_opt_total NumEmbeddings
                (fun i outs =>
                   if can_allocate context i
                   then Some (<[i := f i]> outs) else None)
                (fun i outs => <[i := f i]> outs)
                (fun _ _ => True) (replicate NumEmbeddings [])) as [H _].
    + exact I.
    + intros i outs Hi _. rewrite Halloc by exact Hi.
      split; [reflexivity|exact I].
    + etransitivity; [exact H|].
      rewrite for_loop_insert by (rewrite length_replicate; lia).
      rewrite drop_ge, app_nil_r by (rewrite length_replicate; lia).
      reflexivity.
  - destruct (forallb_false _ _ Hf) as (i & Hi & Hfalse).
    apply elem_of_seq in Hi. unfold allocate_feature_outputs.
    apply (for_loop_opt_stops _ (S i)); [lia|].
    rewrite for_loop_opt_S.
    destruct (for_loop_opt i _ _); [|reflexivity].
    rewrite Hfalse. reflexivity.
Qed.

Lemma output_indices_advanced context r :
  reader_inv r ->
  output_indices (advanced context r) = output_indices r.
Proof.
  intros Hinv. destruct (advanced_kind context r Hinv) as (Hk & _ & Hfs).
  unfold output_indices, additional_output_index. rewrite Hk, Hfs.
  reflexivity.
Qed.

(** X9. The outcome of a step with a well-sized extractor is decided by its
    allocations alone: it never aborts; it returns its outputs when every
    [allocate_output] it calls succeeds, and otherwise returns early with an
    error status, in both cases after the action, advance and rewind parts
    have changed the reader. *)
Theorem step_outcome context r :
  reader_inv r -> extractor_well_sized ->
  let r3 := advanced context r in
  Compute context r =
  if forallb (can_allocate context) (output_indices r)
  then Value (mkOutputs
                ((fun g => feature_rows r3 g (max_batch_size_ r3))
                   <$> seq 0 NumEmbeddings)
                (num_epochs_ r3) (expected_additional r3))
             (after_outputs r3)
  else Failed r3.
Proof.
  intros Hinv Hsized r3.
  pose proof (advanced_inv context r Hinv) as Hinv3. fold r3 in Hinv3.
  rewrite <- (output_indices_advanced context r Hinv). fold r3.
  unfold Compute, bind, modify, gets, OP_REQUIRES_OK, ret,
    require_allocated, require_checked.
  fold (advanced context r). fold r3.
  unfold output_indices. rewrite forallb_app.
  rewrite allocate_feature_outputs_forallb.
  destruct (forallb (can_allocate context) (seq 0 NumEmbeddings));
    [|reflexivity].
  rewrite populate_feature_outputs_eq by assumption.
  cbn [forallb andb app].
  destruct (can_allocate context (feature_size_ r3)); [|reflexivity].
  unfold AddAdditionalOutputs, expected_additional, after_outputs.
  destruct (kind r3); cbn [forallb andb].
  - unfold GoldAddAdditionalOutputs, bind, gets, OP_REQUIRES_OK, ret.
    destruct (can_allocate context (additional_output_index r3));
      [|reflexivity].
    rewrite gold_actions_loop_eq by exact Hinv3. reflexivity.
  - unfold DecodedAddAdditionalOutputs, bind, gets, OP_REQUIRES_OK, ret, modify.
    destruct (can_allocate context (additional_output_index r3));
      [|reflexivity].
    destruct (can_allocate context (additional_output_index r3 + 1));
      [|reflexivity].
    rewrite document_output_loop_eq. reflexivity.
Qed.

End MoreReaderProperties.

(* ===================================================================== *)
(** * The further properties on concrete runs *)

(** X1 at a concrete input: the first step of the gold reader. *)
Lemma step_keeps_invariant_witness :
  reader_inv (after_steps [gold_context] gold_reader) /\
  max_batch_size_ (after_steps [gold_context] gold_reader) =
    max_batch_size_ gold_reader /\
  length (states_ (after_steps [gold_context] gold_reader)) =
    max_batch_size_ gold_reader /\
  Batch_size (sentence_batch_ (after_steps [gold_context] gold_reader)) =
    length (omap id (states_ (after_steps [gold_context] gold_reader))).
Proof.
  apply (step_keeps_invariant gold_context gold_reader).
  - apply new_reader_inv.
  - left. eexists. vm_compute. reflexivity.
Defined.

(** X2 at a concrete input: the fifth step of the decoded reader, which
    finishes "d", in a context that cannot allocate. *)
Lemma failed_step_keeps_documents_witness :
  documents_ (advanced failing_context decoded_reader_4) =
    documents_ decoded_reader_4 ++
    (annotated <$>
       finalized (input0 failing_context) (states_ decoded_reader_4)
         (max_batch_size_ decoded_reader_4)) /\
  forall context2,
    allocations_succeed context2 ->
    extractor_well_sized (features_ := ArcStandard.extractor) ->
    exists out2 r2 metrics,
      Compute context2 (advanced failing_context decoded_reader_4) =
        Value out2 r2 /\
      additional_outputs out2 =
        DecodedOutputs metrics
          (SerializeSentence <$>
             (documents_ (advanced failing_context decoded_reader_4) ++
              (annotated <$>
                 finalized (input0 context2)
                   (states_ (advanced failing_context decoded_reader_4))
                   (max_batch_size_
                      (advanced failing_context decoded_reader_4))))).
Proof.
  apply (failed_step_keeps_documents failing_context decoded_reader_4
           (advanced failing_context decoded_reader_4)).
  - apply after_steps_inv, new_reader_inv.
  - reflexivity.
  - vm_compute. reflexivity.
Defined.

(** X4 at a concrete input: the fifth step of the decoded reader. *)
Lemma accuracy_tuple_ordered_witness :
  exists out r' scored_total correct_total docs,
    Compute finishing_context decoded_reader_4 = Value out r' /\
    additional_outputs out =
      DecodedOutputs [scored_total; correct_total] docs /\
    0 <= correct_total <= scored_total /\
    scored_total <=
      Z.of_nat
        (sum_list_with (fun st => token_size (sentence st))
           (finalized (input0 finishing_context) (states_ decoded_reader_4)
              (max_batch_size_ decoded_reader_4))).
Proof.
  apply (accuracy_tuple_ordered finishing_context decoded_reader_4).
  - apply after_steps_inv, new_reader_inv.
  - apply context_of_allocates.
  - exact arc_standard_well_sized.
  - reflexivity.
  - vm_compute. reflexivity.
Defined.

(** X5 at a concrete input: the first step of the gold reader, whose corpus
    has no empty sentence. *)
Lemma step_leaves_no_final_state_witness :
  Forall (fun s => IsFinalState (NewParserState s) = false)
    (corpus (sentence_batch_ gold_reader)) /\
  forall i st,
    state (after_steps [gold_context] gold_reader) i = Some st ->
    IsFinalState st = false.
Proof.
  split; [repeat constructor|].
  eapply (step_leaves_no_final_state gold_context gold_reader).
  - apply new_reader_inv.
  - apply Forall_forall. repeat constructor.
  - vm_compute. reflexivity.
Defined.

(** X6 at a concrete input: the first step of the gold reader. *)
Lemma gold_outputs_aligned_witness :
  exists out r' actions,
    Compute gold_context gold_reader = Value out r' /\
    additional_outputs out = GoldOutputs actions /\
    length actions = Batch_size (sentence_batch_ r') /\
    forall g T, feature_outputs out !! g = Some T ->
      length T = length actions.
Proof.
  apply (gold_outputs_aligned gold_context gold_reader).
  - apply new_reader_inv.
  - apply context_of_allocates.
  - exact arc_standard_well_sized.
  - reflexivity.
Defined.

(** X7 at a concrete input: the action pass of the fifth step of the decoded
    reader. *)
Lemma action_pass_keeps_occupancy_witness :
  (forall i,
     is_Some (state (PerformActions finishing_context decoded_reader_4) i) <->
     is_Some (state decoded_reader_4 i)) /\
  length (states_ (PerformActions finishing_context decoded_reader_4)) =
    length (states_ decoded_reader_4) /\
  sentence_batch_ (PerformActions finishing_context decoded_reader_4) =
    sentence_batch_ decoded_reader_4 /\
  num_epochs_ (PerformActions finishing_context decoded_reader_4) =
    num_epochs_ decoded_reader_4 /\
  workspaces_ (PerformActions finishing_context decoded_reader_4) =
    workspaces_ decoded_reader_4.
Proof.
  apply (action_pass_keeps_occupancy finishing_context decoded_reader_4).
  apply after_steps_inv, new_reader_inv.
Defined.

(** X8 at a concrete input: a gold reader with two slots over no sentence. *)
Lemma empty_corpus_step_witness :
  exists out r',
    Compute gold_context empty_reader = Value out r' /\
    length (feature_outputs out) = NumEmbeddings /\
    (forall g T, feature_outputs out !! g = Some T -> T = []) /\
    epoch_output out = incr (num_epochs_ empty_reader) /\
    (kind empty_reader = GoldParseReader ->
     additional_outputs out = GoldOutputs []) /\
    reader_inv r' /\
    corpus (sentence_batch_ r') = [] /\
    (forall i, state r' i = None).
Proof.
  apply (empty_corpus_step gold_context empty_reader).
  - apply new_reader_inv.
  - apply context_of_allocates.
  - reflexivity.
  - intros i. destruct i as [|[|i]]; reflexivity.
Defined.

(** X9 at a concrete input: the first step of the gold reader. *)
Lemma step_outcome_witness :
  Compute gold_context gold_reader =
  if forallb (can_allocate gold_context) (output_indices gold_reader)
  then Value (mkOutputs
                ((fun g =>
                    feature_rows (advanced gold_context gold_reader) g
                      (max_batch_size_ (advanced gold_context gold_reader)))
                   <$> seq 0 NumEmbeddings)
                (num_epochs_ (advanced gold_context gold_reader))
                (expected_additional (advanced gold_context gold_reader)))
             (after_outputs (advanced gold_context gold_reader))
  else Failed (advanced gold_context gold_reader).
Proof.
  apply (step_outcome gold_context gold_reader).
  - apply new_reader_inv.
  - exact arc_standard_well_sized.
Defined.

(* ===================================================================== *)
(** * Properties of the embedding initializer *)

Lemma for_loop_ext {S : Type} (n : nat) (body body' : nat -> S -> S) (s : S) :
  (forall i s, (i < n)%nat -> body i s = body' i s) ->
  for_loop n body s = for_loop n body' s.
Proof.
  intros H. induction n as [|n IH]; [reflexivity|].
  rewrite !for_loop_S, IH by (intros; apply H; lia). apply H. lia.
Qed.

(** A loop over the indices of a list that reads the list at the index is a
    fold over the list. *)
Lemma for_loop_lookup_foldl {A S : Type} (f : S -> A -> S) (l : list A) (s : S) :
  for_loop (length l)
    (fun i s => match l !! i with Some x => f s x | None => s end) s =
  foldl f s l.
Proof.
  induction l as [|x l IH] using rev_ind; [reflexivity|].
  rewrite length_app, Nat.add_1_r, for_loop_S, foldl_app. simpl.
  rewrite lookup_app_r, Nat.sub_diag by lia. simpl. f_equal.
  rewrite <- IH. apply for_loop_ext. intros i s' Hi.
  rewrite lookup_app_l by lia. reflexivity.
Qed.

Lemma uint64_add_small (a b : N) :
  (a + b < 2 ^ 64)%N -> uint64_add a b = (a + b)%N.
Proof. intros H. unfold uint64_add. apply N.mod_small. exact H. Qed.

Lemma Append_written data t :
  appends t -> written (snd (Append data t)) = written t ++ data.
Proof. intros H. unfold Append. rewrite H. reflexivity. Qed.

Lemma Append_append_to data t :
  append_to (snd (Append data t)) = append_to t.
Proof. unfold Append. destruct (append_to t (written t) data). reflexivity. Qed.

Lemma Append_appends data t : appends t -> appends (snd (Append data t)).
Proof. intros H w d. rewrite Append_append_to. apply H. Qed.

(** The copy loop over a file that holds [content], from an offset within
    it: it ends at the end of the file, whatever the target answers. *)
Lemma copy_loop_holds (fuel : nat) (chunk : N) source_file content :
  holds source_file content ->
  (0 < chunk)%N ->
  (N.of_nat (length content) + chunk < 2 ^ 64)%N ->
  forall target_file offset,
    (offset <= N.of_nat (length content))%N ->
    (N.of_nat (length content) < offset + N.of_nat fuel * chunk)%N ->
    exists target_file',
      copy_loop fuel chunk source_file target_file offset =
        Some (OUT_OF_RANGE, target_file') /\
      (appends target_file ->
       written target_file' =
       written target_file ++ drop (N.to_nat offset) content).
Proof.
  intros Hholds Hchunk Hsize. induction fuel as [|fuel IH];
    intros target_file offset Hoffset Hfuel; [lia|].
  cbn [copy_loop]. rewrite Hholds.
  set (data := take (N.to_nat chunk) (drop (N.to_nat offset) content)).
  destruct (decide (N.to_nat offset + N.to_nat chunk <= length content)%nat)
    as [Hle|Hgt]; unfold ok.
  - rewrite bool_decide_eq_true_2 by reflexivity.
    rewrite uint64_add_small by lia.
    destruct (IH (snd (Append data target_file)) (offset + chunk)%N)
      as (t' & Hloop & Hwritten); [lia|lia|].
    exists t'. split; [exact Hloop|]. intros Happ.
    rewrite Hwritten by (apply Append_appends; exact Happ).
    rewrite Append_written by exact Happ. rewrite <- app_assoc. f_equal.
    subst data. rewrite N2Nat.inj_add, <- drop_drop.
    apply take_drop.
  - rewrite bool_decide_eq_false_2 by discriminate.
    eexists. split; [reflexivity|]. intros Happ.
    rewrite Append_written by exact Happ. f_equal.
    subst data. apply take_ge. rewrite length_drop. lia.
Qed.

(** The copy loop over any file: it ends with the status of the first read
    that is not OK, after appending what that read gave too. *)
Lemma copy_loop_reads (chunk : N) source_file (s : StatusCode) :
  s <> OK ->
  forall (k fuel : nat) target_file offset data,
    (forall i, (i < k)%nat ->
       fst (Read source_file (offset + N.of_nat i * chunk) chunk) = OK) ->
    Read source_file (offset + N.of_nat k * chunk) chunk = (s, data) ->
    (offset + N.of_nat k * chunk < 2 ^ 64)%N ->
    (k < fuel)%nat ->
    exists target_file',
      copy_loop fuel chunk source_file target_file offset =
        Some (s, target_file') /\
      (appends target_file ->
       written target_file' =
       written target_file ++
       mjoin ((fun i => snd (Read source_file (offset + N.of_nat i * chunk)
                               chunk)) <$> seq 0 (S k))).
Proof.
  intros Hs. induction k as [|k IH];
    intros fuel target_file offset data Hok Hlast Hwrap Hfuel;
    (destruct fuel as [|fuel]; [lia|]); cbn [copy_loop].
  - replace (offset + N.of_nat 0 * chunk)%N with offset in * by lia.
    rewrite Hlast. unfold ok. rewrite bool_decide_eq_false_2 by exact Hs.
    eexists. split; [reflexivity|]. intros Happ.
    rewrite Append_written by exact Happ.
    change (seq 0 1) with [0%nat]. rewrite fmap_cons. cbn [fmap list_fmap mjoin list_join].
    replace (offset + N.of_nat 0 * chunk)%N with offset by lia.
    rewrite Hlast, app_nil_r. reflexivity.
  - pose proof (Hok 0%nat ltac:(lia)) as H0.
    replace (offset + N.of_nat 0 * chunk)%N with offset in H0 by lia.
    destruct (Read source_file offset chunk) as [s0 data0] eqn:Hread.
    simpl in H0. subst s0. unfold ok.
    rewrite bool_decide_eq_true_2 by reflexivity.
    rewrite uint64_add_small by lia.
    destruct (IH fuel (snd (Append data0 target_file)) (offset + chunk)%N data)
      as (t' & Hloop & Hwritten).
    + intros i Hi.
      replace (offset + chunk + N.of_nat i * chunk)%N
        with (offset + N.of_nat (S i) * chunk)%N by lia.
      apply Hok. lia.
    + replace (offset + chunk + N.of_nat k * chunk)%N
        with (offset + N.of_nat (S k) * chunk)%N by lia.
      exact Hlast.
    + lia.
    + lia.
    + exists t'. split; [exact Hloop|]. intros Happ.
      rewrite Hwritten by (apply Append_appends; exact Happ).
      rewrite Append_written by exact Happ. rewrite <- app_assoc. f_equal.
      change (seq 0 (S (S k))) with (0%nat :: seq 1 (S k)).
      rewrite fmap_cons. cbn [mjoin list_join].
      replace (offset + N.of_nat 0 * chunk)%N with offset by lia.
      rewrite Hread. cbn [snd]. f_equal.
      rewrite <- fmap_S_seq, <- list_fmap_compose. f_equal.
      apply list_fmap_ext. intros _ i _. cbn.
      replace (offset + chunk + N.of_nat i * chunk)%N
        with (offset + N.pos (Pos.of_succ_nat i) * chunk)%N by lia.
      reflexivity.
Qed.

Lemma file_of_holds content : holds (file_of content) content.
Proof. intros offset n. reflexivity. Qed.

Lemma new_file_appends : appends new_file.
Proof. intros w data. reflexivity. Qed.

Lemma CopyToTmpPath_holds (fuel : nat) (env : Env) (source_path : string)
    source_file target_file (content : list Byte.byte) :
  NewRandomAccessFile env source_path = (OK, source_file) ->
  holds source_file content ->
  NewWritableFile env (tmp_path_of env) = (OK, target_file) ->
  written target_file = [] ->
  appends target_file ->
  (N.of_nat (length content) + kBytesToRead < 2 ^ 64)%N ->
  (N.of_nat (length content) < N.of_nat fuel * kBytesToRead)%N ->
  exists copy,
    CopyToTmpPath fuel env source_path =
      Some (mkCopyResult OK (Some (tmp_path_of env)) (Some copy)) /\
    written copy = content.
Proof.
  intros Hsource Hholds Htarget Hnew Happ Hsize Hfuel.
  destruct (copy_loop_holds fuel kBytesToRead source_file content Hholds
              ltac:(reflexivity) Hsize target_file 0%N ltac:(lia) ltac:(lia))
    as (copy & Hloop & Hwritten).
  exists copy. split.
  - unfold CopyToTmpPath. rewrite Hsource, Htarget, Hloop. reflexivity.
  - rewrite (Hwritten Happ), Hnew. reflexivity.
Qed.

(** X10. The copy is faithful: when the source file holds [content] (its
    reads behave as [RandomAccessFile::Read] is documented), the target file
    is created empty and appends what it is given, and the offsets of the
    chunks fit 64 bits, [CopyToTmpPath] returns OK, has assigned the temporary
    path, and leaves a target that holds exactly [content]. This includes the
    empty file and the files whose size is a multiple of the chunk size, for
    which the last read returns no byte. The loop ends within
    [length content / kBytesToRead + 1] reads. *)
Theorem copy_round_trip (fuel : nat) (env : Env) (source_path : string)
    source_file target_file (content : list Byte.byte) :
  NewRandomAccessFile env source_path = (OK, source_file) ->
  holds source_file content ->
  NewWritableFile env (tmp_path_of env) = (OK, target_file) ->
  written target_file = [] ->
  appends target_file ->
  (N.of_nat (length content) + kBytesToRead < 2 ^ 64)%N ->
  (N.of_nat (length content) < N.of_nat fuel * kBytesToRead)%N ->
  exists copy,
    CopyToTmpPath fuel env source_path =
      Some (mkCopyResult OK (Some (tmp_path_of env)) (Some copy)) /\
    written copy = content.
Proof.
  exact (CopyToTmpPath_holds fuel env source_path source_file target_file
           content).
Qed.

(** X11. The status of [CopyToTmpPath] is decided by the reads alone: once
    both files are open, it is the status of the first read that is not OK,
    with [OUT_OF_RANGE] turned into OK; whatever [Append] answers is dropped,
    so a failed write is never reported. What the failing read returned is
    appended too: a target that appends holds all the chunks read, the last
    one included. *)
Theorem copy_status_is_first_read_failure (fuel : nat) (env : Env)
    (source_path : string) source_file target_file (k : nat)
    (s : StatusCode) (data : list Byte.byte) :
  NewRandomAccessFile env source_path = (OK, source_file) ->
  NewWritableFile env (tmp_path_of env) = (OK, target_file) ->
  (forall i, (i < k)%nat ->
     fst (Read source_file (N.of_nat i * kBytesToRead) kBytesToRead) = OK) ->
  Read source_file (N.of_nat k * kBytesToRead) kBytesToRead = (s, data) ->
  s <> OK ->
  (N.of_nat k * kBytesToRead < 2 ^ 64)%N ->
  (k < fuel)%nat ->
  exists copy,
    CopyToTmpPath fuel env source_path =
      Some (mkCopyResult (if decide (s = OUT_OF_RANGE) then OK else s)
              (Some (tmp_path_of env)) (Some copy)) /\
    (appends target_file ->
     written copy =
     written target_file ++ chunks_read source_file kBytesToRead k).
Proof.
  intros Hsource Htarget Hok Hlast Hs Hwrap Hfuel.
  destruct (copy_loop_reads kBytesToRead source_file s Hs k fuel target_file
              0%N data) as (copy & Hloop & Hwritten).
  - intros i Hi. rewrite N.add_0_l. apply Hok. exact Hi.
  - rewrite N.add_0_l. exact Hlast.
  - rewrite N.add_0_l. exact Hwrap.
  - exact Hfuel.
  - exists copy. split.
    + unfold CopyToTmpPath. rewrite Hsource, Htarget, Hloop. reflexivity.
    + intros Happ. rewrite (Hwritten Happ). f_equal.
Qed.

(** The vocabulary after the first [n] terms. *)
Lemma load_vocab_upto (terms : list string) (n : nat) (t : string) (i : nat) :
  (n <= length terms)%nat ->
  for_loop n
    (fun i vocab =>
       match terms !! i with
       | Some term => <[term := i]> vocab
       | None => vocab
       end) (∅ : gmap string nat) !! t = Some i <->
  (i < n)%nat /\ terms !! i = Some t /\
  forall j, (i < j < n)%nat -> terms !! j <> Some t.
Proof.
  induction n as [|n IH]; intros Hn.
  - unfold for_loop. simpl. rewrite lookup_empty. split; [discriminate|].
    intros [H _]. lia.
  - rewrite for_loop_S.
    destruct (lookup_lt_is_Some_2 terms n ltac:(lia)) as [term Hterm].
    rewrite Hterm. destruct (decide (term = t)) as [->|Hne].
    + rewrite lookup_insert_eq. split.
      * intros [= <-]. split; [lia|]. split; [exact Hterm|]. intros j Hj. lia.
      * intros (Hi & Hit & Hlast). f_equal.
        destruct (decide (i = n)) as [->|Hin]; [reflexivity|].
        exfalso. apply (Hlast n); [lia|exact Hterm].
    + rewrite lookup_insert_ne by exact Hne. rewrite IH by lia. split.
      * intros (Hi & Hit & Hlast). split; [lia|]. split; [exact Hit|].
        intros j Hj. destruct (decide (j = n)) as [->|Hjn].
        -- rewrite Hterm. congruence.
        -- apply Hlast. lia.
      * intros (Hi & Hit & Hlast).
        assert (i <> n) by (intros ->; congruence).
        split; [lia|]. split; [exact Hit|]. intros j Hj. apply Hlast. lia.
Qed.

Lemma load_vocab_spec (terms : list string) (t : string) (i : nat) :
  load_vocab terms !! t = Some i <->
  terms !! i = Some t /\ forall j, (i < j)%nat -> terms !! j <> Some t.
Proof.
  unfold load_vocab. rewrite load_vocab_upto by lia. split.
  - intros (_ & Hit & Hlast). split; [exact Hit|]. intros j Hj.
    destruct (decide (j < length terms)%nat) as [Hlt|Hge].
    + apply Hlast. lia.
    + rewrite lookup_ge_None_2 by lia. discriminate.
  - intros (Hit & Hlast). split; [exact (lookup_lt_Some _ _ _ Hit)|].
    split; [exact Hit|]. intros j Hj. apply Hlast. lia.
Qed.

Lemma load_vocab_lt (terms : list string) (t : string) (i : nat) :
  load_vocab terms !! t = Some i -> (i < length terms)%nat.
Proof.
  intros H. apply load_vocab_spec in H as [H _].
  exact (lookup_lt_Some _ _ _ H).
Qed.

(** X12. The vocabulary maps a term to the last id at which the word map has
    it: with terms that occur once it inverts [GetTerm], and of a term that
    occurs several times only the last id is addressed. *)
Theorem vocab_maps_term_to_last_id (terms : list string) (t : string) (i : nat) :
  load_vocab terms !! t = Some i <->
  terms !! i = Some t /\ forall j, (i < j)%nat -> terms !! j <> Some t.
Proof. exact (load_vocab_spec terms t i). Qed.

Lemma length_normalized values : length (normalized values) = length values.
Proof. unfold normalized. apply length_fmap. Qed.

Lemma SetNormalizedRow_norm (values : list float) :
  f32_sqrt
    (for_loop (length values)
       (fun col norm =>
          match values !! col with
          | Some val => f32_add norm (f32_mul val val)
          | None => norm
          end) f32_zero) = vector_norm values.
Proof.
  unfold vector_norm. f_equal.
  apply (for_loop_lookup_foldl (fun norm val => f32_add norm (f32_mul val val))).
Qed.

(** [SetNormalizedRow] in closed form: it overwrites the first entries of
    the row, as many as the vector has values. *)
Lemma SetNormalizedRow_eq (values : list float) (row : nat)
    (m : list (list float)) (r : list float) :
  m !! row = Some r ->
  (length values <= length r)%nat ->
  SetNormalizedRow values row m =
  Some (<[row := normalized values ++ drop (length values) r]> m).
Proof.
  intros Hrow Hlen. unfold SetNormalizedRow. rewrite SetNormalizedRow_norm.
  pose proof (lookup_lt_Some _ _ _ Hrow) as Hlt.
  set (f := fun (col : nat) (m' : list (list float)) =>
              match values !! col, m' !! row with
              | Some val, Some r' =>
                  <[row := <[col := f32_div val (vector_norm values)]> r']> m'
              | _, _ => m'
              end).
  destruct (for_loop_opt_total (length values)
              (fun col m' =>
                 match values !! col with
                 | Some val =>
                     set_entry row col (f32_div val (vector_norm values)) m'
                 | None => Some m'
                 end) f
              (fun k m' =>
                 m' = <[row := take k (normalized values) ++ drop k r]> m) m)
    as [Hloop Hfinal].
  - rewrite take_0, drop_0. simpl. rewrite list_insert_id by exact Hrow.
    reflexivity.
  - intros i m' Hi ->.
    destruct (lookup_lt_is_Some_2 values i Hi) as [val Hval].
    unfold f, set_entry. rewrite Hval.
    rewrite list_lookup_insert_eq by exact Hlt.
    assert (length (take i (normalized values)) = i) as Htake
      by (rewrite length_take, length_normalized; lia).
    rewrite decide_True
      by (rewrite length_app, Htake, length_drop; lia).
    split; [reflexivity|].
    rewrite list_insert_insert_eq. f_equal.
    rewrite insert_app_r_alt by lia. rewrite Htake, Nat.sub_diag.
    rewrite (take_S_r _ _ (f32_div val (vector_norm values)))
      by (unfold normalized; rewrite list_lookup_fmap, Hval; reflexivity).
    rewrite <- app_assoc. f_equal.
    destruct (drop i r) as [|x rest] eqn:Hdrop.
    + apply (f_equal length) in Hdrop. rewrite length_drop in Hdrop.
      simpl in Hdrop. lia.
    + simpl. f_equal.
      replace (S i) with (i + 1)%nat by lia.
      rewrite <- drop_drop, Hdrop. reflexivity.
  - rewrite Hloop, Hfinal. rewrite <- (length_normalized values) at 1.
    rewrite take_ge by lia. reflexivity.
Qed.

Lemma SetNormalizedRow_written (values : list float) (row : nat)
    (m : list (list float)) (r : list float) :
  m !! row = Some r ->
  (length values <= length r)%nat ->
  exists m',
    SetNormalizedRow values row m = Some m' /\
    length m' = length m /\
    m' !! row = Some (normalized values ++ drop (length values) r) /\
    forall i, i <> row -> m' !! i = m !! i.
Proof.
  intros Hrow Hlen. eexists. split; [exact (SetNormalizedRow_eq _ _ _ _ Hrow Hlen)|].
  split; [apply length_insert|]. split.
  - apply list_lookup_insert_eq. exact (lookup_lt_Some _ _ _ Hrow).
  - intros i Hi. apply list_lookup_insert_ne. congruence.
Qed.

Lemma f32_add_nan_r (x y : float) : is_nan y = true -> f32_add x y = S754_nan.
Proof. destruct y; try discriminate. destruct x; reflexivity. Qed.

Lemma f32_mul_nan (x : float) : is_nan x = true -> f32_mul x x = S754_nan.
Proof. destruct x; try discriminate. reflexivity. Qed.

Lemma f32_div_nan_r (x y : float) : is_nan y = true -> f32_div x y = S754_nan.
Proof. destruct y; try discriminate. destruct x; reflexivity. Qed.

Lemma sum_of_squares_nan (values : list float) :
  foldl (fun norm val => f32_add norm (f32_mul val val)) S754_nan values =
  S754_nan.
Proof. induction values as [|x values IH]; [reflexivity|]. simpl. exact IH. Qed.

Lemma vector_norm_nan (values : list float) :
  Exists (fun v => is_nan v = true) values -> vector_norm values = S754_nan.
Proof.
  intros H. unfold vector_norm.
  enough (forall acc,
            foldl (fun norm val => f32_add norm (f32_mul val val)) acc values =
            S754_nan) as -> by reflexivity.
  induction H as [x values Hx|x values _ IH]; intros acc; simpl.
  - rewrite (f32_mul_nan x Hx), (f32_add_nan_r acc S754_nan eq_refl).
    apply sum_of_squares_nan.
  - apply IH.
Qed.

Lemma vector_norm_zero (values : list float) :
  Forall (fun v => is_zero v = true) values -> vector_norm values = f32_zero.
Proof.
  intros H. unfold vector_norm.
  enough (foldl (fun norm val => f32_add norm (f32_mul val val)) f32_zero
            values = f32_zero) as -> by reflexivity.
  induction H as [|x values Hx _ IH]; [reflexivity|]. simpl.
  destruct x as [[]| | |]; try discriminate; exact IH.
Qed.

Lemma normalized_degenerate (values : list float) :
  Forall (fun v => is_zero v = true) values \/
  Exists (fun v => is_nan v = true) values ->
  Forall (fun x => is_nan x = true) (normalized values).
Proof.
  intros [Hzero|Hnan]; unfold normalized; apply Forall_fmap.
  - rewrite (vector_norm_zero values Hzero).
    eapply Forall_impl; [exact Hzero|]. intros x Hx. simpl.
    destruct x as [[]| | |]; try discriminate; reflexivity.
  - rewrite (vector_norm_nan values Hnan). apply Forall_forall. intros x _.
    simpl. rewrite f32_div_nan_r; reflexivity.
Qed.

Lemma insert_fmap_seq {A : Type} (f : nat -> A) (rows row : nat) (x : A) :
  (row < rows)%nat ->
  <[row := x]> (f <$> seq 0 rows) =
  (fun i => if decide (i = row) then x else f i) <$> seq 0 rows.
Proof.
  intros Hrow. apply list_eq. intros i.
  destruct (decide (i = row)) as [->|Hne].
  - rewrite list_lookup_insert_eq by (rewrite length_fmap, length_seq; lia).
    rewrite list_lookup_fmap, lookup_seq_lt by lia. simpl.
    rewrite decide_True by reflexivity. reflexivity.
  - rewrite list_lookup_insert_ne by congruence.
    rewrite !list_lookup_fmap.
    destruct (seq 0 rows !! i) as [j|] eqn:Hj; [|reflexivity].
    apply lookup_seq in Hj as [-> _]. simpl.
    rewrite decide_False by exact Hne. reflexivity.
Qed.

Lemma row_after_cons vocab e records init i :
  row_after vocab (e :: records) init i =
  row_after vocab records
    (fun i => if decide (vocab !! embedding_token e = Some i)
              then normalized (vector_values e) else init i) i.
Proof.
  unfold row_after, records_of_row. rewrite filter_cons.
  destruct (decide (vocab !! embedding_token e = Some i)) as [He|He].
  - rewrite last_cons.
    destruct (last (filter _ records)); reflexivity.
  - reflexivity.
Qed.

(** The loop over the records on an allocated matrix whose columns are as
    many as the values of every record. *)
Lemma load_embeddings_allocated context env vocab (rows cols : nat) records :
  (forall t i, vocab !! t = Some i -> (i < rows)%nat) ->
  Forall (fun e => length (vector_values e) = cols) records ->
  forall init : nat -> list float,
    (forall i, length (init i) = cols) ->
    load_embeddings context env vocab records (Some (init <$> seq 0 rows)) =
    Returned (Some (row_after vocab records init <$> seq 0 rows)).
Proof.
  intros Hvocab Hlen. induction Hlen as [|e records He _ IH]; intros init Hinit.
  - reflexivity.
  - cbn [load_embeddings].
    destruct (vocab !! embedding_token e) as [row|] eqn:Hrow.
    + pose proof (Hvocab _ _ Hrow) as Hlt.
      rewrite (SetNormalizedRow_eq _ _ _ (init row)); cycle 1.
      { rewrite list_lookup_fmap, lookup_seq_lt by lia. reflexivity. }
      { rewrite Hinit, He. lia. }
      rewrite drop_ge, app_nil_r by (rewrite Hinit, He; lia).
      rewrite insert_fmap_seq by exact Hlt.
      rewrite IH.
      * do 2 f_equal. apply list_fmap_ext. intros _ i _.
        rewrite row_after_cons. unfold row_after.
        destruct (last _); [reflexivity|].
        rewrite Hrow.
        destruct (decide (i = row)) as [->|Hne].
        -- rewrite decide_True by reflexivity. reflexivity.
        -- rewrite decide_False by congruence. reflexivity.
      * intros i. destruct (decide (i = row)); [|apply Hinit].
        rewrite length_normalized. exact He.
    + rewrite IH by exact Hinit.
      do 2 f_equal. apply list_fmap_ext. intros _ i _.
      rewrite row_after_cons. unfold row_after.
      destruct (last _); [reflexivity|].
      rewrite Hrow. rewrite decide_False by discriminate. reflexivity.
Qed.

(** X15. The output of [WordEmbeddingInitializer::Compute]. When the copy of
    the vectors file succeeds (as in X10), the record reader returns at least
    one record, output 0 can be allocated and all records have as many values
    as the first, [Compute] returns a matrix of [Size() + 3] rows and as many
    columns as the first record has values, in which row [i] is the normalized
    vector of the last record whose token the vocabulary maps to [i], and is
    as [setRandom] drew it if there is no such record. [embedding_init_] has
    no part in it. *)
Theorem initializer_output (fuel : nat) context env op
    source_file target_file (content : list Byte.byte)
    (e0 : TokenEmbedding) (rest : list TokenEmbedding) :
  NewRandomAccessFile (file_system env) (vectors_path_ op) = (OK, source_file) ->
  holds source_file content ->
  NewWritableFile (file_system env) (tmp_path_of (file_system env)) =
    (OK, target_file) ->
  written target_file = [] ->
  appends target_file ->
  (N.of_nat (length content) + kBytesToRead < 2 ^ 64)%N ->
  (N.of_nat (length content) < N.of_nat fuel * kBytesToRead)%N ->
  read_records env content = e0 :: rest ->
  can_allocate context 0 = true ->
  Forall (fun e => length (vector_values e) = length (vector_values e0)) rest ->
  InitializerCompute fuel context env op =
  Some (Returned (Some (
    row_after (load_vocab (word_map env)) (e0 :: rest)
      (fun i => normal_random env i <$> seq 0 (length (vector_values e0)))
    <$> seq 0 (length (word_map env) + 3)))).
Proof.
  intros Hsource Hholds Htarget Hnew Happ Hsize Hfuel Hrecords Halloc Hlen.
  destruct (CopyToTmpPath_holds fuel _ _ _ _ _ Hsource Hholds Htarget Hnew
              Happ Hsize Hfuel) as (copy & Hcopy & Hwritten).
  unfold InitializerCompute. rewrite Hcopy. cbn [copy_status target].
  change (negb (ok OK)) with false. cbv iota.
  rewrite Hwritten, Hrecords. f_equal.
  pose proof (load_embeddings_allocated context env
                (load_vocab (word_map env)) (length (word_map env) + 3)
                (length (vector_values e0)) (e0 :: rest)) as H.
  cbn [load_embeddings] in H |- *. rewrite Halloc.
  unfold random_matrix. apply H.
  - intros t i Hi. apply load_vocab_lt in Hi. lia.
  - constructor; [reflexivity|exact Hlen].
  - intros i. rewrite length_fmap, length_seq. reflexivity.
Qed.

(** X16. When the copy succeeds and the record reader returns no record,
    [Compute] returns without an error and without having allocated
    output 0. *)
Theorem initializer_without_records (fuel : nat) context env op
    source_file target_file (content : list Byte.byte) :
  NewRandomAccessFile (file_system env) (vectors_path_ op) = (OK, source_file) ->
  holds source_file content ->
  NewWritableFile (file_system env) (tmp_path_of (file_system env)) =
    (OK, target_file) ->
  written target_file = [] ->
  appends target_file ->
  (N.of_nat (length content) + kBytesToRead < 2 ^ 64)%N ->
  (N.of_nat (length content) < N.of_nat fuel * kBytesToRead)%N ->
  read_records env content = [] ->
  InitializerCompute fuel context env op = Some (Returned None).
Proof.
  intros Hsource Hholds Htarget Hnew Happ Hsize Hfuel Hrecords.
  destruct (CopyToTmpPath_holds fuel _ _ _ _ _ Hsource Hholds Htarget Hnew
              Happ Hsize Hfuel) as (copy & Hcopy & Hwritten).
  unfold InitializerCompute. rewrite Hcopy. cbn [copy_status target].
  change (negb (ok OK)) with false. cbv iota.
  rewrite Hwritten, Hrecords. reflexivity.
Qed.






(** X13. [SetNormalizedRow] in closed form: when the row exists and has at
    least as many columns as the vector has values, it overwrites the first
    entries of that row with the values divided by the norm (the square root
    of the sum of the squares, all in single precision), and leaves the rest
    of the row, all other rows and the shape of the matrix as they were. *)
Theorem normalized_row_written (values : list float) (row : nat)
    (m : list (list float)) (r : list float) :
  m !! row = Some r ->
  (length values <= length r)%nat ->
  exists m',
    SetNormalizedRow values row m = Some m' /\
    length m' = length m /\
    m' !! row = Some (normalized values ++ drop (length values) r) /\
    forall i, i <> row -> m' !! i = m !! i.
Proof. exact (SetNormalizedRow_written values row m r). Qed.

(** X14. [SetNormalizedRow] does not guard the division: for a vector whose
    values are all zero the norm is zero, and for a vector with a NaN value
    the norm is NaN; in both cases every entry that is written is NaN. *)
Theorem degenerate_vector_gives_nan_row (values : list float) (row : nat)
    (m : list (list float)) (r : list float) :
  m !! row = Some r ->
  (length values <= length r)%nat ->
  Forall (fun v => is_zero v = true) values \/
  Exists (fun v => is_nan v = true) values ->
  exists m' r',
    SetNormalizedRow values row m = Some m' /\
    m' !! row = Some r' /\
    forall col, (col < length values)%nat ->
      exists x, r' !! col = Some x /\ is_nan x = true.
Proof.
  intros Hrow Hlen Hdeg.
  destruct (SetNormalizedRow_written values row m r Hrow Hlen)
    as (m' & Hset & _ & Hrow' & _).
  exists m', (normalized values ++ drop (length values) r).
  split; [exact Hset|]. split; [exact Hrow'|]. intros col Hcol.
  destruct (lookup_lt_is_Some_2 (normalized values) col) as [x Hx];
    [rewrite length_normalized; exact Hcol|].
  exists x. split.
  - rewrite lookup_app_l by (rewrite length_normalized; exact Hcol). exact Hx.
  - pose proof (normalized_degenerate values Hdeg) as Hall.
    rewrite Forall_forall in Hall. apply Hall.
    apply list_elem_of_lookup. exists col. exact Hx.
Qed.

(* --------------------------------------------------------------------- *)
(** ** The initializer on a concrete vectors file *)

(** A read that the end of the file cuts short. *)
Lemma holds_short_read source_file (content : list Byte.byte) (chunk : N) :
  holds source_file content ->
  (N.of_nat (length content) < chunk)%N ->
  Read source_file 0 chunk = (OUT_OF_RANGE, content).
Proof.
  intros Hholds Hlen. rewrite Hholds.
  rewrite decide_False by lia. rewrite drop_0, take_ge by lia. reflexivity.
Qed.

(** X10 at a concrete input: the copy of a file of three bytes. *)
Lemma copy_round_trip_witness :
  exists copy,
    CopyToTmpPath 1 Vectors.disk "vectors" =
      Some (mkCopyResult OK (Some (tmp_path_of Vectors.disk)) (Some copy)) /\
    written copy = Vectors.vectors_file.
Proof.
  apply (copy_round_trip 1 Vectors.disk "vectors"
           (file_of Vectors.vectors_file) new_file Vectors.vectors_file).
  - reflexivity.
  - intros offset n. reflexivity.
  - reflexivity.
  - reflexivity.
  - intros w data. reflexivity.
  - vm_compute. reflexivity.
  - vm_compute. reflexivity.
Defined.

(** X11 at a concrete input: the copy of a file of three bytes to a file on
    which every [Append] fails returns OK. *)
Lemma copy_status_is_first_read_failure_witness :
  exists copy,
    CopyToTmpPath 1 Vectors.full_disk "vectors" =
      Some (mkCopyResult OK (Some (tmp_path_of Vectors.full_disk))
              (Some copy)) /\
    (appends Vectors.full_file ->
     written copy =
     written Vectors.full_file ++
     chunks_read (file_of Vectors.vectors_file) kBytesToRead 0).
Proof.
  apply (copy_status_is_first_read_failure 1 Vectors.full_disk "vectors"
           (file_of Vectors.vectors_file) Vectors.full_file 0 OUT_OF_RANGE
           Vectors.vectors_file).
  - reflexivity.
  - reflexivity.
  - intros i Hi. lia.
  - apply holds_short_read; [intros offset n; reflexivity|].
    vm_compute. reflexivity.
  - discriminate.
  - vm_compute. reflexivity.
  - lia.
Defined.

(** X13 at a concrete input: the vector (3, 4) written to row 1 of a matrix
    with three columns. *)
Lemma normalized_row_written_witness :
  exists m',
    SetNormalizedRow [fl 3; fl 4] 1 Vectors.small_matrix = Some m' /\
    length m' = length Vectors.small_matrix /\
    m' !! 1%nat =
      Some (normalized [fl 3; fl 4] ++
            drop (length [fl 3; fl 4]) [fl 1; fl 1; fl 7]) /\
    forall i, i <> 1%nat -> m' !! i = Vectors.small_matrix !! i.
Proof.
  apply (normalized_row_written [fl 3; fl 4] 1 Vectors.small_matrix
           [fl 1; fl 1; fl 7]).
  - reflexivity.
  - simpl. lia.
Defined.

(** X14 at a concrete input: the zero vector written to row 1. *)
Lemma degenerate_vector_gives_nan_row_witness :
  exists m' r',
    SetNormalizedRow [fl 0; fl 0] 1 Vectors.small_matrix = Some m' /\
    m' !! 1%nat = Some r' /\
    forall col, (col < length [fl 0; fl 0])%nat ->
      exists x, r' !! col = Some x /\ is_nan x = true.
Proof.
  apply (degenerate_vector_gives_nan_row [fl 0; fl 0] 1 Vectors.small_matrix
           [fl 1; fl 1; fl 7]).
  - reflexivity.
  - simpl. lia.
  - left. repeat constructor.
Defined.

(** X15 at a concrete input: four records over a word map of three terms. *)
Lemma initializer_output_witness :
  InitializerCompute 1 Vectors.context Vectors.initializer_env
    Vectors.initializer =
  Some (Returned (Some (
    row_after (load_vocab (word_map Vectors.initializer_env)) Vectors.records
      (fun i =>
         normal_random Vectors.initializer_env i <$> seq 0 (length [fl 3; fl 4]))
    <$> seq 0 (length (word_map Vectors.initializer_env) + 3)))).
Proof.
  apply (initializer_output 1 Vectors.context Vectors.initializer_env
           Vectors.initializer (file_of Vectors.vectors_file) new_file
           Vectors.vectors_file
           (mkTokenEmbedding "cat" [fl 3; fl 4])
           [mkTokenEmbedding "dog" [fl 1; fl 1];
            mkTokenEmbedding "the" [fl 0; fl 0];
            mkTokenEmbedding "cat" [fl 0; fl 2]]).
  - reflexivity.
  - intros offset n. reflexivity.
  - reflexivity.
  - reflexivity.
  - intros w data. reflexivity.
  - vm_compute. reflexivity.
  - vm_compute. reflexivity.
  - reflexivity.
  - reflexivity.
  - repeat constructor.
Defined.

(** X16 at a concrete input: a vectors file without records. *)
Lemma initializer_without_records_witness :
  InitializerCompute 1 Vectors.context Vectors.empty_env Vectors.initializer =
  Some (Returned None).
Proof.
  apply (initializer_without_records 1 Vectors.context Vectors.empty_env
           Vectors.initializer (file_of Vectors.vectors_file) new_file
           Vectors.vectors_file).
  - reflexivity.
  - intros offset n. reflexivity.
  - reflexivity.
  - reflexivity.
  - intros w data. reflexivity.
  - vm_compute. reflexivity.
  - vm_compute. reflexivity.
  - reflexivity.
Defined.


(** The run behind the witnesses: the copy gets the name made of the process
    id and the time; row 0 ("the", shadowed by id 2) and the last three rows
    are random, row 1 has the second vector of "cat", row 2 the quotients of
    the zero vector of "the". *)
Example initializer_run :
  tmp_path_of Vectors.disk = "/tmp/42.1000"%string /\
  InitializerCompute 1 Vectors.context Vectors.initializer_env
    Vectors.initializer = Some (Returned (Some Vectors.output)).
Proof.
  split; [vm_compute; reflexivity|].
  vm_compute. reflexivity.
Qed.
